(** * SpenderSentry: audit of ERC-20 approvals

    A shallow embedding of [spendersentry.py] and the proofs of the
    properties its specification states.

    Python integers are unbounded and are modelled by [Z]; strings are
    [string] (sequences of bytes, so a non-ASCII character is the sequence
    of its UTF-8 bytes); a [dict] whose iteration order is observed is an
    insertion-ordered association list ([Dict]), the token-metadata cache,
    whose order is never observed, is a [gmap]; code that can raise lives in
    the error monad [result]. *)

From Stdlib Require Import ZArith List String Ascii Lia.
From Stdlib Require Import DecimalString DecimalZ.
From Stdlib Require Import Sorting.Sorted Sorting.Permutation.
From stdpp Require Import gmap strings list.

Local Open Scope Z_scope.

(** ** Exceptions and the error monad *)

(** The exceptions the program can meet.  [RpcError] stands for whatever a
    call through web3 raises (a revert, a malformed return value, a network
    error, a provider limit); [ValueError] is what
    [Web3.to_checksum_address] raises on a string that is not an address,
    [InvalidAddress] what [w3.eth.contract] raises on an address it does
    not accept, [OSError] what [open] raises.  All of them are subclasses
    of Python's [Exception]. *)
Inductive exn : Type :=
| RpcError (msg : string)
| ValueError
| InvalidAddress
| OSError
| IndexError
| KeyError
| OverflowError
| ZeroDivisionError.

Inductive result (A : Type) : Type :=
| Ok (a : A)
| Raise (e : exn).
Arguments Ok {A} a.
Arguments Raise {A} e.

Definition bind {A B : Type} (m : result A) (k : A -> result B) : result B :=
  match m with
  | Ok a => k a
  | Raise e => Raise e
  end.

(** [try: body / except Exception: handler]. *)
Definition try_except {A : Type} (body handler : result A) : result A :=
  match body with
  | Ok a => Ok a
  | Raise _ => handler
  end.

#[global] Instance result_ret : MRet result := fun A a => Ok a.
#[global] Instance result_bind : MBind result := fun A B k m => bind m k.

Definition is_ok {A : Type} (m : result A) : bool :=
  match m with Ok _ => true | Raise _ => false end.

(** ** Python dictionaries

    A [dict] keeps its keys in insertion order; assigning to a key that is
    already present replaces the value and leaves the key where it is. *)
Module Dict.
Section Dict.
Context {K V : Type} `{EqDecision K}.

Fixpoint get (d : list (K * V)) (k : K) : option V :=
  match d with
  | [] => None
  | (k', v) :: d' => if decide (k = k') then Some v else get d' k
  end.

Fixpoint set (d : list (K * V)) (k : K) (v : V) : list (K * V) :=
  match d with
  | [] => [(k, v)]
  | (k', v') :: d' =>
      if decide (k = k') then (k', v) :: d' else (k', v') :: set d' k v
  end.

Definition contains (d : list (K * V)) (k : K) : bool :=
  match get d k with Some _ => true | None => false end.

Definition keys (d : list (K * V)) : list K := map fst d.

(** [d[k] = v] for each [(k, v)] of [l] in turn. *)
Definition update_all (d : list (K * V)) (l : list (K * V)) : list (K * V) :=
  fold_left (fun d kv => set d (fst kv) (snd kv)) l d.

(** A dictionary display [{k1: v1, k2: v2, ...}]. *)
Definition of_list (l : list (K * V)) : list (K * V) := update_all [] l.
End Dict.
End Dict.

(** ** The parts of web3 the program uses *)

Definition is_hex_digit (a : ascii) : bool :=
  let n := nat_of_ascii a in
  ((48 <=? n)%nat && (n <=? 57)%nat)
  || ((65 <=? n)%nat && (n <=? 70)%nat)
  || ((97 <=? n)%nat && (n <=? 102)%nat).

Fixpoint all_hex (s : string) : bool :=
  match s with
  | EmptyString => true
  | String a s' => is_hex_digit a && all_hex s'
  end.

(** A hexadecimal address: "0x" and 40 hexadecimal digits, in any case. *)
Definition is_hex_address (s : string) : bool :=
  match s with
  | String "0" (String "x" body) => (String.length body =? 40)%nat && all_hex body
  | _ => false
  end.

(** Static helpers of web3.  [checksum_address s] is the checksummed form
    of [s] when [s] is an address and [None] when it is not; web3 takes
    every hexadecimal address for one.  [keccak_text_hex] is
    [Web3.keccak(text=...).hex()]. *)
Class Web3Lib : Type := {
  checksum_address : string -> option string;
  keccak_text_hex : string -> string;
  checksum_address_hex :
    forall s : string, is_hex_address s = true -> checksum_address s <> None
}.

(** The value of an option that is not [None]. *)
Definition the {A : Type} (o : option A) : o <> None -> A :=
  match o as o0 return o0 <> None -> A with
  | Some a => fun _ => a
  | None => fun Hne => False_rect A (Hne eq_refl)
  end.

(** A table cell is a string or an integer. *)
Inductive cell : Type :=
| CStr (s : string)
| CInt (n : Z).

(** [tabulate(table, headers=..., tablefmt="github")]. *)
Class Tabulate : Type := {
  tabulate_github : list (list cell) -> list string -> string
}.

(** One log entry returned by [eth_getLogs]: the emitting contract, the
    topics (each already rendered by [.hex()]) and the data payload. *)
Record Log : Type := {
  log_address : string;
  log_topics : list string;
  log_data : list Byte.byte;
  log_blockNumber : Z
}.

Record Filter : Type := {
  fromBlock : Z;
  toBlock : Z;
  topics : list string
}.

(** A provider [w3]: what each request answers, a value or an exception.
    The answer is taken to depend on the request alone.  [eth_contract]
    is [w3.eth.contract(address=..., abi=ERC20_ABI)], which checks the
    address; the contract object it returns stands for the address, so the
    four calls through it are given per address. *)
Record Web3 : Type := {
  is_connected : bool;
  eth_chain_id : result Z;
  eth_block_number : result Z;
  eth_get_logs : Filter -> result (list Log);
  eth_contract : string -> result unit;
  call_symbol : string -> result string;
  call_decimals : string -> result Z;
  call_allowance : string -> string -> string -> result Z;
  call_balanceOf : string -> string -> result Z
}.

Section Program.
Context `{Web3Lib}.

Definition SIG_APPROVAL : string :=
  keccak_text_hex "Approval(address,address,uint256)".

(** [Web3.to_checksum_address(s)]. *)
Definition to_checksum_address (s : string) : result string :=
  match checksum_address s with
  | Some a => Ok a
  | None => Raise ValueError
  end.

(** The display of [SAFE_SPENDERS_ETH] is evaluated when the module is
    imported.  Each of its keys is [Web3.to_checksum_address(a)] for a
    literal [a] that is a hexadecimal address, so the call returns and the
    key is the value it returns. *)
Definition checksum_literal (a : string) (Ha : is_hex_address a = true)
  : string :=
  the (checksum_address a) (checksum_address_hex a Ha).

Definition SAFE_SPENDERS_ETH : list (string * string) :=
  Dict.of_list
    [ (checksum_literal "0xE592427A0AEce92De3Edee1F18E0157C05861564" eq_refl,
       "Uniswap V3 SwapRouter");
      (checksum_literal "0x68b3465833fb72A70ecDF485E0e4C7bD8665Fc45" eq_refl,
       "Uniswap V3 SwapRouter02");
      (checksum_literal "0x7a250d5630B4cF539739dF2C5dAcb4c659F2488D" eq_refl,
       "Uniswap V2 Router");
      (checksum_literal "0x1111111254EEB25477B68fb85Ed929f73A960582" eq_refl,
       "1inch Aggregation Router");
      (checksum_literal "0xDef1C0ded9bec7F1a1670819833240f027b25EfF" eq_refl,
       "0x Exchange Proxy") ].

Definition INFINITE_THRESHOLD : Z := 2 ^ 255.

(** ** Block range chunker *)

(** One step of the generator [chunk_ranges]: from the cursor [cur], either
    the next pair and the next cursor, or the end of the iteration. *)
Definition chunk_next (cur end_ step : Z) : option ((Z * Z) * Z) :=
  if cur <=? end_
  then Some ((cur, Z.min end_ (cur + step - 1)), cur + step)
  else None.

(** The pairs the generator yields, collected; [None] when [fuel] steps do
    not reach the end of the [while] loop. *)
Fixpoint chunk_ranges (fuel : nat) (start end_ step : Z) : option (list (Z * Z)) :=
  match fuel with
  | O => None
  | S fuel' =>
      match chunk_next start end_ step with
      | None => Some []
      | Some (c, cur') =>
          match chunk_ranges fuel' cur' end_ step with
          | Some cs => Some (c :: cs)
          | None => None
          end
      end
  end.

(** The first [n] pairs the generator yields, all of them if it ends
    sooner: what a loop over it has seen after [n] turns. *)
Fixpoint chunk_take (n : nat) (start end_ step : Z) : list (Z * Z) :=
  match n with
  | O => []
  | S n' =>
      match chunk_next start end_ step with
      | None => []
      | Some (c, cur') => c :: chunk_take n' cur' end_ step
      end
  end.

(** ** Risk scorer *)

Definition calc_risk (allowance_raw balance_raw : Z) (spender : string) : Z :=
  let is_infinite := INFINITE_THRESHOLD <=? allowance_raw in
  let in_allow := Dict.contains SAFE_SPENDERS_ETH spender in
  if (is_infinite && negb in_allow)
     || ((0 <? balance_raw) && (10 * balance_raw <? allowance_raw) && negb in_allow)
  then 3
  else if ((balance_raw <? allowance_raw) && negb in_allow)
          || (is_infinite && in_allow)
  then 2
  else 1.

(** ** Strings and numbers *)

(** [str(n)] for an integer. *)
Definition str (n : Z) : string := NilZero.string_of_int (Z.to_int n).

Definition digit_char (d : Z) : ascii := ascii_of_nat (48 + Z.to_nat d).

(** The [k] low decimal digits of [n], most significant first. *)
Fixpoint zfill (k : nat) (n : Z) : string :=
  match k with
  | O => EmptyString
  | S k' => zfill k' (n / 10) +:+ String (digit_char (n mod 10)) EmptyString
  end.

(** [s.rstrip(c)] for a single character [c]. *)
Fixpoint rstrip (c : ascii) (s : string) : string :=
  match s with
  | EmptyString => EmptyString
  | String a s' =>
      match rstrip c s' with
      | EmptyString => if Ascii.eqb a c then EmptyString else String a EmptyString
      | r => String a r
      end
  end.

(** [s.lower()] on ASCII letters. *)
Definition ascii_lower (a : ascii) : ascii :=
  let n := nat_of_ascii a in
  if (65 <=? n)%nat && (n <=? 90)%nat then ascii_of_nat (n + 32) else a.

Fixpoint lower (s : string) : string :=
  match s with
  | EmptyString => EmptyString
  | String a s' => String (ascii_lower a) (lower s')
  end.

(** [s[n:]] and [s[-n:]] for [n > 0]. *)
Definition drop_chars (n : nat) (s : string) : string :=
  substring n (String.length s - n) s.

Definition last_chars (n : nat) (s : string) : string :=
  substring (String.length s - n) n s.

Fixpoint string_repeat (c : ascii) (n : nat) : string :=
  match n with
  | O => EmptyString
  | S n' => String c (string_repeat c n')
  end.

(** [int.from_bytes(bs, byteorder="big")]. *)
Definition int_from_bytes_big (bs : list Byte.byte) : Z :=
  fold_left (fun acc b => acc * 256 + Z.of_N (Byte.to_N b)) bs 0.

(** ** Floating point

    A finite binary64 number is [(-1)^fsign * fmant * 2^fexp] with
    [0 <= fmant <= 2^53] and [-1074 <= fexp].  The program makes floats in
    one place, the true division of two integers, which CPython rounds
    correctly (to the nearest binary64 number, ties to even) and which
    raises [OverflowError] when the rounded quotient does not fit; and it
    reads them in one place, the format [.8f], which prints the exact
    value rounded to 8 decimals, ties to even. *)
Record float : Type := { fsign : bool; fmant : Z; fexp : Z }.

(** The integer nearest to [n / d], ties to even, for [0 <= n], [0 < d]. *)
Definition div_half_even (n d : Z) : Z :=
  let q := n / d in
  let r := n mod d in
  if 2 * r <? d then q
  else if d <? 2 * r then q + 1
  else if Z.even q then q else q + 1.

(** [floor (log2 (n / d))] for [0 < n], [0 < d]. *)
Definition log2_quot (n d : Z) : Z :=
  let k := Z.log2 n - Z.log2 d in
  let below := if 0 <=? k then n <? d * 2 ^ k else n * 2 ^ (- k) <? d in
  if below then k - 1 else k.

(** [a / b] on integers. *)
Definition true_divide (a b : Z) : result float :=
  if b =? 0 then Raise ZeroDivisionError
  else
    let negate := xorb (a <? 0) (b <? 0) in
    let n := Z.abs a in
    let d := Z.abs b in
    if n =? 0 then Ok {| fsign := negate; fmant := 0; fexp := 0 |}
    else
      let e := Z.max (log2_quot n d - 52) (-1074) in
      let m := if 0 <=? e then div_half_even n (d * 2 ^ e)
               else div_half_even (n * 2 ^ (- e)) d in
      if (0 <? m) && (1024 <=? Z.log2 m + e) then Raise OverflowError
      else Ok {| fsign := negate; fmant := m; fexp := e |}.

(** The value times [10^8], rounded to an integer. *)
Definition scaled_1e8 (x : float) : Z :=
  if 0 <=? fexp x then fmant x * 2 ^ fexp x * 10 ^ 8
  else div_half_even (fmant x * 10 ^ 8) (2 ^ (- fexp x)).

(** [f"{x:.8f}"]. *)
Definition format_8f (x : float) : string :=
  let q := scaled_1e8 x in
  (if fsign x then "-" else "") +:+ str (q / 10 ^ 8) +:+ "." +:+ zfill 8 (q mod 10 ^ 8).

Definition human_amount (value decimals : Z) : result string :=
  if decimals <=? 0 then Ok (str value)
  else
    scaled ← true_divide value (10 ^ decimals);
    Ok (rstrip "." (rstrip "0" (format_8f scaled))).

(** ** Metadata and allowance fetcher *)

Definition get_token_meta (w3 : Web3) (addr : string) : result (string * Z) :=
  _ ← eth_contract w3 addr;
  symbol ← try_except (call_symbol w3 addr) (Ok "UNKNOWN"%string);
  decimals ← try_except (call_decimals w3 addr) (Ok 18);
  Ok (symbol, decimals).

Definition get_allowance_balance (w3 : Web3) (token owner spender : string)
  : result (Z * Z) :=
  _ ← eth_contract w3 token;
  allow ← try_except (call_allowance w3 token owner spender) (Ok 0);
  bal ← try_except (call_balanceOf w3 token owner) (Ok 0);
  Ok (allow, bal).

(** ** Log scanner *)

Definition owner_topic (owner : string) : string :=
  "0x" +:+ string_repeat "0" 24 +:+ lower (drop_chars 2 owner).

Definition scan_filter (owner : string) (a b : Z) : Filter :=
  {| fromBlock := a; toBlock := b;
     topics := [SIG_APPROVAL; owner_topic owner] |}.

(** The key and the raw value read from one log. *)
Definition log_entry (lg : Log) : result ((string * string) * Z) :=
  token ← to_checksum_address (log_address lg);
  spender_topic ← match log_topics lg !! 2%nat with
                   | Some t => Ok t
                   | None => Raise IndexError
                   end;
  spender ← to_checksum_address ("0x" +:+ last_chars 40 spender_topic);
  let raw := int_from_bytes_big (log_data lg) in
  Ok ((token, spender), raw).

(** The inner loop [for lg in logs]. *)
Fixpoint scan_logs (logs : list Log) (pairs : list ((string * string) * Z))
  : result (list ((string * string) * Z)) :=
  match logs with
  | [] => Ok pairs
  | lg :: rest =>
      '(key, raw) ← log_entry lg;
      scan_logs rest (Dict.set pairs key raw)
  end.

(** The outer loop [for a, b in chunk_ranges(start, latest, step)], which
    draws one pair from the generator at each turn. *)
Fixpoint scan_chunks (fuel : nat) (w3 : Web3) (owner : string)
    (cur latest step : Z) (pairs : list ((string * string) * Z))
  : option (result (list ((string * string) * Z))) :=
  match fuel with
  | O => None
  | S fuel' =>
      match chunk_next cur latest step with
      | None => Some (Ok pairs)
      | Some ((a, b), cur') =>
          match eth_get_logs w3 (scan_filter owner a b) with
          | Raise e => Some (Raise e)
          | Ok logs =>
              match scan_logs logs pairs with
              | Raise e => Some (Raise e)
              | Ok pairs' => scan_chunks fuel' w3 owner cur' latest step pairs'
              end
          end
      end
  end.

(** The block range of the scan: [(start, latest)]. *)
Definition scan_bounds (w3 : Web3) (from_block to_block : option Z)
  : result (Z * Z) :=
  latest ← match to_block with
            | None => eth_block_number w3
            | Some b => Ok b
            end;
  let start := match from_block with
               | None => latest - 200000
               | Some f => f
               end in
  let start := Z.max start 0 in
  Ok (start, latest).

Definition scan_approvals (fuel : nat) (w3 : Web3) (owner : string)
    (from_block to_block : option Z) (step : Z)
  : option (result (list ((string * string) * Z))) :=
  match scan_bounds w3 from_block to_block with
  | Raise e => Some (Raise e)
  | Ok (start, latest) => scan_chunks fuel w3 owner start latest step []
  end.

(** ** Report builder *)

Record AllowanceRow : Type := {
  token : string;
  symbol : string;
  decimals : Z;
  spender : string;
  spender_tag : string;
  allowance : string;
  allowance_raw : Z;
  balance : string;
  balance_raw : Z;
  risk : Z
}.

(** The sort key [(-r.risk, -r.allowance_raw)] and the order of tuples. *)
Definition sort_key (r : AllowanceRow) : Z * Z := (- risk r, - allowance_raw r).

Definition tuple_ltb (x y : Z * Z) : bool :=
  (fst x <? fst y) || ((fst x =? fst y) && (snd x <? snd y)).

(** [list.sort(key=...)] is a stable sort: an element goes before the first
    one whose key is not smaller than its own. *)
Fixpoint insert_by_key {A : Type} (key : A -> Z * Z) (x : A) (l : list A) : list A :=
  match l with
  | [] => [x]
  | y :: l' =>
      if tuple_ltb (key y) (key x) then y :: insert_by_key key x l'
      else x :: y :: l'
  end.

Fixpoint sort_by_key {A : Type} (key : A -> Z * Z) (l : list A) : list A :=
  match l with
  | [] => []
  | x :: l' => insert_by_key key x (sort_by_key key l')
  end.

(** The loop [for (token, spender), _raw in pairs.items()]. *)
Fixpoint build_rows (w3 : Web3) (owner : string)
    (items : list ((string * string) * Z))
    (meta : gmap string (string * Z)) (rows : list AllowanceRow)
  : result (list AllowanceRow) :=
  match items with
  | [] => Ok rows
  | ((token, spender), _raw) :: rest =>
      meta ← match meta !! token with
              | Some _ => Ok meta
              | None => m ← get_token_meta w3 token; Ok (<[token := m]> meta)
              end;
      '(symbol, decimals) ← match meta !! token with
                             | Some m => Ok m
                             | None => Raise KeyError
                             end;
      '(allow_raw, bal_raw) ← get_allowance_balance w3 token owner spender;
      allow_h ← human_amount allow_raw decimals;
      bal_h ← human_amount bal_raw decimals;
      let tag := default ""%string (Dict.get SAFE_SPENDERS_ETH spender) in
      let risk := calc_risk allow_raw bal_raw spender in
      build_rows w3 owner rest meta
        (rows ++ [ {| token := token; symbol := symbol; decimals := decimals;
                      spender := spender; spender_tag := tag;
                      allowance := allow_h; allowance_raw := allow_raw;
                      balance := bal_h; balance_raw := bal_raw;
                      risk := risk |} ])
  end.

Definition build_report (w3 : Web3) (owner : string)
    (pairs : list ((string * string) * Z)) : result (list AllowanceRow) :=
  rows ← build_rows w3 owner pairs ∅ [];
  Ok (sort_by_key sort_key rows).

(** ** Table *)

Definition table_headers : list string :=
  ["!"; "SYM"; "TOKEN"; "SPENDER"; "BAL"; "ALLOW"; "RISK"]%string.

(** One line of the local [table] of [print_table]. *)
Definition table_line (highlight_infinite : bool) (r : AllowanceRow) : list cell :=
  let star := if 3 <=? risk r then "★" else if risk r =? 2 then "•" else "" in
  let inf := if (INFINITE_THRESHOLD <=? allowance_raw r) && highlight_infinite
             then " ∞" else "" in
  let tag := if String.eqb (spender_tag r) "" then ""
             else " (" +:+ spender_tag r +:+ ")" in
  [ CStr star; CStr (symbol r); CStr (token r); CStr (spender r +:+ tag);
    CStr (balance r); CStr (allowance r +:+ inf); CInt (risk r) ].

(** What [print_table] prints. *)
Definition print_table `{Tabulate} (rows : list AllowanceRow)
    (highlight_infinite : bool) : string :=
  tabulate_github (map (table_line highlight_infinite) rows) table_headers.

(** ** Command line *)

Record Args : Type := {
  arg_address : string;
  arg_rpc : string;
  arg_from_block : option Z;
  arg_to_block : option Z;
  arg_step : Z;
  arg_json_path : option string;
  arg_top : Z
}.

(** What [ap.parse_args(argv)] does: it returns the arguments, or, for
    [--help], a missing [--address] or a malformed option, it writes its
    text and raises [SystemExit(code)]. *)
Inductive parsed : Type :=
| Parsed (args : Args)
| ParserExit (text : string) (code : Z).

(** What is outside a run: the command line as [argparse] reads it, the
    provider behind each RPC URL, and whether a file can be opened for
    writing. *)
Record World : Type := {
  parse_args : option (list string) -> parsed;
  http_provider : string -> Web3;
  open_w : string -> result unit
}.

(** What a run does to the outside: the text of [argparse], lines printed,
    a JSON file written. *)
Inductive event : Type :=
| Usage (text : string)
| Print (s : string)
| WriteJson (path : string) (rows : list AllowanceRow).

(** The argument of a [SystemExit]: a status code or a message. *)
Inductive exit_arg : Type :=
| ExitCode (code : Z)
| ExitMessage (msg : string).

(** How a run ends: [return code], [raise SystemExit(...)], or an
    exception that nothing catches. *)
Inductive outcome : Type :=
| Returned (code : Z)
| SystemExit (arg : exit_arg)
| Uncaught (e : exn).

Definition nl : string := String (ascii_of_nat 10) EmptyString.

(** [rows[:top]]. *)
Definition slice_to {A : Type} (top : Z) (l : list A) : list A :=
  if 0 <=? top then take (Z.to_nat top) l
  else take (length l - Z.to_nat (- top)) l.

Definition revoke_hint : list event :=
  [ Print (nl +:+ "Подсказка: для ревока можете вызвать у токена метод `approve(spender, 0)`.");
    Print "Пример (web3.py): c.functions.approve('<SPENDER>', 0).transact({'from': owner})";
    Print "Внимание: для отправки on-chain транзакций потребуется ваш ключ/кастодиал и gas." ].

(** The end of [main], from the JSON file on. *)
Definition write_report (world : World) (args : Args)
    (rows : list AllowanceRow) (out : list event) : list event * outcome :=
  match arg_json_path args with
  | Some path =>
      if String.eqb path "" then (out ++ revoke_hint, Returned 0)
      else
        match open_w world path with
        | Raise e => (out, Uncaught e)
        | Ok _ =>
            (out ++ [ WriteJson path rows;
                      Print (nl +:+ "JSON сохранён: " +:+ path) ]
                 ++ revoke_hint,
             Returned 0)
        end
  | None => (out ++ revoke_hint, Returned 0)
  end.

(** [main(argv)]; [None] when [fuel] does not suffice for the scan.  The
    address is checksummed before the provider is built and asked
    anything; writing to the standard output is taken to succeed. *)
Definition main `{Tabulate} (fuel : nat) (world : World)
    (argv : option (list string)) : option (list event * outcome) :=
  match parse_args world argv with
  | ParserExit text code => Some ([Usage text], SystemExit (ExitCode code))
  | Parsed args =>
      match to_checksum_address (arg_address args) with
      | Raise e => Some ([], Uncaught e)
      | Ok owner =>
          let w3 := http_provider world (arg_rpc args) in
          if negb (is_connected w3)
          then Some ([], SystemExit
                           (ExitMessage "Не удалось подключиться к RPC. Проверьте --rpc."))
          else
            match (cid ← eth_chain_id w3; bn ← eth_block_number w3; Ok (cid, bn)) with
            | Raise e => Some ([], Uncaught e)
            | Ok (cid, bn) =>
                let out :=
                  [ Print ("Chain ID: " +:+ str cid +:+ " | Latest block: " +:+ str bn);
                    Print "Сканирую Approval события... (это оффчейн-лог без API-ключей)" ] in
                match scan_approvals fuel w3 owner (arg_from_block args)
                        (arg_to_block args) (arg_step args) with
                | None => None
                | Some (Raise e) => Some (out, Uncaught e)
                | Some (Ok []) =>
                    Some (out ++ [ Print "Не найдено ни одного Approval. Возможно, диапазон блоков мал или адрес не выдавал аппрувы." ],
                          Returned 0)
                | Some (Ok pairs) =>
                    match build_report w3 owner pairs with
                    | Raise e => Some (out, Uncaught e)
                    | Ok rows =>
                        let out := out ++
                          [ Print (nl +:+ "Итоги (отсортировано по риску и размеру allowance):");
                            Print (print_table (slice_to (arg_top args) rows) true) ] in
                        Some (write_report world args rows out)
                    end
                end
            end
      end
  end.

End Program.

(** ** Vocabulary of the statements *)

(** The blocks of an inclusive range, in ascending order. *)
Definition blocks (c : Z * Z) : list Z :=
  map (fun i => fst c + Z.of_nat i) (seq 0 (Z.to_nat (snd c - fst c + 1))).

Definition chunk_size (c : Z * Z) : Z := snd c - fst c + 1.

(** Every chunk starts right after the one before it. *)
Fixpoint contiguous (cs : list (Z * Z)) : Prop :=
  match cs with
  | c1 :: ((c2 :: _) as rest) => fst c2 = snd c1 + 1 /\ contiguous rest
  | _ => True
  end.

(** Every chunk but the last has exactly [step] blocks. *)
Fixpoint full_but_last (step : Z) (cs : list (Z * Z)) : Prop :=
  match cs with
  | c1 :: ((_ :: _) as rest) => chunk_size c1 = step /\ full_but_last step rest
  | _ => True
  end.

Definition ceil_div (n d : Z) : Z := (n + d - 1) / d.

(** Enough fuel for [chunk_ranges] when the step is positive. *)
Definition chunk_fuel (start end_ : Z) : nat := S (Z.to_nat (end_ - start + 1)).

Definition starts_at (start end_ : Z) (cs : list (Z * Z)) : Prop :=
  match cs with
  | [] => end_ < start
  | c :: _ => fst c = start
  end.

(** [s.endswith(suffix)]. *)
Fixpoint ends_with (suffix s : string) : bool :=
  String.eqb suffix s ||
  match s with
  | EmptyString => false
  | String _ s' => ends_with suffix s'
  end.

(** Every character of a string satisfies [P]. *)
Fixpoint all_chars (P : ascii -> Prop) (s : string) : Prop :=
  match s with
  | EmptyString => True
  | String a s' => P a /\ all_chars P s'
  end.

Definition is_digit (a : ascii) : Prop :=
  exists d : Z, 0 <= d <= 9 /\ a = digit_char d.

(** The number [q / 10^8], for [0 <= q], written with up to 8 fractional
    digits: the integer part alone when the fraction is zero, else the
    integer part, a point, and the 8 digits of the fraction without their
    trailing zeros. *)
Definition fixed8 (q : Z) : string :=
  if q mod 10 ^ 8 =? 0 then str (q / 10 ^ 8)
  else str (q / 10 ^ 8) +:+ "." +:+ rstrip "0" (zfill 8 (q mod 10 ^ 8)).

(** A row that may stand before another in the report: higher risk, or the
    same risk and an allowance at least as large. *)
Definition row_before (r1 r2 : AllowanceRow) : Prop :=
  risk r2 < risk r1 \/ (risk r1 = risk r2 /\ allowance_raw r2 <= allowance_raw r1).

(** The order [sort_by_key] sorts into: the key of [x] is not above the key
    of [y]. *)
Definition key_le {A : Type} (key : A -> Z * Z) (x y : A) : Prop :=
  tuple_ltb (key y) (key x) = false.


(** Logs in non-decreasing order of block height. *)
Definition block_ordered (logs : list Log) : Prop :=
  StronglySorted (fun a b => log_blockNumber a <= log_blockNumber b) logs.

(** The two lines a run prints before it scans. *)
Definition banner (cid bn : Z) : list event :=
  [ Print ("Chain ID: " +:+ str cid +:+ " | Latest block: " +:+ str bn);
    Print "Сканирую Approval события... (это оффчейн-лог без API-ключей)" ].

(** ** Fixtures for the concrete runs *)

(** A hexadecimal address is returned as it is given, any other string
    is refused, and the event signature is left symbolic; the table is not
    drawn. *)
Definition some_not_none {A : Type} (a : A) : Some a <> None :=
  fun E : Some a = None =>
    eq_ind (Some a) (fun o => match o with Some _ => True | None => False end)
           I None E.

Definition plain_lib : Web3Lib :=
  {| checksum_address := fun s => if is_hex_address s then Some s else None;
     keccak_text_hex := fun s => "keccak:" +:+ s;
     checksum_address_hex := fun s Hs =>
       @eq_ind_r bool true
         (fun b : bool => (if b then Some s else None) <> None)
         (some_not_none s) (is_hex_address s) Hs |}.

Definition plain_tabulate : Tabulate :=
  {| tabulate_github := fun _ _ => ""%string |}.

Definition demo_token : string := "0xdAC17F958D2ee523a2206206994597C13D831ec7".
Definition demo_owner : string := "0x00000000000000000000000000000000000000A1".
Definition demo_spender : string := "0x00000000000000000000000000000000000000b2".
Definition demo_key : string * string := (demo_token, demo_spender).

(** An Approval log of [demo_token] for [demo_spender]. *)
Definition demo_log (data : list Byte.byte) (height : Z) : Log :=
  {| log_address := demo_token;
     log_topics :=
       [ "8c5be1e5ebec7d5bd14f71427d1e84f3dd0314c0f7b2291e5b200ac8c7c3b925";
         "00000000000000000000000000000000000000000000000000000000000000a1";
         "000000000000000000000000" +:+ "00000000000000000000000000000000000000b2" ]%string;
     log_data := data;
     log_blockNumber := height |}.

Definition demo_log_early : Log := demo_log [Byte.x00; Byte.x05] 3.
Definition demo_log_late : Log := demo_log [Byte.x00; Byte.x07] 12.

(** [w3.eth.contract] of a provider that accepts the hexadecimal
    addresses. *)
Definition bind_hex (a : string) : result unit :=
  if is_hex_address a then Ok tt else Raise InvalidAddress.

(** A provider at block 19 with one event in blocks 0..9 and a later one
    for the same pair in blocks 10..19; the [symbol] and [allowance] calls
    fail. *)
Definition demo_w3 : Web3 :=
  {| is_connected := true;
     eth_chain_id := Ok 1;
     eth_block_number := Ok 19;
     eth_get_logs := fun f =>
       if fromBlock f =? 0 then Ok [demo_log_early]
       else if fromBlock f =? 10 then Ok [demo_log_late]
       else Ok [];
     eth_contract := bind_hex;
     call_symbol := fun _ => Raise (RpcError "execution reverted");
     call_decimals := fun _ => Ok 6;
     call_allowance := fun _ _ _ => Raise (RpcError "timeout");
     call_balanceOf := fun _ _ => Ok 100 |}.

(** The same provider, whose second log query fails. *)
Definition failing_w3 : Web3 :=
  {| is_connected := true;
     eth_chain_id := Ok 1;
     eth_block_number := Ok 19;
     eth_get_logs := fun f =>
       if fromBlock f =? 0 then Ok [demo_log_early]
       else Raise (RpcError "query returned more than 10000 results");
     eth_contract := bind_hex;
     call_symbol := call_symbol demo_w3;
     call_decimals := call_decimals demo_w3;
     call_allowance := call_allowance demo_w3;
     call_balanceOf := call_balanceOf demo_w3 |}.

Definition demo_args : Args :=
  {| arg_address := demo_owner;
     arg_rpc := "https://cloudflare-eth.com";
     arg_from_block := Some 0;
     arg_to_block := Some 19;
     arg_step := 10;
     arg_json_path := None;
     arg_top := 50 |}.

Definition demo_row (spd : string) (raw : Z) (rk : Z) : AllowanceRow :=
  {| token := demo_token; symbol := "USDT"; decimals := 0;
     spender := spd; spender_tag := "";
     allowance := str raw; allowance_raw := raw;
     balance := "100"; balance_raw := 100;
     risk := rk |}.

(** A row with the largest allowance there is, for a spender without a
    label. *)
Definition row_max : AllowanceRow := demo_row demo_spender (2 ^ 256 - 1) 3.

Definition demo_rows : list AllowanceRow :=
  [ demo_row "0x01" 50 1; demo_row "0x02" 1100 3; demo_row "0x03" 150 2;
    demo_row "0x04" 1100 3; demo_row "0x05" (2 ^ 256 - 1) 3 ].


(** ** Vocabulary of the further properties *)

(** What a run prints when the scan finds nothing. *)
Definition no_approvals_message : event :=
  Print "Не найдено ни одного Approval. Возможно, диапазон блоков мал или адрес не выдавал аппрувы.".

(** The logs of a chain whose block height lies in [a..b], in the order
    of the chain. *)
Definition logs_in_range (chain : list Log) (a b : Z) : list Log :=
  filter (fun lg => a <= log_blockNumber lg <= b) chain.

(** A provider that answers every log query of the scan of [owner] with
    the logs of [chain] in the range asked. *)
Definition serves `{Web3Lib} (w3 : Web3) (owner : string) (chain : list Log)
  : Prop :=
  forall a b : Z,
    eth_get_logs w3 (scan_filter owner a b) = Ok (logs_in_range chain a b).

(** A log with its three topics. *)
Definition has_spender_topic (lg : Log) : Prop :=
  (3 <= length (log_topics lg))%nat.


(** A chunk whose query answers with logs that can all be read. *)
Definition chunk_read `{Web3Lib} (w3 : Web3) (owner : string) (c : Z * Z)
  : Prop :=
  exists logs : list Log,
    eth_get_logs w3 (scan_filter owner (fst c) (snd c)) = Ok logs /\
    Forall (fun lg => is_ok (log_entry lg) = true) logs.



(** A chain with two approvals of [demo_key] and a provider that serves
    it. *)
Definition demo_chain : list Log := [demo_log_early; demo_log_late].

Definition chain_w3 : Web3 :=
  {| is_connected := true;
     eth_chain_id := Ok 1;
     eth_block_number := Ok 19;
     eth_get_logs := fun f => Ok (logs_in_range demo_chain (fromBlock f) (toBlock f));
     eth_contract := bind_hex;
     call_symbol := call_symbol demo_w3;
     call_decimals := call_decimals demo_w3;
     call_allowance := call_allowance demo_w3;
     call_balanceOf := call_balanceOf demo_w3 |}.

(** A log without the spender topic, and a provider that returns it. *)
Definition short_log : Log :=
  {| log_address := demo_token;
     log_topics :=
       [ "8c5be1e5ebec7d5bd14f71427d1e84f3dd0314c0f7b2291e5b200ac8c7c3b925";
         "00000000000000000000000000000000000000000000000000000000000000a1" ]%string;
     log_data := [];
     log_blockNumber := 4 |}.

Definition short_w3 : Web3 :=
  {| is_connected := true;
     eth_chain_id := Ok 1;
     eth_block_number := Ok 19;
     eth_get_logs := fun f =>
       if fromBlock f =? 0 then Ok [demo_log_early; short_log] else Ok [];
     eth_contract := bind_hex;
     call_symbol := call_symbol demo_w3;
     call_decimals := call_decimals demo_w3;
     call_allowance := call_allowance demo_w3;
     call_balanceOf := call_balanceOf demo_w3 |}.


(** The row of the report for the pair [key]: the live values of the pair
    and what is derived from them. *)
Definition row_for `{Web3Lib} (w3 : Web3) (owner : string)
    (key : string * string) (r : AllowanceRow) : Prop :=
  token r = fst key /\
  spender r = snd key /\
  get_token_meta w3 (token r) = Ok (symbol r, decimals r) /\
  get_allowance_balance w3 (token r) owner (spender r)
    = Ok (allowance_raw r, balance_raw r) /\
  human_amount (allowance_raw r) (decimals r) = Ok (allowance r) /\
  human_amount (balance_raw r) (decimals r) = Ok (balance r) /\
  spender_tag r = default ""%string (Dict.get SAFE_SPENDERS_ETH (spender r)) /\
  risk r = calc_risk (allowance_raw r) (balance_raw r) (spender r).

Definition row_key (r : AllowanceRow) : string * string := (token r, spender r).

(** The first cell of a table line, the risk marker. *)
Definition marker (r : AllowanceRow) : option cell := table_line true r !! 0%nat.




(** A world where the command line parses to [args], every URL leads to
    [w3] and every file can be opened. *)
Definition world_of (args : Args) (w3 : Web3) : World :=
  {| parse_args := fun _ => Parsed args;
     http_provider := fun _ => w3;
     open_w := fun _ => Ok tt |}.


(** A character of the ASCII range. *)
Definition is_plain (a : ascii) : Prop := (nat_of_ascii a < 128)%nat.

(** The ALLOW cell of a table line. *)
Definition allow_cell (highlight_infinite : bool) (r : AllowanceRow) : option cell :=
  table_line highlight_infinite r !! 5%nat.


(** A run asked for the blocks from 10 down to 5, one that writes a JSON
    file, and the one row of the report of [demo_w3]. *)
Definition inverted_args : Args :=
  {| arg_address := demo_owner;
     arg_rpc := "https://cloudflare-eth.com";
     arg_from_block := Some 10;
     arg_to_block := Some 5;
     arg_step := 10;
     arg_json_path := None;
     arg_top := 50 |}.


Definition demo_report_row : AllowanceRow :=
  {| token := demo_token; symbol := "UNKNOWN"; decimals := 6;
     spender := demo_spender; spender_tag := "";
     allowance := "0"; allowance_raw := 0;
     balance := "0.0001"; balance_raw := 100;
     risk := 1 |}.

Definition uniswap_v2_router : string :=
  "0x7a250d5630B4cF539739dF2C5dAcb4c659F2488D".

(** A provider whose token has no decimals and a balance of 100, with an
    allowance of 50, 1100 and 150 for three spenders, and the three pairs
    as a scan would record them. *)
Definition spender_b3 : string := "0x00000000000000000000000000000000000000b3".
Definition spender_b4 : string := "0x00000000000000000000000000000000000000b4".

Definition trio_w3 : Web3 :=
  {| is_connected := true;
     eth_chain_id := Ok 1;
     eth_block_number := Ok 19;
     eth_get_logs := fun _ => Ok [];
     eth_contract := bind_hex;
     call_symbol := fun _ => Ok "USDT"%string;
     call_decimals := fun _ => Ok 0;
     call_allowance := fun _ _ spd =>
       if String.eqb spd demo_spender then Ok 50
       else if String.eqb spd spender_b3 then Ok 1100
       else Ok 150;
     call_balanceOf := fun _ _ => Ok 100 |}.

Definition trio_pairs : list ((string * string) * Z) :=
  [ ((demo_token, demo_spender), 50);
    ((demo_token, spender_b3), 1100);
    ((demo_token, spender_b4), 150) ].

Definition trio_rows : list AllowanceRow :=
  [ demo_row spender_b3 1100 3; demo_row spender_b4 150 2;
    demo_row demo_spender 50 1 ].


(** * Properties *)

Section Properties.
Context `{Web3Lib}.

(** ** Dictionaries *)

Section DictFacts.
Context {K V : Type} `{EqDecision K}.
Implicit Types (d : list (K * V)) (k : K) (v : V).

Lemma dict_get_set_eq d k v : Dict.get (Dict.set d k v) k = Some v.
Proof.
  induction d as [| [k' v'] d IH]; simpl.
  - now rewrite decide_True.
  - destruct (decide (k = k')) as [-> | Hne]; simpl.
    + now rewrite decide_True.
    + now rewrite decide_False.
Qed.

Lemma dict_get_set_ne d k k' v :
  k <> k' -> Dict.get (Dict.set d k v) k' = Dict.get d k'.
Proof.
  intros Hne. induction d as [| [k0 v0] d IH]; simpl.
  - rewrite decide_False by congruence. reflexivity.
  - destruct (decide (k = k0)) as [-> | Hne0]; simpl.
    + rewrite !decide_False by congruence. reflexivity.
    + destruct (decide (k' = k0)); [reflexivity | exact IH].
Qed.

Lemma dict_keys_set d k v k' :
  k' ∈ Dict.keys (Dict.set d k v) <-> k' = k \/ k' ∈ Dict.keys d.
Proof.
  unfold Dict.keys. induction d as [| [k0 v0] d IH]; simpl.
  - rewrite list_elem_of_singleton, elem_of_nil. tauto.
  - destruct (decide (k = k0)) as [-> | Hne]; simpl.
    + rewrite elem_of_cons. tauto.
    + rewrite !elem_of_cons, IH. tauto.
Qed.

Lemma dict_keys_set_NoDup d k v :
  NoDup (Dict.keys d) -> NoDup (Dict.keys (Dict.set d k v)).
Proof.
  unfold Dict.keys. induction d as [| [k0 v0] d IH]; simpl; intros Hnd.
  - apply NoDup_singleton.
  - apply NoDup_cons in Hnd as [Hnotin Hnd].
    destruct (decide (k = k0)) as [-> | Hne]; simpl.
    + now apply NoDup_cons.
    + apply NoDup_cons. split; [| now apply IH].
      intros Hin. apply (dict_keys_set d k v k0) in Hin.
      destruct Hin as [-> | Hin]; [congruence | exact (Hnotin Hin)].
Qed.

Lemma dict_contains_keys d k :
  Dict.contains d k = true <-> k ∈ Dict.keys d.
Proof.
  unfold Dict.contains, Dict.keys. induction d as [| [k0 v0] d IH]; simpl.
  - rewrite elem_of_nil. split; [discriminate | tauto].
  - rewrite elem_of_cons. destruct (decide (k = k0)) as [-> | Hne].
    + split; auto.
    + rewrite IH. split; [auto | intros [? | ?]; [congruence | auto]].
Qed.

Lemma dict_update_all_app d (l1 l2 : list (K * V)) :
  Dict.update_all d (l1 ++ l2) = Dict.update_all (Dict.update_all d l1) l2.
Proof. unfold Dict.update_all. apply fold_left_app. Qed.

Lemma dict_update_all_cons d k v (l : list (K * V)) :
  Dict.update_all d ((k, v) :: l) = Dict.update_all (Dict.set d k v) l.
Proof. reflexivity. Qed.

Lemma dict_update_all_keys (l : list (K * V)) : forall d k,
  k ∈ Dict.keys (Dict.update_all d l) <-> k ∈ Dict.keys d \/ k ∈ map fst l.
Proof.
  induction l as [| [k0 v0] l IH]; intros d k.
  - simpl. rewrite elem_of_nil. tauto.
  - rewrite dict_update_all_cons, IH, dict_keys_set. simpl.
    rewrite elem_of_cons. tauto.
Qed.

Lemma dict_update_all_NoDup (l : list (K * V)) : forall d,
  NoDup (Dict.keys d) -> NoDup (Dict.keys (Dict.update_all d l)).
Proof.
  induction l as [| [k0 v0] l IH]; intros d Hnd; [exact Hnd |].
  rewrite dict_update_all_cons. apply IH. now apply dict_keys_set_NoDup.
Qed.

Lemma dict_update_all_get_other (l : list (K * V)) : forall d k,
  k ∉ map fst l -> Dict.get (Dict.update_all d l) k = Dict.get d k.
Proof.
  induction l as [| [k0 v0] l IH]; intros d k Hnotin; [reflexivity |].
  simpl in Hnotin. rewrite not_elem_of_cons in Hnotin.
  destruct Hnotin as [Hne Hnotin].
  rewrite dict_update_all_cons, IH by assumption.
  apply dict_get_set_ne. congruence.
Qed.

(** Last write wins: the value kept for a key is the one of its last
    occurrence. *)
Lemma dict_update_all_get_last d (l1 l3 : list (K * V)) k v :
  k ∉ map fst l3 ->
  Dict.get (Dict.update_all d (l1 ++ (k, v) :: l3)) k = Some v.
Proof.
  intros Hnotin.
  rewrite dict_update_all_app, dict_update_all_cons.
  rewrite dict_update_all_get_other by assumption.
  apply dict_get_set_eq.
Qed.

Lemma dict_last_occurrence (l : list (K * V)) k :
  k ∈ map fst l ->
  exists l1 v l3, l = l1 ++ (k, v) :: l3 /\ k ∉ map fst l3.
Proof.
  induction l as [| [k0 v0] l IH]; simpl; intros Hin.
  - now apply elem_of_nil in Hin.
  - destruct (decide (k ∈ map fst l)) as [Hlater | Hnot].
    + destruct (IH Hlater) as (l1 & v & l3 & -> & Hl3).
      now exists ((k0, v0) :: l1), v, l3.
    + apply elem_of_cons in Hin as [-> | Hin]; [| contradiction].
      now exists [], v0, l.
Qed.

Lemma dict_filter_absent d k :
  k ∉ map fst d -> filter (fun kv => fst kv = k) d = [].
Proof.
  induction d as [| [k0 v0] d IH]; simpl; intros Hnotin; [reflexivity |].
  rewrite not_elem_of_cons in Hnotin. destruct Hnotin as [Hne Hnotin].
  rewrite filter_cons_False by (simpl; congruence). now apply IH.
Qed.

Lemma dict_filter_key d k v :
  NoDup (Dict.keys d) -> Dict.get d k = Some v ->
  filter (fun kv => fst kv = k) d = [(k, v)].
Proof.
  unfold Dict.keys. induction d as [| [k0 v0] d IH]; simpl;
    intros Hnd Hget; [discriminate |].
  apply NoDup_cons in Hnd as [Hnotin Hnd].
  destruct (decide (k = k0)) as [-> | Hne].
  - injection Hget as ->.
    rewrite filter_cons_True by reflexivity. f_equal.
    now apply dict_filter_absent.
  - rewrite filter_cons_False by (simpl; congruence). now apply IH.
Qed.

Lemma dict_of_list_keys (l : list (K * V)) k :
  k ∈ Dict.keys (Dict.of_list l) <-> k ∈ map fst l.
Proof.
  unfold Dict.of_list. rewrite dict_update_all_keys.
  unfold Dict.keys at 1. simpl. rewrite elem_of_nil. tauto.
Qed.
End DictFacts.

(** ** Risk scorer *)

Lemma checksum_literal_ok (a : string) (Ha : is_hex_address a = true) :
  to_checksum_address a = Ok (checksum_literal a Ha).
Proof.
  unfold to_checksum_address, checksum_literal.
  generalize (checksum_address_hex a Ha).
  destruct (checksum_address a) as [s |]; intros Hne;
    [reflexivity | now destruct Hne].
Qed.


Lemma to_checksum_address_raise (s : string) (e : exn) :
  to_checksum_address s = Raise e -> e = ValueError.
Proof.
  unfold to_checksum_address. destruct (checksum_address s); congruence.
Qed.

(** The registry lists the five router addresses, checksummed. *)
Lemma SAFE_SPENDERS_ETH_keys (spender : string) :
  spender ∈ Dict.keys SAFE_SPENDERS_ETH <->
  exists a : string,
    a ∈ [ "0xE592427A0AEce92De3Edee1F18E0157C05861564";
          "0x68b3465833fb72A70ecDF485E0e4C7bD8665Fc45";
          "0x7a250d5630B4cF539739dF2C5dAcb4c659F2488D";
          "0x1111111254EEB25477B68fb85Ed929f73A960582";
          "0xDef1C0ded9bec7F1a1670819833240f027b25EfF" ]%string /\
    to_checksum_address a = Ok spender.
Proof.
  unfold SAFE_SPENDERS_ETH. rewrite dict_of_list_keys. cbn [map fst].
  split.
  - intros Hin.
    repeat (apply elem_of_cons in Hin as [-> | Hin];
            [eexists; split; [| apply checksum_literal_ok];
             repeat constructor |]).
    now apply elem_of_nil in Hin.
  - intros (a & Hin & Ha).
    repeat (apply elem_of_cons in Hin as [-> | Hin];
            [match type of Ha with
             | to_checksum_address ?l = _ =>
                 rewrite (checksum_literal_ok l eq_refl) in Ha
             end;
             injection Ha as <-; repeat constructor |]).
    now apply elem_of_nil in Hin.
Qed.

(** C1. The risk scorer is a function of the raw allowance, the raw balance
    and the spender alone; with the threshold [2^255], "infinite" meaning
    an allowance at or above it and "allowlisted" meaning that the spender
    is a key of the registry, it returns 3 on the high-risk condition, else
    2 on the medium-risk condition, else 1 (the first match wins), and it
    gives risk 3, 2, 1, 2, 3 on the five test vectors. *)
Theorem calc_risk_spec (allowance_raw balance_raw : Z) (spender : string) :
  let is_infinite := INFINITE_THRESHOLD <= allowance_raw in
  let allowlisted := spender ∈ Dict.keys SAFE_SPENDERS_ETH in
  let high :=
    (is_infinite /\ ~ allowlisted) \/
    (balance_raw > 0 /\ allowance_raw > 10 * balance_raw /\ ~ allowlisted) in
  let medium :=
    (allowance_raw > balance_raw /\ ~ allowlisted) \/
    (is_infinite /\ allowlisted) in
  INFINITE_THRESHOLD = 2 ^ 255 /\
  (high -> calc_risk allowance_raw balance_raw spender = 3) /\
  (~ high -> medium -> calc_risk allowance_raw balance_raw spender = 2) /\
  (~ high -> ~ medium -> calc_risk allowance_raw balance_raw spender = 1) /\
  (~ allowlisted ->
     calc_risk (2 ^ 256 - 1) 100 spender = 3 /\
     calc_risk 50 100 spender = 1 /\
     calc_risk 150 100 spender = 2 /\
     calc_risk 1100 100 spender = 3) /\
  (allowlisted -> calc_risk (2 ^ 256 - 1) 100 spender = 2).
Proof.
  intros is_infinite allowlisted high medium.
  subst high medium is_infinite allowlisted.
  rewrite <- dict_contains_keys.
  unfold calc_risk, INFINITE_THRESHOLD.
  destruct (Dict.contains SAFE_SPENDERS_ETH spender);
    destruct (Z.leb_spec (2 ^ 255) allowance_raw);
    destruct (Z.ltb_spec 0 balance_raw);
    destruct (Z.ltb_spec (10 * balance_raw) allowance_raw);
    destruct (Z.ltb_spec balance_raw allowance_raw);
    cbn [andb orb negb];
    (split; [reflexivity |]);
    (split; [intros Hhigh; try reflexivity; exfalso;
             intuition (try discriminate; try lia) |]);
    (split; [intros Hhigh Hmed; try reflexivity; exfalso;
             intuition (try discriminate; try lia) |]);
    (split; [intros Hhigh Hmed; try reflexivity; exfalso;
             intuition (try discriminate; try lia) |]);
    (split; [intros Hout; try (now repeat split); exfalso; congruence
            | intros Hin; try reflexivity; exfalso; congruence]).
Qed.

(** ** Chunker *)

Lemma ceil_div_bounds (n d : Z) :
  0 < d -> (ceil_div n d - 1) * d < n <= ceil_div n d * d.
Proof.
  intros Hd. unfold ceil_div.
  pose proof (Z.div_mod (n + d - 1) d ltac:(lia)) as Hdm.
  pose proof (Z.mod_pos_bound (n + d - 1) d Hd) as Hm.
  nia.
Qed.

Lemma chunk_ranges_empty (fuel : nat) (start end_ step : Z) :
  end_ < start -> chunk_ranges (S fuel) start end_ step = Some [].
Proof.
  intros Hlt. simpl. unfold chunk_next.
  destruct (Z.leb_spec start end_); [lia | reflexivity].
Qed.

Lemma chunk_ranges_unfold (fuel : nat) (start end_ step : Z) :
  start <= end_ ->
  chunk_ranges (S fuel) start end_ step =
  match chunk_ranges fuel (start + step) end_ step with
  | Some cs => Some ((start, Z.min end_ (start + step - 1)) :: cs)
  | None => None
  end.
Proof.
  intros Hle. simpl. unfold chunk_next.
  destruct (Z.leb_spec start end_); [reflexivity | lia].
Qed.

Lemma blocks_empty (a b : Z) : b < a -> blocks (a, b) = [].
Proof.
  intros Hlt. unfold blocks. simpl.
  replace (Z.to_nat (b - a + 1)) with 0%nat by lia. reflexivity.
Qed.

Lemma map_seq_shift {A : Type} (f g : nat -> A) (n : nat) : forall s t : nat,
  (forall i : nat, f (s + i)%nat = g (t + i)%nat) ->
  map f (seq s n) = map g (seq t n).
Proof.
  induction n as [| n IH]; intros s t Hfg; [reflexivity |].
  simpl. f_equal.
  - specialize (Hfg 0%nat). now rewrite !Nat.add_0_r in Hfg.
  - apply IH. intros i. specialize (Hfg (S i)).
    now rewrite <- !Nat.add_succ_comm in Hfg.
Qed.

Lemma blocks_app (a b c : Z) :
  a <= b + 1 -> b <= c -> blocks (a, b) ++ blocks (b + 1, c) = blocks (a, c).
Proof.
  intros Hab Hbc. unfold blocks. simpl.
  replace (Z.to_nat (c - a + 1))
    with (Z.to_nat (b - a + 1) + Z.to_nat (c - (b + 1) + 1))%nat by lia.
  rewrite seq_app, map_app. f_equal.
  symmetry. apply map_seq_shift. intros i. lia.
Qed.

Lemma ceil_div_step (n d : Z) :
  1 <= d -> 1 <= n ->
  1 + ceil_div (Z.max 0 (n - d)) d = ceil_div n d.
Proof.
  intros Hd Hn. unfold ceil_div.
  destruct (Z.le_gt_cases n d) as [Hle | Hgt].
  - rewrite Z.max_l by lia.
    rewrite (Z.div_small (0 + d - 1) d) by lia.
    replace (n + d - 1) with ((n - 1) + 1 * d) by lia.
    rewrite Z.div_add by lia. rewrite Z.div_small by lia. reflexivity.
  - rewrite Z.max_r by lia.
    replace (n + d - 1) with ((n - d + d - 1) + 1 * d) by lia.
    rewrite Z.div_add by lia. lia.
Qed.

(** The run of the generator, by induction on the number of blocks left. *)
Lemma chunk_ranges_run (n : nat) : forall start end_ step : Z,
  1 <= step ->
  (Z.to_nat (end_ - start + 1) <= n)%nat ->
  exists cs : list (Z * Z),
    (forall fuel, (n < fuel)%nat -> chunk_ranges fuel start end_ step = Some cs) /\
    starts_at start end_ cs /\
    flat_map blocks cs = blocks (start, end_) /\
    contiguous cs /\
    Forall (fun c => 1 <= chunk_size c <= step) cs /\
    full_but_last step cs /\
    Z.of_nat (length cs) = ceil_div (Z.max 0 (end_ - start + 1)) step.
Proof.
  induction n as [| n IH]; intros start end_ step Hstep Hn.
  - exists []. assert (end_ < start) by lia.
    repeat split; simpl; auto.
    + intros [| fuel] Hf; [lia |]. now apply chunk_ranges_empty.
    + now rewrite blocks_empty.
    + rewrite Z.max_l by lia. unfold ceil_div.
      rewrite Z.div_small by lia. reflexivity.
  - destruct (Z.lt_ge_cases end_ start) as [Hlt | Hle].
    + exists []. repeat split; simpl; auto.
      * intros [| fuel] Hf; [lia |]. now apply chunk_ranges_empty.
      * now rewrite blocks_empty.
      * rewrite Z.max_l by lia. unfold ceil_div.
        rewrite Z.div_small by lia. reflexivity.
    + destruct (IH (start + step) end_ step Hstep ltac:(lia))
        as (cs & Hrun & Hhd & Hcov & Hcont & Hsz & Hfull & Hlen).
      exists ((start, Z.min end_ (start + step - 1)) :: cs).
      repeat split.
      * intros [| fuel] Hf; [lia |].
        rewrite chunk_ranges_unfold by assumption.
        rewrite Hrun by lia. reflexivity.
      * simpl. rewrite Hcov.
        destruct (Z.le_gt_cases end_ (start + step - 1)) as [Hshort | Hlong].
        -- rewrite Z.min_l by lia.
           rewrite (blocks_empty (start + step) end_) by lia.
           apply app_nil_r.
        -- rewrite Z.min_r by lia.
           rewrite <- (blocks_app start (start + step - 1) end_) by lia.
           replace (start + step - 1 + 1) with (start + step) by lia.
           reflexivity.
      * destruct cs as [| c cs']; [exact I |].
        simpl in Hhd. split; [| exact Hcont].
        simpl. destruct (Z.le_gt_cases end_ (start + step - 1)) as [Hshort | Hlong].
        -- exfalso. specialize (Hrun (S n) ltac:(lia)).
           rewrite chunk_ranges_empty in Hrun by lia. discriminate.
        -- rewrite Z.min_r by lia. lia.
      * constructor; [| exact Hsz]. unfold chunk_size. simpl. lia.
      * destruct cs as [| c cs']; [exact I |].
        split; [| exact Hfull].
        unfold chunk_size. simpl.
        destruct (Z.le_gt_cases end_ (start + step - 1)) as [Hshort | Hlong].
        -- exfalso. specialize (Hrun (S n) ltac:(lia)).
           rewrite chunk_ranges_empty in Hrun by lia. discriminate.
        -- rewrite Z.min_r by lia. lia.
      * cbn [length]. rewrite Nat2Z.inj_succ, Hlen.
        rewrite (Z.max_r 0 (end_ - start + 1)) by lia.
        rewrite <- (ceil_div_step (end_ - start + 1) step) by lia.
        replace (end_ - (start + step) + 1) with (end_ - start + 1 - step) by lia.
        lia.
Qed.

(** C2. For [start <= end] and [step >= 1] the chunker yields, in order,
    pairs that cover the blocks of [start..end] exactly once each (their
    block lists concatenate to the block list of the range), each chunk
    starts right after the previous one, holds between 1 and [step] blocks
    and exactly [step] unless it is the last, and there are
    [ceil((end-start+1)/step)] of them; for [start > end] it yields
    nothing. *)
Theorem chunk_ranges_spec (start end_ step : Z) :
  (end_ < start ->
   forall fuel, chunk_ranges (S fuel) start end_ step = Some []) /\
  (start <= end_ -> 1 <= step ->
   exists cs : list (Z * Z),
     (forall fuel, (chunk_fuel start end_ <= fuel)%nat ->
                   chunk_ranges fuel start end_ step = Some cs) /\
     flat_map blocks cs = blocks (start, end_) /\
     contiguous cs /\
     Forall (fun c => 1 <= chunk_size c <= step) cs /\
     full_but_last step cs /\
     Z.of_nat (length cs) = ceil_div (end_ - start + 1) step /\
     (ceil_div (end_ - start + 1) step - 1) * step
       < end_ - start + 1 <= ceil_div (end_ - start + 1) step * step).
Proof.
  split.
  - intros Hlt fuel. now apply chunk_ranges_empty.
  - intros Hle Hstep.
    destruct (chunk_ranges_run (Z.to_nat (end_ - start + 1)) start end_ step
                Hstep ltac:(lia))
      as (cs & Hrun & _ & Hcov & Hcont & Hsz & Hfull & Hlen).
    exists cs.
    split; [intros fuel Hf; apply Hrun; unfold chunk_fuel in Hf; lia |].
    split; [exact Hcov |]. split; [exact Hcont |].
    split; [exact Hsz |]. split; [exact Hfull |].
    split; [rewrite Hlen, Z.max_r by lia; reflexivity |].
    apply ceil_div_bounds; lia.
Qed.

(** ** Sorted lists *)

Lemma StronglySorted_weaken {A : Type} (R1 R2 : A -> A -> Prop) (l : list A) :
  (forall x y, R1 x y -> R2 x y) ->
  StronglySorted R1 l -> StronglySorted R2 l.
Proof.
  intros Himp. induction 1 as [| x l Hs IH Hall]; constructor; auto.
  eapply Forall_impl; [exact Hall |]. intros y. apply Himp.
Qed.

Lemma StronglySorted_lookup {A : Type} (R : A -> A -> Prop) (l : list A) :
  forall (i j : nat) (x y : A),
  StronglySorted R l ->
  l !! i = Some x -> l !! j = Some y -> (i < j)%nat -> R x y.
Proof.
  induction l as [| z l IH]; intros i j x y Hs Hi Hj Hij; [discriminate |].
  apply StronglySorted_inv in Hs as [Hs Hall].
  destruct j as [| j]; [lia |]. simpl in Hj.
  destruct i as [| i]; simpl in Hi.
  - injection Hi as ->. rewrite Forall_forall in Hall. apply Hall.
    apply list_elem_of_lookup. now exists j.
  - apply (IH i j); auto. lia.
Qed.

(** ** Scanner *)

Lemma chunk_ranges_cons (fuel : nat) (cur latest step : Z) (c : Z * Z)
    (cs : list (Z * Z)) :
  chunk_ranges fuel cur latest step = Some (c :: cs) ->
  exists fuel', fuel = S fuel' /\ cur <= latest /\
    c = (cur, Z.min latest (cur + step - 1)) /\
    chunk_ranges fuel' (cur + step) latest step = Some cs.
Proof.
  destruct fuel as [| fuel']; simpl; [discriminate |].
  unfold chunk_next. destruct (Z.leb_spec cur latest); [| discriminate].
  destruct (chunk_ranges fuel' (cur + step) latest step) as [cs' |] eqn:Hrest;
    [| discriminate].
  intros [= <- <-]. exists fuel'. repeat split; auto.
Qed.

Lemma chunk_ranges_nil (fuel : nat) (cur latest step : Z) :
  chunk_ranges fuel cur latest step = Some [] ->
  exists fuel', fuel = S fuel' /\ latest < cur.
Proof.
  destruct fuel as [| fuel']; simpl; [discriminate |].
  unfold chunk_next. destruct (Z.leb_spec cur latest).
  - destruct (chunk_ranges fuel' (cur + step) latest step); discriminate.
  - intros _. exists fuel'. split; [reflexivity | assumption].
Qed.

Lemma scan_chunks_done (fuel : nat) (w3 : Web3) (owner : string)
    (cur latest step : Z) (pairs : list ((string * string) * Z)) :
  latest < cur ->
  scan_chunks (S fuel) w3 owner cur latest step pairs = Some (Ok pairs).
Proof.
  intros Hlt. simpl. unfold chunk_next.
  destruct (Z.leb_spec cur latest); [lia | reflexivity].
Qed.

Lemma scan_chunks_step (fuel : nat) (w3 : Web3) (owner : string)
    (cur latest step : Z) (pairs : list ((string * string) * Z)) :
  cur <= latest ->
  scan_chunks (S fuel) w3 owner cur latest step pairs =
  match eth_get_logs w3
          (scan_filter owner cur (Z.min latest (cur + step - 1))) with
  | Raise e => Some (Raise e)
  | Ok logs =>
      match scan_logs logs pairs with
      | Raise e => Some (Raise e)
      | Ok pairs' => scan_chunks fuel w3 owner (cur + step) latest step pairs'
      end
  end.
Proof.
  intros Hle. simpl. unfold chunk_next.
  destruct (Z.leb_spec cur latest); [reflexivity | lia].
Qed.

Lemma chunk_ranges_take (fuel : nat) : forall (cur latest step : Z)
    (cs : list (Z * Z)),
  chunk_ranges fuel cur latest step = Some cs ->
  chunk_take fuel cur latest step = cs.
Proof.
  induction fuel as [| fuel IH]; intros cur latest step cs; simpl;
    [discriminate |].
  destruct (chunk_next cur latest step) as [[c cur'] |];
    [| now intros [= <-]].
  destruct (chunk_ranges fuel cur' latest step) as [cs' |] eqn:Hcs';
    [| discriminate].
  intros [= <-]. f_equal. now apply IH.
Qed.

(** A failing query among the first [n] chunks of the generator ends the
    loop with an exception, whatever was gathered before. *)
Lemma scan_chunks_failure (w3 : Web3) (owner : string) (latest step : Z)
    (c : Z * Z) :
  is_ok (eth_get_logs w3 (scan_filter owner (fst c) (snd c))) = false ->
  forall (n : nat) (cur : Z) (pairs : list ((string * string) * Z)),
    c ∈ chunk_take n cur latest step ->
    exists e : exn, forall fuel, (n <= fuel)%nat ->
      scan_chunks fuel w3 owner cur latest step pairs = Some (Raise e).
Proof.
  intros Hfail n.
  induction n as [| n IH]; intros cur pairs Hin;
    [now apply elem_of_nil in Hin |].
  simpl in Hin. unfold chunk_next in Hin.
  destruct (Z.leb_spec cur latest) as [Hle | Hgt];
    [| now apply elem_of_nil in Hin].
  destruct (eth_get_logs w3
              (scan_filter owner cur (Z.min latest (cur + step - 1))))
    as [logs | e] eqn:Hlogs.
  - destruct (scan_logs logs pairs) as [pairs' | e] eqn:Hscan.
    + apply elem_of_cons in Hin as [-> | Hin].
      { simpl in Hfail. rewrite Hlogs in Hfail. discriminate. }
      destruct (IH (cur + step) pairs' Hin) as [e He].
      exists e. intros [| fuel] Hf; [lia |].
      rewrite scan_chunks_step, Hlogs, Hscan by assumption.
      apply He. lia.
    + exists e. intros [| fuel] Hf; [lia |].
      now rewrite scan_chunks_step, Hlogs, Hscan by assumption.
  - exists e. intros [| fuel] Hf; [lia |].
    now rewrite scan_chunks_step, Hlogs by assumption.
Qed.

Lemma scan_logs_entries (logs : list Log) :
  forall (evs : list ((string * string) * Z))
         (pairs : list ((string * string) * Z)),
    Forall2 (fun lg ev => log_entry lg = Ok ev) logs evs ->
    scan_logs logs pairs = Ok (Dict.update_all pairs evs).
Proof.
  induction logs as [| lg logs IH]; intros evs pairs Hdec.
  - apply Forall2_nil_inv_l in Hdec as ->. reflexivity.
  - apply Forall2_cons_inv_l in Hdec as ([k v] & evs' & Hlg & Hdec & ->).
    simpl. rewrite Hlg. simpl. now apply IH.
Qed.

(** When every query of the generator's chunks answers and every log can
    be read, the loop ends with all the entries recorded in order. *)
Lemma scan_chunks_success (w3 : Web3) (owner : string) (latest step : Z) :
  forall (fuel0 : nat) (cur : Z) (cs : list (Z * Z)) (logss : list (list Log))
         (evs pairs : list ((string * string) * Z)),
    chunk_ranges fuel0 cur latest step = Some cs ->
    Forall2 (fun c logs =>
               eth_get_logs w3 (scan_filter owner (fst c) (snd c)) = Ok logs)
            cs logss ->
    Forall2 (fun lg ev => log_entry lg = Ok ev) (concat logss) evs ->
    forall fuel, (fuel0 <= fuel)%nat ->
      scan_chunks fuel w3 owner cur latest step pairs =
      Some (Ok (Dict.update_all pairs evs)).
Proof.
  induction fuel0 as [| fuel0 IH];
    intros cur cs logss evs pairs Hcs Hlogs Hdec fuel Hf; [discriminate |].
  destruct fuel as [| fuel]; [lia |].
  destruct cs as [| c cs'].
  - apply chunk_ranges_nil in Hcs as (f & _ & Hlt).
    apply Forall2_nil_inv_l in Hlogs as ->. simpl in Hdec.
    apply Forall2_nil_inv_l in Hdec as ->.
    now apply scan_chunks_done.
  - apply chunk_ranges_cons in Hcs as (f & [= <-] & Hle & -> & Hcs').
    apply Forall2_cons_inv_l in Hlogs as (logs & logss' & Hq & Hlogs & ->).
    simpl in Hq, Hdec.
    apply Forall2_app_inv_l in Hdec as (evs1 & evs2 & Hd1 & Hd2 & ->).
    rewrite scan_chunks_step, Hq by assumption.
    rewrite (scan_logs_entries logs evs1 pairs Hd1).
    rewrite dict_update_all_app.
    apply (IH (cur + step) cs' logss'); auto. lia.
Qed.

Lemma block_ordered_lookup (logs : list Log) (i j : nat) (a b : Log) :
  block_ordered logs ->
  logs !! i = Some a -> logs !! j = Some b -> (i < j)%nat ->
  log_blockNumber a <= log_blockNumber b.
Proof.
  unfold block_ordered. intros Hs Hi Hj Hij.
  exact (StronglySorted_lookup _ logs i j a b Hs Hi Hj Hij).
Qed.

(** C3. When the queries of a scan answer and the logs can be read, the
    scan returns a mapping with one entry per key met, whose keys are
    unique; two events for one key leave a single entry, which holds the
    raw value of the one processed last; and when the logs come in order
    of block height, that is the event at the higher block. *)
Theorem scan_approvals_last_write_wins (w3 : Web3) (owner : string)
    (from_block to_block : option Z) (step start latest : Z) (fuel0 : nat)
    (cs : list (Z * Z)) (logss : list (list Log))
    (evs : list ((string * string) * Z)) :
  scan_bounds w3 from_block to_block = Ok (start, latest) ->
  chunk_ranges fuel0 start latest step = Some cs ->
  Forall2 (fun c logs =>
             eth_get_logs w3 (scan_filter owner (fst c) (snd c)) = Ok logs)
          cs logss ->
  Forall2 (fun lg ev => log_entry lg = Ok ev) (concat logss) evs ->
  exists pairs : list ((string * string) * Z),
    (forall fuel, (fuel0 <= fuel)%nat ->
       scan_approvals fuel w3 owner from_block to_block step = Some (Ok pairs)) /\
    NoDup (Dict.keys pairs) /\
    (forall k, k ∈ Dict.keys pairs <-> k ∈ map fst evs) /\
    (forall k v1 v2 l1 l2 l3,
       evs = l1 ++ (k, v1) :: l2 ++ (k, v2) :: l3 ->
       k ∉ map fst l3 ->
       Dict.get pairs k = Some v2 /\
       filter (fun kv => fst kv = k) pairs = [(k, v2)]) /\
    (block_ordered (concat logss) ->
     forall lg1 lg2 k v1 v2,
       lg1 ∈ concat logss -> lg2 ∈ concat logss ->
       log_entry lg1 = Ok (k, v1) -> log_entry lg2 = Ok (k, v2) ->
       log_blockNumber lg1 < log_blockNumber lg2 ->
       (forall lg v, lg ∈ concat logss -> log_entry lg = Ok (k, v) ->
                     log_blockNumber lg2 <= log_blockNumber lg -> lg = lg2) ->
       Dict.get pairs k = Some v2 /\
       filter (fun kv => fst kv = k) pairs = [(k, v2)]).
Proof.
  intros Hbounds Hcs Hlogs Hdec.
  exists (Dict.update_all [] evs).
  assert (Hnd : NoDup (Dict.keys (Dict.update_all [] evs))).
  { apply dict_update_all_NoDup. apply NoDup_nil_2. }
  split; [| split; [exact Hnd | split; [| split]]].
  - intros fuel Hf. unfold scan_approvals. rewrite Hbounds.
    now apply (scan_chunks_success w3 owner latest step fuel0 start cs logss).
  - intros k. rewrite dict_update_all_keys.
    unfold Dict.keys at 1. simpl. rewrite elem_of_nil. tauto.
  - intros k v1 v2 l1 l2 l3 -> Hl3.
    assert (Hget : Dict.get (Dict.update_all []
                     (l1 ++ (k, v1) :: l2 ++ (k, v2) :: l3)) k = Some v2).
    { replace (l1 ++ (k, v1) :: l2 ++ (k, v2) :: l3)
        with ((l1 ++ (k, v1) :: l2) ++ (k, v2) :: l3)
        by (now rewrite <- app_assoc).
      now apply dict_update_all_get_last. }
    split; [exact Hget | now apply dict_filter_key].
  - intros Hord lg1 lg2 k v1 v2 _ Hin2 _ Hlg2 _ Hlatest.
    apply list_elem_of_lookup in Hin2 as [j Hj].
    destruct (Forall2_lookup_l _ _ _ _ _ Hdec Hj) as (ev2 & Hev2 & Hlg2').
    rewrite Hlg2 in Hlg2'. injection Hlg2' as <-.
    assert (Hk : k ∈ map fst evs).
    { apply list_elem_of_fmap. exists (k, v2). split; [reflexivity |].
      apply list_elem_of_lookup. now exists j. }
    destruct (dict_last_occurrence evs k Hk) as (l1 & v & l3 & Hsplit & Hl3).
    assert (Hget : Dict.get (Dict.update_all [] evs) k = Some v).
    { rewrite Hsplit. now apply dict_update_all_get_last. }
    assert (HjL : evs !! length l1 = Some (k, v)).
    { rewrite Hsplit. now rewrite list_lookup_middle. }
    destruct (Forall2_lookup_r _ _ _ _ _ Hdec HjL) as (lgL & HlgL & HdecL).
    assert (Hjle : (j <= length l1)%nat).
    { destruct (Nat.le_gt_cases j (length l1)) as [Hle | Hgt]; [exact Hle |].
      exfalso. apply Hl3. rewrite Hsplit in Hev2.
      rewrite lookup_app_r in Hev2 by lia.
      destruct (j - length l1)%nat as [| j'] eqn:Hj'; [lia |].
      simpl in Hev2. apply list_elem_of_fmap. exists (k, v2).
      split; [reflexivity |]. apply list_elem_of_lookup. now exists j'. }
    assert (HlgL2 : lgL = lg2).
    { apply (Hlatest lgL v); [apply list_elem_of_lookup; now exists (length l1)
                             | exact HdecL |].
      destruct (decide (j = length l1)) as [-> | Hne].
      - rewrite HlgL in Hj. injection Hj as ->. lia.
      - apply (block_ordered_lookup (concat logss) j (length l1)); auto. lia. }
    subst lgL. rewrite Hlg2 in HdecL. injection HdecL as <-.
    split; [exact Hget | now apply dict_filter_key].
Qed.

Lemma decodable_entries (logs : list Log) :
  Forall (fun lg => is_ok (log_entry lg) = true) logs ->
  exists evs, Forall2 (fun lg ev => log_entry lg = Ok ev) logs evs.
Proof.
  induction 1 as [| lg logs Hlg _ [evs IH]]; [exists []; constructor |].
  destruct (log_entry lg) as [ev |] eqn:Hev; [| discriminate].
  exists (ev :: evs). now constructor.
Qed.

(** The first query that fails ends the loop with its own exception. *)
Lemma scan_chunks_first_failure (w3 : Web3) (owner : string) (latest step : Z)
    (c : Z * Z) (e : exn) :
  eth_get_logs w3 (scan_filter owner (fst c) (snd c)) = Raise e ->
  forall (before : list (Z * Z)) (cur : Z)
         (pairs : list ((string * string) * Z)),
    chunk_take (S (length before)) cur latest step = before ++ [c] ->
    Forall (chunk_read w3 owner) before ->
    forall fuel, (length before < fuel)%nat ->
      scan_chunks fuel w3 owner cur latest step pairs = Some (Raise e).
Proof.
  intros Hfail before.
  induction before as [| c0 before IH]; intros cur pairs Htake Hread fuel Hf;
    (destruct fuel as [| fuel]; [simpl in Hf; lia |]);
    cbn [chunk_take length] in Htake; unfold chunk_next at 1 in Htake;
    (destruct (Z.leb_spec cur latest) as [Hle | Hgt]).
  - injection Htake as <-. rewrite scan_chunks_step by assumption.
    simpl in Hfail. now rewrite Hfail.
  - discriminate.
  - injection Htake as <- Htake.
    apply Forall_cons in Hread as [(logs & Hlogs & Hdec) Hread].
    destruct (decodable_entries logs Hdec) as [evs Hevs].
    rewrite scan_chunks_step by assumption. simpl in Hlogs. rewrite Hlogs.
    rewrite (scan_logs_entries logs evs pairs Hevs).
    apply IH; [exact Htake | exact Hread | simpl in Hf; lia].
  - now destruct before.
Qed.

(** C6. When one of the chunked log queries of a scan fails, be it the
    [n]-th, the scan raises and returns no mapping, and a run that reached
    the scan ends on the uncaught exception having printed its two banner
    lines only, so no table and no JSON file; and when the chunks before
    it were read, the exception is the one the failing query raised. *)
Theorem scan_chunk_failure_fatal `{Tabulate} (world : World)
    (argv : option (list string)) (args : Args) (owner : string)
    (start latest : Z) (n : nat) (c : Z * Z) (e : exn) :
  let w3 := http_provider world (arg_rpc args) in
  parse_args world argv = Parsed args ->
  to_checksum_address (arg_address args) = Ok owner ->
  scan_bounds w3 (arg_from_block args) (arg_to_block args) = Ok (start, latest) ->
  c ∈ chunk_take n start latest (arg_step args) ->
  eth_get_logs w3 (scan_filter owner (fst c) (snd c)) = Raise e ->
  exists e' : exn,
    (forall fuel, (n <= fuel)%nat ->
       scan_approvals fuel w3 owner (arg_from_block args) (arg_to_block args)
         (arg_step args) = Some (Raise e') /\
       (forall cid bn,
          is_connected w3 = true ->
          eth_chain_id w3 = Ok cid ->
          eth_block_number w3 = Ok bn ->
          main fuel world argv = Some (banner cid bn, Uncaught e'))) /\
    (forall before : list (Z * Z),
       chunk_take (S (length before)) start latest (arg_step args)
         = before ++ [c] ->
       Forall (chunk_read w3 owner) before ->
       e' = e).
Proof.
  intros w3 Hparse Howner Hbounds Hin Hfail.
  assert (Hnok : is_ok (eth_get_logs w3 (scan_filter owner (fst c) (snd c)))
                 = false) by now rewrite Hfail.
  destruct (scan_chunks_failure w3 owner latest (arg_step args) c Hnok
              n start [] Hin) as [e' He'].
  exists e'. split.
  - intros fuel Hf.
    assert (Hscan : scan_approvals fuel w3 owner (arg_from_block args)
                      (arg_to_block args) (arg_step args) = Some (Raise e')).
    { unfold scan_approvals. rewrite Hbounds. now apply He'. }
    split; [exact Hscan |].
    intros cid bn Hconn Hcid Hbn.
    unfold main. rewrite Hparse, Howner. fold w3.
    rewrite Hconn, Hcid, Hbn. cbn [negb mbind result_bind bind].
    rewrite Hscan. reflexivity.
  - intros before Htake Hread.
    pose proof (He' (Nat.max n (S (length before))) ltac:(lia)) as H1.
    pose proof (scan_chunks_first_failure w3 owner latest (arg_step args) c e
                  Hfail before start [] Htake Hread
                  (Nat.max n (S (length before))) ltac:(lia)) as H2.
    congruence.
Qed.

(** C10. A negative [from_block] given by the user is clamped like the
    default: the scan is the scan from block 0, and its first chunk, when
    there is one, starts at block 0. *)
Theorem scan_from_block_clamped (w3 : Web3) (owner : string)
    (from_block : Z) (to_block : option Z) (step : Z) :
  from_block < 0 ->
  (forall fuel,
     scan_approvals fuel w3 owner (Some from_block) to_block step =
     scan_approvals fuel w3 owner (Some 0) to_block step) /\
  (forall start latest,
     scan_bounds w3 (Some from_block) to_block = Ok (start, latest) ->
     start = 0 /\
     forall fuel c cs,
       chunk_ranges fuel start latest step = Some (c :: cs) -> fst c = 0).
Proof.
  intros Hneg.
  assert (Hb : scan_bounds w3 (Some from_block) to_block =
               scan_bounds w3 (Some 0) to_block).
  { unfold scan_bounds.
    destruct (match to_block with
              | Some b => Ok b | None => eth_block_number w3 end);
      simpl; [| reflexivity].
    rewrite Z.max_r by lia. reflexivity. }
  split.
  - intros fuel. unfold scan_approvals. now rewrite Hb.
  - intros start latest Hbounds. rewrite Hb in Hbounds.
    unfold scan_bounds in Hbounds.
    destruct (match to_block with
              | Some b => Ok b | None => eth_block_number w3 end);
      simpl in Hbounds; [| discriminate].
    injection Hbounds as <- <-. split; [reflexivity |].
    intros fuel c cs Hcs.
    apply chunk_ranges_cons in Hcs as (f & _ & _ & -> & _). reflexivity.
Qed.

(** ** Amounts: strings *)

Lemma all_chars_app (P : ascii -> Prop) (s t : string) :
  all_chars P (s +:+ t) <-> all_chars P s /\ all_chars P t.
Proof. induction s as [| a s IH]; simpl; [tauto | rewrite IH; tauto]. Qed.

Lemma all_chars_impl (P Q : ascii -> Prop) (s : string) :
  (forall a, P a -> Q a) -> all_chars P s -> all_chars Q s.
Proof. intros Himp. induction s as [| a s IH]; simpl; [auto | intuition]. Qed.

Lemma rstrip_cons (c a : ascii) (s : string) :
  rstrip c s <> EmptyString -> rstrip c (String a s) = String a (rstrip c s).
Proof. simpl. destruct (rstrip c s); [congruence | reflexivity]. Qed.

Lemma rstrip_all (c : ascii) (s : string) :
  rstrip c s = EmptyString <-> all_chars (fun a => a = c) s.
Proof.
  induction s as [| a s IH]; simpl; [tauto |].
  destruct (rstrip c s) eqn:Hs.
  - destruct (Ascii.eqb_spec a c) as [-> | Hne].
    + split; [intros _; split; [reflexivity | now apply IH] | reflexivity].
    + split; [discriminate | tauto].
  - split; [discriminate |]. intros [_ Hall]. apply IH in Hall. discriminate.
Qed.

Lemma rstrip_none (c : ascii) (s : string) :
  all_chars (fun a => a <> c) s -> rstrip c s = s.
Proof.
  induction s as [| a s IH]; simpl; [reflexivity |].
  intros [Hne Hall]. rewrite (IH Hall).
  destruct s; [| reflexivity].
  destruct (Ascii.eqb_spec a c); [contradiction | reflexivity].
Qed.

Lemma rstrip_chars (P : ascii -> Prop) (c : ascii) (s : string) :
  all_chars P s -> all_chars P (rstrip c s).
Proof.
  induction s as [| a s IH]; simpl; [auto |].
  intros [Ha Hall]. specialize (IH Hall).
  destruct (rstrip c s); [| simpl; auto].
  destruct (Ascii.eqb a c); simpl; auto.
Qed.

Lemma rstrip_app_keep (c : ascii) (s t : string) :
  rstrip c t <> EmptyString -> rstrip c (s +:+ t) = s +:+ rstrip c t.
Proof.
  intros Ht. induction s as [| a s IH]; [reflexivity |].
  change (rstrip c (String a (s +:+ t)) = String a (s +:+ rstrip c t)).
  rewrite rstrip_cons; rewrite IH; [reflexivity |].
  destruct s; simpl; [exact Ht | discriminate].
Qed.

Lemma rstrip_app_drop (c : ascii) (s t : string) :
  rstrip c t = EmptyString -> rstrip c (s +:+ t) = rstrip c s.
Proof.
  intros Ht. induction s as [| a s IH]; [exact Ht |].
  change (rstrip c (String a (s +:+ t)) = rstrip c (String a s)).
  simpl. now rewrite IH.
Qed.

Lemma is_digit_not_dot (a : ascii) : is_digit a -> a <> "."%char.
Proof.
  intros (d & Hd & ->) Heq.
  assert (Hcases : d = 0 \/ d = 1 \/ d = 2 \/ d = 3 \/ d = 4 \/ d = 5 \/
                   d = 6 \/ d = 7 \/ d = 8 \/ d = 9) by lia.
  destruct Hcases as [-> | [-> | [-> | [-> | [-> | [-> | [-> | [-> | [-> | ->]]]]]]]]];
    discriminate.
Qed.

Lemma digit_char_zero (d : Z) :
  0 <= d <= 9 -> digit_char d = "0"%char -> d = 0.
Proof.
  intros Hd Heq.
  assert (Hcases : d = 0 \/ d = 1 \/ d = 2 \/ d = 3 \/ d = 4 \/ d = 5 \/
                   d = 6 \/ d = 7 \/ d = 8 \/ d = 9) by lia.
  destruct Hcases as [-> | [-> | [-> | [-> | [-> | [-> | [-> | [-> | [-> | ->]]]]]]]]];
    (reflexivity || discriminate).
Qed.

Lemma zfill_digits (k : nat) : forall n : Z, all_chars is_digit (zfill k n).
Proof.
  induction k as [| k IH]; intros n; simpl; [exact I |].
  apply all_chars_app. split; [apply IH |]. simpl. split; [| exact I].
  exists (n mod 10). split; [| reflexivity].
  pose proof (Z.mod_pos_bound n 10 ltac:(lia)). lia.
Qed.

Lemma zfill_all_zero (k : nat) : forall n : Z,
  all_chars (fun a => a = "0"%char) (zfill k n) -> n mod 10 ^ Z.of_nat k = 0.
Proof.
  induction k as [| k IH]; intros n Hall.
  - simpl. apply Z.mod_1_r.
  - simpl in Hall. apply all_chars_app in Hall as [Hhi Hlo].
    simpl in Hlo. destruct Hlo as [Hlo _].
    pose proof (Z.mod_pos_bound n 10 ltac:(lia)) as Hb.
    apply digit_char_zero in Hlo; [| lia].
    specialize (IH (n / 10) Hhi).
    rewrite Nat2Z.inj_succ, Z.pow_succ_r by lia.
    pose proof (Z.div_mod n 10 ltac:(lia)) as Hn.
    assert (Hpos : 0 < 10 ^ Z.of_nat k) by (apply Z.pow_pos_nonneg; lia).
    pose proof (Z.div_mod (n / 10) (10 ^ Z.of_nat k) ltac:(lia)) as Hq.
    replace n with (0 + (n / 10 / 10 ^ Z.of_nat k) * (10 * 10 ^ Z.of_nat k))
      by nia.
    rewrite Z.mod_add by lia. apply Z.mod_0_l. lia.
Qed.

Lemma string_of_uint_digits (d : Decimal.uint) :
  all_chars (fun a => a <> "."%char /\ a <> "-"%char) (NilEmpty.string_of_uint d).
Proof. induction d; simpl; repeat split; try discriminate; assumption. Qed.

Lemma str_no_dot (n : Z) : all_chars (fun a => a <> "."%char) (str n).
Proof.
  unfold str.
  assert (Hu : forall d, all_chars (fun a => a <> "."%char)
                                   (NilZero.string_of_uint d)).
  { intros d. unfold NilZero.string_of_uint.
    pose proof (string_of_uint_digits d) as Hd.
    apply (all_chars_impl _ (fun a => a <> "."%char)) in Hd; [| tauto].
    destruct d; try exact Hd. simpl. split; [discriminate | exact I]. }
  destruct (Z.to_int n) as [d | d]; simpl; [apply Hu |].
  split; [discriminate | apply Hu].
Qed.

Lemma str_inj (a b : Z) : str a = str b -> a = b.
Proof.
  unfold str. intros Heq.
  assert (Hnn : forall n, Z.to_int n <> Decimal.Pos Decimal.Nil /\
                          Z.to_int n <> Decimal.Neg Decimal.Nil).
  { intros [| p | p]; simpl; split; try discriminate;
      intros [= Hp]; exact (DecimalPos.Unsigned.to_uint_nonnil p Hp). }
  apply DecimalZ.to_int_inj.
  pose proof (NilZero.isi (Z.to_int a) (proj1 (Hnn a)) (proj2 (Hnn a))) as Ha.
  pose proof (NilZero.isi (Z.to_int b) (proj1 (Hnn b)) (proj2 (Hnn b))) as Hb.
  rewrite Heq in Ha. congruence.
Qed.

(** The two [rstrip]s of [human_amount] leave the shortest way of writing
    the number. *)
Lemma rstrip_format (q : Z) :
  rstrip "." (rstrip "0" (str (q / 10 ^ 8) +:+ "." +:+ zfill 8 (q mod 10 ^ 8)))
  = fixed8 q.
Proof.
  unfold fixed8.
  assert (Hfr : 0 <= q mod 10 ^ 8 < 10 ^ 8) by (apply Z.mod_pos_bound; lia).
  set (fr := q mod 10 ^ 8) in *. set (ip := str (q / 10 ^ 8)).
  destruct (Z.eqb_spec fr 0) as [-> | Hne].
  - change (zfill 8 0) with "00000000"%string.
    rewrite rstrip_app_keep by (vm_compute; discriminate).
    change (rstrip "0" ("." +:+ "00000000")) with "."%string.
    rewrite rstrip_app_drop by reflexivity.
    apply rstrip_none, str_no_dot.
  - assert (Hfrac : rstrip "0" (zfill 8 fr) <> EmptyString).
    { intros Hnil. apply rstrip_all, (zfill_all_zero 8) in Hnil.
      rewrite Z.mod_small in Hnil by exact Hfr. contradiction. }
    assert (Hdot : rstrip "0" ("." +:+ zfill 8 fr)
                   = "." +:+ rstrip "0" (zfill 8 fr)).
    { change ("." +:+ zfill 8 fr) with (String "." (zfill 8 fr)).
      now rewrite rstrip_cons. }
    rewrite rstrip_app_keep by (rewrite Hdot; discriminate).
    rewrite Hdot.
    assert (Hkeep : rstrip "." (rstrip "0" (zfill 8 fr))
                    = rstrip "0" (zfill 8 fr)).
    { apply rstrip_none, rstrip_chars.
      eapply all_chars_impl; [| apply zfill_digits].
      apply is_digit_not_dot. }
    rewrite rstrip_app_keep.
    + change ("." +:+ rstrip "0" (zfill 8 fr))
        with (String "." (rstrip "0" (zfill 8 fr))).
      rewrite rstrip_cons by (rewrite Hkeep; exact Hfrac).
      now rewrite Hkeep.
    + change ("." +:+ rstrip "0" (zfill 8 fr))
        with (String "." (rstrip "0" (zfill 8 fr))).
      rewrite rstrip_cons by (rewrite Hkeep; exact Hfrac). discriminate.
Qed.

(** ** Amounts: numbers *)

Lemma div_half_even_spec (n d : Z) :
  0 <= n -> 0 < d ->
  0 <= div_half_even n d /\ 2 * Z.abs (div_half_even n d * d - n) <= d.
Proof.
  intros Hn Hd. unfold div_half_even.
  pose proof (Z.div_mod n d ltac:(lia)) as Hdm.
  pose proof (Z.mod_pos_bound n d Hd) as Hr.
  pose proof (Z.div_pos n d Hn Hd) as Hq.
  set (q := n / d) in *. set (r := n mod d) in *.
  destruct (Z.ltb_spec (2 * r) d); [split; [lia | nia] |].
  destruct (Z.ltb_spec d (2 * r)); [split; [lia | nia] |].
  destruct (Z.even q); split; (lia || nia).
Qed.

(** [2 ^ log2_quot n d <= n / d], with the powers of two cleared of
    negative exponents. *)
Lemma log2_quot_lower (n d : Z) :
  0 < n -> 0 < d ->
  forall a b : Z, 0 <= a -> 0 <= b -> a - b = log2_quot n d ->
    d * 2 ^ a <= n * 2 ^ b.
Proof.
  intros Hn Hd a b Ha Hb Hk. unfold log2_quot in Hk.
  pose proof (Z.log2_spec n Hn) as [Hnl Hnu].
  pose proof (Z.log2_spec d Hd) as [Hdl Hdu].
  pose proof (Z.log2_nonneg n) as Hln. pose proof (Z.log2_nonneg d) as Hld.
  set (ln := Z.log2 n) in *. set (ld := Z.log2 d) in *.
  assert (Hpa : 0 < 2 ^ a) by (apply Z.pow_pos_nonneg; lia).
  assert (Hpb : 0 < 2 ^ b) by (apply Z.pow_pos_nonneg; lia).
  (* the bound one binade lower always holds *)
  assert (Hlow : forall a' b', 0 <= a' -> 0 <= b' -> a' - b' = ln - ld - 1 ->
                               d * 2 ^ a' <= n * 2 ^ b').
  { intros a' b' Ha' Hb' Hab.
    assert (Hpa' : 0 < 2 ^ a') by (apply Z.pow_pos_nonneg; lia).
    assert (Hpb' : 0 < 2 ^ b') by (apply Z.pow_pos_nonneg; lia).
    assert (Heq : 2 ^ (ld + 1) * 2 ^ a' = 2 ^ ln * 2 ^ b').
    { rewrite <- !Z.pow_add_r by lia. f_equal. lia. }
    nia. }
  destruct (Z.leb_spec 0 (ln - ld)) as [Hk0 | Hk0].
  - destruct (Z.ltb_spec n (d * 2 ^ (ln - ld))) as [Hbelow | Habove].
    + apply Hlow; lia.
    + replace a with ((ln - ld) + b) by lia.
      rewrite Z.pow_add_r by lia. nia.
  - destruct (Z.ltb_spec (n * 2 ^ (- (ln - ld))) d) as [Hbelow | Habove].
    + apply Hlow; lia.
    + replace b with (- (ln - ld) + a) by lia.
      rewrite Z.pow_add_r by lia. nia.
Qed.

Lemma log2_quot_upper (n d : Z) :
  0 < n -> 0 < d -> log2_quot n d <= Z.log2 n.
Proof.
  intros Hn Hd. unfold log2_quot.
  pose proof (Z.log2_nonneg d).
  destruct (Z.leb (0) (Z.log2 n - Z.log2 d));
    match goal with |- context [if ?b then _ else _] => destruct b end; lia.
Qed.

(** The shape of a quotient of positive integers that fits a float. *)
Lemma true_divide_pos (n d : Z) (x : float) :
  0 < n -> 0 < d -> true_divide n d = Ok x ->
  let e := Z.max (log2_quot n d - 52) (-1074) in
  fsign x = false /\ fexp x = e /\
  fmant x = (if 0 <=? e then div_half_even n (d * 2 ^ e)
             else div_half_even (n * 2 ^ (- e)) d).
Proof.
  intros Hn Hd. unfold true_divide.
  destruct (Z.eqb_spec d 0); [lia |].
  rewrite (Z.abs_eq n), (Z.abs_eq d) by lia.
  destruct (Z.eqb_spec n 0); [lia |].
  replace (n <? 0) with false by (symmetry; apply Z.ltb_ge; lia).
  replace (d <? 0) with false by (symmetry; apply Z.ltb_ge; lia).
  cbv zeta.
  match goal with |- context [if ?b then Raise _ else _] => destruct b end;
    [discriminate |].
  intros [= <-]. simpl. auto.
Qed.

(** What is printed is within [10^-8 + 2^-53 * (n / d)] of [n / d]. *)
Lemma scaled_accuracy (n d : Z) (x : float) :
  0 < n -> 0 < d -> true_divide n d = Ok x ->
  0 <= scaled_1e8 x /\
  Z.abs (scaled_1e8 x * d - n * 10 ^ 8) * 2 ^ 53 <= d * 2 ^ 53 + n * 10 ^ 8.
Proof.
  intros Hn Hd Hx.
  destruct (true_divide_pos n d x Hn Hd Hx) as (_ & He & Hm).
  unfold scaled_1e8. rewrite He, Hm. clear He Hm Hx.
  pose proof (log2_quot_lower n d Hn Hd) as Hlow.
  set (k := log2_quot n d) in *.
  set (e := Z.max (k - 52) (-1074)).
  destruct (Z.leb_spec 0 e) as [He | He].
  - assert (Hp : 0 < 2 ^ e) by (apply Z.pow_pos_nonneg; lia).
    destruct (div_half_even_spec n (d * 2 ^ e) ltac:(lia) ltac:(nia))
      as [Hm0 Hm].
    set (m := div_half_even n (d * 2 ^ e)) in *.
    specialize (Hlow (e + 52) 0 ltac:(lia) ltac:(lia) ltac:(subst e; lia)).
    rewrite Z.pow_add_r in Hlow by lia.
    change (2 ^ 0) with 1 in Hlow.
    split; [nia |].
    replace (m * 2 ^ e * 10 ^ 8 * d - n * 10 ^ 8)
      with (10 ^ 8 * (m * (d * 2 ^ e) - n)) by ring.
    rewrite Z.abs_mul, (Z.abs_eq (10 ^ 8)) by lia.
    nia.
  - assert (Hp : 0 < 2 ^ (- e)) by (apply Z.pow_pos_nonneg; lia).
    destruct (div_half_even_spec (n * 2 ^ (- e)) d ltac:(nia) Hd) as [Hm0 Hm].
    set (m := div_half_even (n * 2 ^ (- e)) d) in *.
    destruct (div_half_even_spec (m * 10 ^ 8) (2 ^ (- e)) ltac:(nia) Hp)
      as [Hq0 Hq].
    set (q := div_half_even (m * 10 ^ 8) (2 ^ (- e))) in *.
    split; [exact Hq0 |].
    set (E := 2 ^ (- e)) in *.
    assert (Hsum : Z.abs (q * d - n * 10 ^ 8) * (2 * E)
                   <= d * E + 10 ^ 8 * d).
    { replace (Z.abs (q * d - n * 10 ^ 8) * (2 * E))
        with (Z.abs (2 * ((q * d - n * 10 ^ 8) * E)))
        by (rewrite !Z.abs_mul, (Z.abs_eq 2), (Z.abs_eq E) by lia; ring).
      replace (2 * ((q * d - n * 10 ^ 8) * E))
        with (d * (2 * (q * E - m * 10 ^ 8))
              + 10 ^ 8 * (2 * (m * d - n * E))) by ring.
      etransitivity; [apply Z.abs_triangle |].
      rewrite !Z.abs_mul, (Z.abs_eq d), (Z.abs_eq (10 ^ 8)),
              !(Z.abs_eq 2) by lia.
      nia. }
    destruct (Z.le_gt_cases (-1074) (k - 52)) as [Hnorm | Hsub].
    + specialize (Hlow 52 (- e) ltac:(lia) ltac:(lia) ltac:(subst e; lia)).
      fold E in Hlow.
      assert (Habs : 0 <= Z.abs (q * d - n * 10 ^ 8)) by apply Z.abs_nonneg.
      nia.
    + assert (HE : 2 ^ 1074 = E) by (subst E e; f_equal; lia).
      assert (Hbig : 10 ^ 8 <= E) by (rewrite <- HE; vm_compute; discriminate).
      assert (Habs : 0 <= Z.abs (q * d - n * 10 ^ 8)) by apply Z.abs_nonneg.
      assert (Hle : Z.abs (q * d - n * 10 ^ 8) * (2 * E) <= 2 * d * E) by nia.
      assert (Hd1 : Z.abs (q * d - n * 10 ^ 8) <= d) by nia.
      nia.
Qed.

(** The bound of [scaled_accuracy] with its constants sharpened:
    what is printed is within [(1/2 + 2^-54) * 10^-8 + 2^-53 * (n / d)]
    of [n / d]. *)
Lemma scaled_accuracy_sharp (n d : Z) (x : float) :
  0 < n -> 0 < d -> true_divide n d = Ok x ->
  Z.abs (scaled_1e8 x * d - n * 10 ^ 8) * 2 ^ 54
    <= d * (2 ^ 53 + 1) + 2 * (n * 10 ^ 8).
Proof.
  intros Hn Hd Hx.
  destruct (true_divide_pos n d x Hn Hd Hx) as (_ & He & Hm).
  unfold scaled_1e8. rewrite He, Hm. clear He Hm Hx.
  pose proof (log2_quot_lower n d Hn Hd) as Hlow.
  set (k := log2_quot n d) in *.
  set (e := Z.max (k - 52) (-1074)).
  change (2 ^ 54) with (2 * 2 ^ 53).
  destruct (Z.leb_spec 0 e) as [He | He].
  - assert (Hp : 0 < 2 ^ e) by (apply Z.pow_pos_nonneg; lia).
    destruct (div_half_even_spec n (d * 2 ^ e) ltac:(lia) ltac:(nia))
      as [Hm0 Hm].
    set (m := div_half_even n (d * 2 ^ e)) in *.
    specialize (Hlow (e + 52) 0 ltac:(lia) ltac:(lia) ltac:(subst e; lia)).
    rewrite Z.pow_add_r in Hlow by lia.
    change (2 ^ 0) with 1 in Hlow.
    replace (m * 2 ^ e * 10 ^ 8 * d - n * 10 ^ 8)
      with (10 ^ 8 * (m * (d * 2 ^ e) - n)) by ring.
    rewrite Z.abs_mul, (Z.abs_eq (10 ^ 8)) by lia.
    change (2 ^ 52) with 4503599627370496 in Hlow.
    change (2 ^ 53) with 9007199254740992.
    nia.
  - assert (Hp : 0 < 2 ^ (- e)) by (apply Z.pow_pos_nonneg; lia).
    destruct (div_half_even_spec (n * 2 ^ (- e)) d ltac:(nia) Hd) as [Hm0 Hm].
    set (m := div_half_even (n * 2 ^ (- e)) d) in *.
    destruct (div_half_even_spec (m * 10 ^ 8) (2 ^ (- e)) ltac:(nia) Hp)
      as [Hq0 Hq].
    set (q := div_half_even (m * 10 ^ 8) (2 ^ (- e))) in *.
    set (E := 2 ^ (- e)) in *.
    assert (Hsum : Z.abs (q * d - n * 10 ^ 8) * (2 * E)
                   <= d * E + 10 ^ 8 * d).
    { replace (Z.abs (q * d - n * 10 ^ 8) * (2 * E))
        with (Z.abs (2 * ((q * d - n * 10 ^ 8) * E)))
        by (rewrite !Z.abs_mul, (Z.abs_eq 2), (Z.abs_eq E) by lia; ring).
      replace (2 * ((q * d - n * 10 ^ 8) * E))
        with (d * (2 * (q * E - m * 10 ^ 8))
              + 10 ^ 8 * (2 * (m * d - n * E))) by ring.
      etransitivity; [apply Z.abs_triangle |].
      rewrite !Z.abs_mul, (Z.abs_eq d), (Z.abs_eq (10 ^ 8)),
              !(Z.abs_eq 2) by lia.
      nia. }
    set (A := Z.abs (q * d - n * 10 ^ 8)) in *.
    assert (HA : 0 <= A) by apply Z.abs_nonneg.
    apply (Z.mul_le_mono_pos_r _ _ E Hp).
    destruct (Z.le_gt_cases (-1074) (k - 52)) as [Hnorm | Hsub].
    + specialize (Hlow 52 (- e) ltac:(lia) ltac:(lia) ltac:(subst e; lia)).
      fold E in Hlow.
      change (2 ^ 52) with 4503599627370496 in Hlow.
      change (2 ^ 53) with 9007199254740992.
      change (10 ^ 8) with 100000000 in *.
      nia.
    + assert (HE : 2 ^ 1074 = E) by (subst E e; f_equal; lia).
      assert (Hbig : 2 ^ 53 * 10 ^ 8 <= E)
        by (rewrite <- HE; vm_compute; discriminate).
      change (2 ^ 53) with 9007199254740992 in *.
      change (10 ^ 8) with 100000000 in *.
      nia.
Qed.

(** A quotient of a [uint256] by a positive integer always fits. *)
Lemma true_divide_uint256 (n d : Z) :
  0 < n < 2 ^ 256 -> 0 < d -> exists x : float, true_divide n d = Ok x.
Proof.
  intros [Hn Hn256] Hd. unfold true_divide.
  destruct (Z.eqb_spec d 0); [lia |].
  rewrite (Z.abs_eq n), (Z.abs_eq d) by lia.
  destruct (Z.eqb_spec n 0); [lia |].
  cbv zeta.
  pose proof (log2_quot_upper n d Hn Hd) as Hk.
  assert (Hln : Z.log2 n < 256) by (apply Z.log2_lt_pow2; lia).
  set (k := log2_quot n d) in *.
  set (e := Z.max (k - 52) (-1074)).
  match goal with
  | |- context [if (0 <? ?m0) && _ then _ else _] => set (m := m0)
  end.
  assert (Hfits : 0 < m -> Z.log2 m + e < 1024).
  { intros Hm. subst m. destruct (Z.leb_spec 0 e) as [He | He].
    - assert (Hp : 0 < 2 ^ e) by (apply Z.pow_pos_nonneg; lia).
      destruct (div_half_even_spec n (d * 2 ^ e) ltac:(lia) ltac:(nia))
        as [_ Hspec].
      set (m := div_half_even n (d * 2 ^ e)) in *.
      assert (Hm257 : m < 2 ^ 257).
      { assert (m <= n + 1) by nia.
        change (2 ^ 257) with (2 * 2 ^ 256). lia. }
      apply Z.log2_lt_pow2 in Hm257; lia.
    - assert (Hp : 0 < 2 ^ (- e)) by (apply Z.pow_pos_nonneg; lia).
      destruct (div_half_even_spec (n * 2 ^ (- e)) d ltac:(nia) Hd)
        as [_ Hspec].
      set (m := div_half_even (n * 2 ^ (- e)) d) in *.
      assert (Hmb : m < 2 ^ (257 - e)).
      { replace (257 - e) with (257 + - e) by lia.
        rewrite Z.pow_add_r by lia.
        change (2 ^ 257) with (2 * 2 ^ 256).
        assert (m <= n * 2 ^ (- e) + 1) by nia. nia. }
      apply Z.log2_lt_pow2 in Hmb; lia. }
  destruct (Z.ltb_spec 0 m) as [Hm | Hm]; simpl; [| eauto].
  destruct (Z.leb_spec 1024 (Z.log2 m + e)); [| eauto].
  specialize (Hfits Hm). lia.
Qed.

Lemma true_divide_raise (n d : Z) (e : exn) :
  d <> 0 -> true_divide n d = Raise e -> e = OverflowError.
Proof.
  intros Hd. unfold true_divide.
  destruct (Z.eqb_spec d 0); [contradiction |].
  destruct (Z.abs n =? 0); [discriminate |]. cbv zeta.
  match goal with |- context [if ?b then Raise _ else _] => destruct b end;
    [now intros [= <-] | discriminate].
Qed.

Lemma format_8f_pos (x : float) :
  fsign x = false ->
  rstrip "." (rstrip "0" (format_8f x)) = fixed8 (scaled_1e8 x).
Proof. intros Hs. unfold format_8f. rewrite Hs. apply rstrip_format. Qed.

(** The amount printed for a positive value whose quotient fits a float. *)
Lemma human_amount_ok (value decimals : Z) (x : float) :
  0 < decimals -> 0 < value ->
  true_divide value (10 ^ decimals) = Ok x ->
  human_amount value decimals = Ok (fixed8 (scaled_1e8 x)) /\
  0 <= scaled_1e8 x /\
  Z.abs (scaled_1e8 x * 10 ^ decimals - value * 10 ^ 8) * 2 ^ 53
    <= 10 ^ decimals * 2 ^ 53 + value * 10 ^ 8.
Proof.
  intros Hdec Hv Hx.
  assert (HD : 0 < 10 ^ decimals) by (apply Z.pow_pos_nonneg; lia).
  destruct (true_divide_pos value (10 ^ decimals) x Hv HD Hx) as (Hsign & _).
  split; [| exact (scaled_accuracy value (10 ^ decimals) x Hv HD Hx)].
  unfold human_amount.
  destruct (Z.leb_spec decimals 0); [lia |].
  rewrite Hx. simpl. now rewrite (format_8f_pos x Hsign).
Qed.

Lemma human_amount_zero (decimals : Z) :
  0 < decimals -> human_amount 0 decimals = Ok (fixed8 0).
Proof.
  intros Hdec. unfold human_amount.
  destruct (Z.leb_spec decimals 0); [lia |].
  assert (HD : 0 < 10 ^ decimals) by (apply Z.pow_pos_nonneg; lia).
  unfold true_divide.
  destruct (Z.eqb_spec (10 ^ decimals) 0); [lia |].
  replace (10 ^ decimals <? 0) with false by (symmetry; apply Z.ltb_ge; lia).
  reflexivity.
Qed.

(** The quotient of a negative integer is the quotient of its opposite
    with the sign set. *)
Lemma true_divide_neg (n d : Z) :
  0 < n -> 0 < d ->
  true_divide (- n) d
  = match true_divide n d with
    | Ok x => Ok {| fsign := true; fmant := fmant x; fexp := fexp x |}
    | Raise e => Raise e
    end.
Proof.
  intros Hn Hd. unfold true_divide.
  destruct (Z.eqb_spec d 0); [lia |].
  rewrite Z.abs_opp, (Z.abs_eq n), (Z.abs_eq d) by lia.
  destruct (Z.eqb_spec n 0); [lia |].
  replace (- n <? 0) with true by (symmetry; apply Z.ltb_lt; lia).
  replace (n <? 0) with false by (symmetry; apply Z.ltb_ge; lia).
  replace (d <? 0) with false by (symmetry; apply Z.ltb_ge; lia).
  cbv zeta.
  match goal with |- context [if ?b then Raise _ else _] => destruct b end;
    reflexivity.
Qed.

Lemma str_nonempty (n : Z) : str n <> EmptyString.
Proof.
  unfold str. destruct (Z.to_int n) as [d | d]; simpl; [| discriminate].
  unfold NilZero.string_of_uint. destruct d; simpl; discriminate.
Qed.

Lemma str_neg (n : Z) : 0 < n -> str (- n) = "-" +:+ str n.
Proof. destruct n as [| p | p]; intros Hn; try lia. reflexivity. Qed.

Lemma fixed8_nonempty (q : Z) : fixed8 q <> EmptyString.
Proof.
  unfold fixed8. pose proof (str_nonempty (q / 10 ^ 8)) as Hs.
  destruct (q mod 10 ^ 8 =? 0); [exact Hs |].
  destruct (str (q / 10 ^ 8)); [contradiction | discriminate].
Qed.

(** The amount of a negative value is the amount of its opposite after a
    minus sign. *)
Lemma human_amount_neg (value decimals : Z) :
  0 < decimals -> 0 < value ->
  human_amount (- value) decimals
  = match human_amount value decimals with
    | Ok s => Ok ("-" +:+ s)
    | Raise e => Raise e
    end.
Proof.
  intros Hdec Hv.
  assert (HD : 0 < 10 ^ decimals) by (apply Z.pow_pos_nonneg; lia).
  unfold human_amount. destruct (Z.leb_spec decimals 0); [lia |].
  rewrite (true_divide_neg value (10 ^ decimals) Hv HD).
  destruct (true_divide value (10 ^ decimals)) as [x |] eqn:Hx; [| reflexivity].
  destruct (true_divide_pos value (10 ^ decimals) x Hv HD Hx) as (Hsign & _).
  cbn [mbind result_bind bind]. f_equal.
  rewrite (format_8f_pos x Hsign).
  unfold format_8f at 1. cbn [fsign fmant fexp].
  change (scaled_1e8 {| fsign := true; fmant := fmant x; fexp := fexp x |})
    with (scaled_1e8 x).
  set (body := str (scaled_1e8 x / 10 ^ 8) +:+ "."
               +:+ zfill 8 (scaled_1e8 x mod 10 ^ 8)).
  pose proof (rstrip_format (scaled_1e8 x)) as Hfmt. fold body in Hfmt.
  pose proof (fixed8_nonempty (scaled_1e8 x)) as Hne.
  assert (Hzero : rstrip "0" body <> EmptyString).
  { intros Hnil. rewrite Hnil in Hfmt. simpl in Hfmt. congruence. }
  rewrite (rstrip_app_keep "0" "-" body Hzero).
  rewrite (rstrip_app_keep "." "-" (rstrip "0" body)) by (rewrite Hfmt; exact Hne).
  now rewrite Hfmt.
Qed.

(** The amount printed for a positive value, with the sharp bound. *)
Lemma human_amount_pos (value decimals : Z) (s : string) :
  0 < decimals -> 0 < value ->
  human_amount value decimals = Ok s ->
  exists q : Z,
    0 <= q /\ s = fixed8 q /\
    Z.abs (q * 10 ^ decimals - value * 10 ^ 8) * 2 ^ 54
      <= 10 ^ decimals * (2 ^ 53 + 1) + 2 * (value * 10 ^ 8).
Proof.
  intros Hdec Hv Hs.
  assert (HD : 0 < 10 ^ decimals) by (apply Z.pow_pos_nonneg; lia).
  destruct (true_divide value (10 ^ decimals)) as [x | e] eqn:Hx.
  - destruct (human_amount_ok value decimals x Hdec Hv Hx) as (Hrun & Hq0 & _).
    rewrite Hrun in Hs. injection Hs as <-.
    exists (scaled_1e8 x). split; [exact Hq0 |]. split; [reflexivity |].
    exact (scaled_accuracy_sharp value (10 ^ decimals) x Hv HD Hx).
  - unfold human_amount in Hs. destruct (Z.leb_spec decimals 0); [lia |].
    rewrite Hx in Hs. discriminate.
Qed.

Lemma human_amount_raise (value decimals : Z) (e : exn) :
  human_amount value decimals = Raise e -> e = OverflowError.
Proof.
  unfold human_amount. destruct (Z.leb_spec decimals 0); [discriminate |].
  assert (HD : 0 < 10 ^ decimals) by (apply Z.pow_pos_nonneg; lia).
  destruct (true_divide value (10 ^ decimals)) as [x | e'] eqn:Hx;
    [discriminate |].
  cbn [mbind result_bind bind]. intros [= <-].
  apply (true_divide_raise value (10 ^ decimals)); [lia | exact Hx].
Qed.

(** C4. [human_amount] prints the integer as it is when [decimals <= 0].
    Otherwise, for every value, what it returns is a minus sign when the
    value is negative and then the shortest way of writing a number of at
    most 8 fractional digits (no trailing zero, no trailing point) that
    lies within [(1/2 + 2^-54) * 10^-8 + 2^-53 * x] of the quotient
    [x = |value| / 10^decimals]: the quotient rounded to the nearest
    binary64 float, rounded to 8 decimals.  It returns for every value
    below [2^256] in absolute value, and when it does not it raises
    [OverflowError].  The three examples give "1.2345678", "0" and "5". *)
Theorem human_amount_spec (value decimals : Z) :
  (decimals <= 0 -> human_amount value decimals = Ok (str value)) /\
  (0 < decimals ->
   (Z.abs value < 2 ^ 256 -> is_ok (human_amount value decimals) = true) /\
   (forall e : exn,
      human_amount value decimals = Raise e -> e = OverflowError) /\
   (forall s : string,
      human_amount value decimals = Ok s ->
      exists q : Z,
        0 <= q /\
        s = (if value <? 0 then "-" else "") +:+ fixed8 q /\
        Z.abs (q * 10 ^ decimals - Z.abs value * 10 ^ 8) * 2 ^ 54
          <= 10 ^ decimals * (2 ^ 53 + 1) + 2 * (Z.abs value * 10 ^ 8))) /\
  human_amount 1234567800000000000 18 = Ok "1.2345678"%string /\
  human_amount 0 18 = Ok "0"%string /\
  human_amount 5 0 = Ok "5"%string.
Proof.
  split; [| split; [| now vm_compute]].
  - intros Hdec. unfold human_amount.
    destruct (Z.leb_spec decimals 0); [reflexivity | lia].
  - intros Hdec.
    assert (HD : 0 < 10 ^ decimals) by (apply Z.pow_pos_nonneg; lia).
    split; [| split; [intros e; apply human_amount_raise |]].
    + intros Hsmall.
      destruct (Z.lt_trichotomy value 0) as [Hneg | [-> | Hpos]].
      * replace value with (- - value) by lia.
        rewrite (human_amount_neg (- value) decimals Hdec ltac:(lia)).
        destruct (true_divide_uint256 (- value) (10 ^ decimals) ltac:(lia) HD)
          as [x Hx].
        destruct (human_amount_ok (- value) decimals x Hdec ltac:(lia) Hx)
          as (-> & _). reflexivity.
      * now rewrite human_amount_zero.
      * destruct (true_divide_uint256 value (10 ^ decimals) ltac:(lia) HD)
          as [x Hx].
        destruct (human_amount_ok value decimals x Hdec Hpos Hx) as (-> & _).
        reflexivity.
    + intros s Hs.
      destruct (Z.lt_trichotomy value 0) as [Hneg | [-> | Hpos]].
      * replace (value <? 0) with true by (symmetry; apply Z.ltb_lt; lia).
        rewrite (Z.abs_neq value) by lia.
        replace value with (- - value) in Hs by lia.
        rewrite (human_amount_neg (- value) decimals Hdec ltac:(lia)) in Hs.
        destruct (human_amount (- value) decimals) as [s' |] eqn:Hs';
          [| discriminate].
        injection Hs as <-.
        destruct (human_amount_pos (- value) decimals s' Hdec ltac:(lia) Hs')
          as (q & Hq0 & -> & Hacc).
        exists q. split; [exact Hq0 |]. split; [reflexivity | exact Hacc].
      * rewrite (human_amount_zero decimals Hdec) in Hs. injection Hs as <-.
        exists 0. split; [lia |]. split; [reflexivity |].
        change (Z.abs 0) with 0. change (2 ^ 53) with 9007199254740992.
        change (2 ^ 54) with 18014398509481984. simpl Z.abs. nia.
      * replace (value <? 0) with false by (symmetry; apply Z.ltb_ge; lia).
        rewrite (Z.abs_eq value) by lia.
        destruct (human_amount_pos value decimals s Hdec Hpos Hs)
          as (q & Hq0 & -> & Hacc).
        exists q. split; [exact Hq0 |]. split; [reflexivity | exact Hacc].
Qed.

(** For a positive value the amount printed is below the value, so it is
    not the value printed. *)
Lemma human_amount_pos_not_raw (value decimals : Z) :
  0 < value -> 0 < decimals ->
  human_amount value decimals <> Ok (str value).
Proof.
  intros Hv Hdec.
  assert (HD : 10 <= 10 ^ decimals).
  { change 10 with (10 ^ 1) at 1. apply Z.pow_le_mono_r; lia. }
  destruct (true_divide value (10 ^ decimals)) as [x | e] eqn:Hx.
  2: { unfold human_amount. destruct (Z.leb_spec decimals 0); [lia |].
       rewrite Hx. discriminate. }
  destruct (human_amount_ok value decimals x Hdec Hv Hx) as (-> & Hq0 & Hacc).
  intros [= Heq].
  set (q := scaled_1e8 x) in *. set (D := 10 ^ decimals) in *.
  unfold fixed8 in Heq.
  destruct (Z.eqb_spec (q mod 10 ^ 8) 0) as [Hfr | Hfr].
  - apply str_inj in Heq.
    pose proof (Z.div_mod q (10 ^ 8) ltac:(lia)) as Hdm.
    assert (Hq : q = value * 10 ^ 8) by lia.
    rewrite Hq in Hacc.
    replace (value * 10 ^ 8 * D - value * 10 ^ 8)
      with (value * 10 ^ 8 * (D - 1)) in Hacc by ring.
    rewrite Z.abs_eq in Hacc by nia.
    change (2 ^ 53) with 9007199254740992 in Hacc.
    change (10 ^ 8) with 100000000 in Hacc.
    nia.
  - pose proof (str_no_dot value) as Hnd. rewrite <- Heq in Hnd.
    apply all_chars_app in Hnd as [_ Hnd].
    apply all_chars_app in Hnd as [Hnd _].
    simpl in Hnd. destruct Hnd as [Hnd _]. now apply Hnd.
Qed.

(** C9, as amended. With [decimals > 0], what [human_amount] returns is
    the raw integer printed as it is for the value 0 and for no other
    value, positive or negative. *)
Theorem human_amount_not_raw (value decimals : Z) :
  0 < decimals ->
  (human_amount value decimals = Ok (str value) <-> value = 0).
Proof.
  intros Hdec. split.
  - intros Hraw.
    destruct (Z.lt_trichotomy value 0) as [Hneg | [Hz | Hpos]];
      [| exact Hz |].
    + exfalso. replace value with (- - value) in Hraw by lia.
      rewrite (human_amount_neg (- value) decimals Hdec ltac:(lia)) in Hraw.
      rewrite (str_neg (- value)) in Hraw by lia.
      destruct (human_amount (- value) decimals) as [s |] eqn:Hs;
        [| discriminate].
      injection Hraw as Hraw.
      change (s = str (- value)) in Hraw.
      apply (human_amount_pos_not_raw (- value) decimals); [lia | exact Hdec |].
      now rewrite Hs, Hraw.
    + exfalso. now apply (human_amount_pos_not_raw value decimals).
  - intros ->. now rewrite human_amount_zero.
Qed.

(** ** Report builder *)

Section Sorting.
Context {A : Type} (key : A -> Z * Z).
Implicit Types (x y : A) (l : list A).

Lemma tuple_ltb_spec (p q : Z * Z) :
  tuple_ltb p q = true <->
  fst p < fst q \/ (fst p = fst q /\ snd p < snd q).
Proof.
  unfold tuple_ltb.
  rewrite orb_true_iff, andb_true_iff, !Z.ltb_lt, Z.eqb_eq. tauto.
Qed.

Lemma key_le_spec x y :
  key_le key x y <->
  fst (key x) < fst (key y) \/
  (fst (key x) = fst (key y) /\ snd (key x) <= snd (key y)).
Proof.
  unfold key_le. rewrite <- not_true_iff_false, tuple_ltb_spec. lia.
Qed.

Lemma key_le_trans x y z : key_le key x y -> key_le key y z -> key_le key x z.
Proof. rewrite !key_le_spec. lia. Qed.

Lemma key_le_of_lt x y : tuple_ltb (key x) (key y) = true -> key_le key x y.
Proof. rewrite tuple_ltb_spec, key_le_spec. lia. Qed.

Lemma insert_by_key_perm x l : Permutation (x :: l) (insert_by_key key x l).
Proof.
  induction l as [| y l IH]; simpl; [reflexivity |].
  destruct (tuple_ltb (key y) (key x)); [| reflexivity].
  rewrite perm_swap. now apply perm_skip.
Qed.

Lemma sort_by_key_perm l : Permutation l (sort_by_key key l).
Proof.
  induction l as [| x l IH]; simpl; [reflexivity |].
  rewrite <- insert_by_key_perm. now apply perm_skip.
Qed.

Lemma insert_by_key_sorted x l :
  StronglySorted (key_le key) l ->
  StronglySorted (key_le key) (insert_by_key key x l).
Proof.
  induction l as [| y l IH]; simpl; intros Hs.
  - repeat constructor.
  - apply StronglySorted_inv in Hs as [Hs Hall].
    destruct (tuple_ltb (key y) (key x)) eqn:Hlt.
    + constructor; [now apply IH |].
      rewrite <- insert_by_key_perm. constructor; [| exact Hall].
      now apply key_le_of_lt.
    + constructor; [now constructor |].
      constructor; [exact Hlt |].
      eapply Forall_impl; [exact Hall |].
      intros z Hyz. now apply (key_le_trans x y z).
Qed.

Lemma sort_by_key_sorted l : StronglySorted (key_le key) (sort_by_key key l).
Proof.
  induction l as [| x l IH]; simpl; [constructor |].
  now apply insert_by_key_sorted.
Qed.

(** Stability: the elements of one key keep their order. *)
Lemma insert_by_key_stable (k : Z * Z) x l :
  filter (fun y => key y = k) (insert_by_key key x l) =
  filter (fun y => key y = k) (x :: l).
Proof.
  induction l as [| y l IH]; simpl; [reflexivity |].
  destruct (tuple_ltb (key y) (key x)) eqn:Hlt; [| reflexivity].
  apply tuple_ltb_spec in Hlt.
  rewrite (filter_cons _ y), IH, !(filter_cons _ x), !(filter_cons _ y).
  destruct (decide (key x = k)) as [Hx | Hx];
    destruct (decide (key y = k)) as [Hy | Hy]; try reflexivity.
  exfalso. rewrite Hx, Hy in Hlt. lia.
Qed.

Lemma sort_by_key_stable (k : Z * Z) l :
  filter (fun y => key y = k) (sort_by_key key l) =
  filter (fun y => key y = k) l.
Proof.
  induction l as [| x l IH]; simpl; [reflexivity |].
  rewrite insert_by_key_stable, !(filter_cons _ x), IH. reflexivity.
Qed.

End Sorting.

Lemma key_le_row_before (r1 r2 : AllowanceRow) :
  key_le sort_key r1 r2 <-> row_before r1 r2.
Proof. rewrite key_le_spec. unfold row_before, sort_key. simpl. lia. Qed.

(** C7. The report builder returns the rows it assembled sorted by risk,
    highest first, then by raw allowance, largest first: the result is a
    rearrangement of the rows, a row never stands after one of lower risk
    or of the same risk and a smaller allowance, so every row of higher
    risk comes earlier, and rows equal on both keys keep the order they
    had. *)
Theorem build_report_sorted (rows : list AllowanceRow) :
  let sorted := sort_by_key sort_key rows in
  (forall w3 owner pairs,
     build_rows w3 owner pairs ∅ [] = Ok rows ->
     build_report w3 owner pairs = Ok sorted) /\
  Permutation rows sorted /\
  StronglySorted row_before sorted /\
  (forall (i j : nat) a b,
     sorted !! i = Some a -> sorted !! j = Some b ->
     ((i < j)%nat ->
      risk b <= risk a /\ (risk a = risk b -> allowance_raw b <= allowance_raw a)) /\
     (risk b < risk a -> (i < j)%nat) /\
     (risk a = risk b -> allowance_raw b < allowance_raw a -> (i < j)%nat)) /\
  (forall rk al,
     filter (fun r => risk r = rk /\ allowance_raw r = al) sorted =
     filter (fun r => risk r = rk /\ allowance_raw r = al) rows).
Proof.
  intros sorted.
  assert (Hs : StronglySorted row_before sorted).
  { apply (StronglySorted_weaken (key_le sort_key));
      [| apply sort_by_key_sorted].
    intros r1 r2. apply key_le_row_before. }
  assert (Hpos : forall (i j : nat) a b,
             sorted !! i = Some a -> sorted !! j = Some b -> (i < j)%nat ->
             row_before a b).
  { intros i j a b. now apply StronglySorted_lookup. }
  split; [| split; [| split; [| split]]].
  - intros w3 owner pairs Hrows. unfold build_report. now rewrite Hrows.
  - apply sort_by_key_perm.
  - exact Hs.
  - intros i j a b Hi Hj. split; [| split].
    + intros Hij. specialize (Hpos i j a b Hi Hj Hij).
      unfold row_before in Hpos. lia.
    + intros Hrisk. destruct (Nat.lt_trichotomy i j) as [Hlt | [-> | Hgt]];
        [exact Hlt | |].
      * rewrite Hi in Hj. injection Hj as ->. lia.
      * specialize (Hpos j i b a Hj Hi Hgt). unfold row_before in Hpos. lia.
    + intros Hrisk Hal.
      destruct (Nat.lt_trichotomy i j) as [Hlt | [-> | Hgt]];
        [exact Hlt | |].
      * rewrite Hi in Hj. injection Hj as ->. lia.
      * specialize (Hpos j i b a Hj Hi Hgt). unfold row_before in Hpos. lia.
  - intros rk al.
    rewrite (list_filter_iff _ (fun r => sort_key r = (- rk, - al)) sorted),
            (list_filter_iff _ (fun r => sort_key r = (- rk, - al)) rows).
    + apply sort_by_key_stable.
    + intros r. unfold sort_key. split.
      * intros [-> ->]. reflexivity.
      * intros [= Hr Ha]. lia.
    + intros r. unfold sort_key. split.
      * intros [-> ->]. reflexivity.
      * intros [= Hr Ha]. lia.
Qed.

(** ** Fetchers *)



(** A fetcher that returns has built its contract object. *)
Lemma get_token_meta_bound (w3 : Web3) (tok : string) (m : string * Z) :
  get_token_meta w3 tok = Ok m -> eth_contract w3 tok = Ok tt.
Proof.
  unfold get_token_meta.
  destruct (eth_contract w3 tok) as [[] |]; [reflexivity | discriminate].
Qed.

Lemma get_allowance_balance_bound (w3 : Web3) (tok owner spd : string)
    (ab : Z * Z) :
  get_allowance_balance w3 tok owner spd = Ok ab -> eth_contract w3 tok = Ok tt.
Proof.
  unfold get_allowance_balance.
  destruct (eth_contract w3 tok) as [[] |]; [reflexivity | discriminate].
Qed.











(** ** Table *)

Lemma ends_with_app (suffix s t : string) :
  ends_with suffix t = true -> ends_with suffix (s +:+ t) = true.
Proof.
  intros Ht. induction s as [| a s IH]; [exact Ht |].
  change (ends_with suffix (String a (s +:+ t)) = true).
  simpl. rewrite IH. apply orb_true_r.
Qed.

(** C8, as amended. For a row whose raw allowance is at or above the
    infinite threshold, the entry of the ALLOW column, not the one of the
    SPENDER column, carries the "∞" marker: it is the readable allowance
    followed by " ∞"; the entry of the SPENDER column is the address,
    followed by the known-spender label in parentheses when there is one. *)
Theorem print_table_infinite_marker (r : AllowanceRow) :
  INFINITE_THRESHOLD <= allowance_raw r ->
  table_headers !! 5%nat = Some "ALLOW"%string /\
  table_line true r !! 5%nat = Some (CStr (allowance r +:+ " ∞")) /\
  ends_with "∞" (allowance r +:+ " ∞") = true /\
  table_headers !! 3%nat = Some "SPENDER"%string /\
  table_line true r !! 3%nat =
    Some (CStr (spender r +:+
                (if String.eqb (spender_tag r) ""
                 then ""%string
                 else " (" +:+ spender_tag r +:+ ")"))).
Proof.
  intros Hinf. unfold table_line.
  replace (INFINITE_THRESHOLD <=? allowance_raw r) with true
    by (symmetry; now apply Z.leb_le).
  repeat split; try reflexivity.
  now apply ends_with_app.
Qed.


(** * Further properties *)

(** ** Risk scorer *)

Ltac risk_cases allowance_raw balance_raw spender :=
  unfold calc_risk, INFINITE_THRESHOLD;
  destruct (Dict.contains SAFE_SPENDERS_ETH spender);
  destruct (Z.leb_spec (2 ^ 255) allowance_raw);
  destruct (Z.ltb_spec 0 balance_raw);
  destruct (Z.ltb_spec (10 * balance_raw) allowance_raw);
  destruct (Z.ltb_spec balance_raw allowance_raw);
  cbn [andb orb negb].

(** X1. The score is always 1, 2 or 3. A spender of the registry is never
    scored 3: it is scored 2 exactly when the allowance is infinite. An
    infinite allowance is never scored 1: it is scored 3 exactly when the
    spender is not in the registry. *)
Theorem calc_risk_range (allowance_raw balance_raw : Z) (spender : string) :
  1 <= calc_risk allowance_raw balance_raw spender <= 3 /\
  (spender ∈ Dict.keys SAFE_SPENDERS_ETH ->
   calc_risk allowance_raw balance_raw spender <= 2 /\
   (calc_risk allowance_raw balance_raw spender = 2 <->
    INFINITE_THRESHOLD <= allowance_raw)) /\
  (INFINITE_THRESHOLD <= allowance_raw ->
   2 <= calc_risk allowance_raw balance_raw spender /\
   (calc_risk allowance_raw balance_raw spender = 3 <->
    spender ∉ Dict.keys SAFE_SPENDERS_ETH)).
Proof.
  rewrite <- dict_contains_keys.
  risk_cases allowance_raw balance_raw spender;
    intuition (try lia; try discriminate).
Qed.

(** X2. For a given balance and spender the score never goes down when the
    allowance grows. *)
Theorem calc_risk_monotone (a1 a2 balance_raw : Z) (spender : string) :
  a1 <= a2 ->
  calc_risk a1 balance_raw spender <= calc_risk a2 balance_raw spender.
Proof.
  intros Hle. unfold calc_risk, INFINITE_THRESHOLD.
  destruct (Dict.contains SAFE_SPENDERS_ETH spender);
    destruct (Z.leb_spec (2 ^ 255) a1);
    destruct (Z.leb_spec (2 ^ 255) a2);
    destruct (Z.ltb_spec 0 balance_raw);
    destruct (Z.ltb_spec (10 * balance_raw) a1);
    destruct (Z.ltb_spec (10 * balance_raw) a2);
    destruct (Z.ltb_spec balance_raw a1);
    destruct (Z.ltb_spec balance_raw a2);
    cbn [andb orb negb]; lia.
Qed.

(** X3. The rule "allowance above ten times the balance" needs a positive
    balance: with a balance of zero, an allowance below the infinite
    threshold is never scored 3, however large; for a spender outside the
    registry it is scored 2 when positive and 1 when zero. *)
Theorem calc_risk_zero_balance (allowance_raw : Z) (spender : string) :
  0 <= allowance_raw < INFINITE_THRESHOLD ->
  calc_risk allowance_raw 0 spender <= 2 /\
  (spender ∉ Dict.keys SAFE_SPENDERS_ETH ->
   calc_risk allowance_raw 0 spender = (if 0 <? allowance_raw then 2 else 1)).
Proof.
  rewrite <- dict_contains_keys. unfold INFINITE_THRESHOLD at 1.
  intros [Hnn Hfin].
  destruct (Z.ltb_spec 0 allowance_raw);
    risk_cases allowance_raw 0 spender;
    try lia; (split; [lia |]); intros Hout;
    try reflexivity; try lia; exfalso; apply Hout; reflexivity.
Qed.

(** ** Chunker *)

Lemma chunk_next_some (cur end_ step : Z) :
  cur <= end_ ->
  chunk_next cur end_ step
  = Some ((cur, Z.min end_ (cur + step - 1)), cur + step).
Proof.
  intros Hle. unfold chunk_next.
  destruct (Z.leb_spec cur end_); [reflexivity | lia].
Qed.

Lemma chunk_ranges_forever (fuel : nat) : forall cur end_ step : Z,
  cur <= end_ -> step <= 0 -> chunk_ranges fuel cur end_ step = None.
Proof.
  induction fuel as [| fuel IH]; intros cur end_ step Hle Hstep;
    [reflexivity |].
  simpl. rewrite chunk_next_some by assumption.
  rewrite IH by lia. reflexivity.
Qed.

Lemma chunk_take_forever (n : nat) : forall cur end_ step : Z,
  cur <= end_ -> step <= 0 -> length (chunk_take n cur end_ step) = n.
Proof.
  induction n as [| n IH]; intros cur end_ step Hle Hstep; [reflexivity |].
  simpl. rewrite chunk_next_some by assumption.
  simpl. rewrite IH by lia. reflexivity.
Qed.

Lemma scan_chunks_forever (w3 : Web3) (owner : string) (fuel : nat) :
  forall (cur latest step : Z) (pairs : list ((string * string) * Z)),
    cur <= latest -> step <= 0 ->
    scan_chunks fuel w3 owner cur latest step pairs = None \/
    exists e, scan_chunks fuel w3 owner cur latest step pairs = Some (Raise e).
Proof.
  induction fuel as [| fuel IH]; intros cur latest step pairs Hle Hstep;
    [now left |].
  rewrite scan_chunks_step by assumption.
  destruct (eth_get_logs w3 _) as [logs | e]; [| right; now exists e].
  destruct (scan_logs logs pairs) as [pairs' | e]; [| right; now exists e].
  apply IH; lia.
Qed.

(** X4. With a step of zero or less and a range that is not empty the
    generator never ends: it yields a pair at every turn. A scan with such
    a step never returns a mapping: it runs until a query or a log raises,
    and for ever if none does. *)
Theorem chunk_ranges_nonpositive_step (start end_ step : Z) :
  start <= end_ -> step <= 0 ->
  (forall fuel, chunk_ranges fuel start end_ step = None) /\
  (forall n, length (chunk_take n start end_ step) = n) /\
  (forall fuel w3 owner pairs,
     scan_chunks fuel w3 owner start end_ step [] <> Some (Ok pairs)).
Proof.
  intros Hle Hstep. split; [| split].
  - intros fuel. now apply chunk_ranges_forever.
  - intros n. now apply chunk_take_forever.
  - intros fuel w3 owner pairs Heq.
    destruct (scan_chunks_forever w3 owner fuel start end_ step [] Hle Hstep)
      as [Hnone | [e Hraise]]; congruence.
Qed.

Lemma chunk_take_bounds (n : nat) : forall (cur end_ step : Z) (c : Z * Z),
  1 <= step -> c ∈ chunk_take n cur end_ step ->
  cur <= fst c /\ fst c <= snd c /\ snd c <= end_ /\
  snd c - fst c + 1 <= step /\ (fst c - cur) mod step = 0.
Proof.
  induction n as [| n IH]; intros cur end_ step c Hstep Hin;
    [now apply elem_of_nil in Hin |].
  simpl in Hin. unfold chunk_next in Hin.
  destruct (Z.leb_spec cur end_) as [Hle | Hgt];
    [| now apply elem_of_nil in Hin].
  apply elem_of_cons in Hin as [-> | Hin].
  - simpl. rewrite Z.sub_diag, Z.mod_0_l by lia. lia.
  - destruct (IH (cur + step) end_ step c Hstep Hin)
      as (H1 & H2 & H3 & H4 & H5).
    repeat split; try lia.
    replace (fst c - cur) with (fst c - (cur + step) + 1 * step) by lia.
    now rewrite Z.mod_add by lia.
Qed.

(** X5. With a positive step every pair the generator yields lies inside
    the range, is not empty, spans at most [step] blocks and starts a whole
    number of steps after [start]; and a step that covers the whole range
    gives the range itself as the only pair. *)
Theorem chunk_ranges_within (start end_ step : Z) :
  1 <= step ->
  (forall n c, c ∈ chunk_take n start end_ step ->
     start <= fst c /\ fst c <= snd c /\ snd c <= end_ /\
     snd c - fst c + 1 <= step /\ (fst c - start) mod step = 0) /\
  (start <= end_ -> end_ - start + 1 <= step ->
   forall fuel, chunk_ranges (S (S fuel)) start end_ step
                = Some [(start, end_)]).
Proof.
  intros Hstep. split.
  - intros n c. now apply chunk_take_bounds.
  - intros Hle Hcover fuel.
    rewrite chunk_ranges_unfold by assumption.
    rewrite chunk_ranges_empty by lia.
    now rewrite Z.min_l by lia.
Qed.


(** ** Scanner *)

(** X6. A scan whose range is empty (the first block after the last)
    returns the empty mapping whatever the provider would answer, and a
    run whose arguments parse and whose address is accepted reports that
    no approval was found and returns 0. *)
Theorem scan_empty_range `{Tabulate} (world : World)
    (argv : option (list string)) (args : Args) (owner : string)
    (start latest : Z) :
  let w3 := http_provider world (arg_rpc args) in
  parse_args world argv = Parsed args ->
  to_checksum_address (arg_address args) = Ok owner ->
  scan_bounds w3 (arg_from_block args) (arg_to_block args) = Ok (start, latest) ->
  latest < start ->
  forall fuel,
    (forall who : string,
       scan_approvals (S fuel) w3 who (arg_from_block args) (arg_to_block args)
         (arg_step args) = Some (Ok [])) /\
    (forall cid bn,
       is_connected w3 = true ->
       eth_chain_id w3 = Ok cid ->
       eth_block_number w3 = Ok bn ->
       main (S fuel) world argv
       = Some (banner cid bn ++ [no_approvals_message], Returned 0)).
Proof.
  intros w3 Hparse Howner Hbounds Hlt fuel.
  assert (Hscan : forall who : string,
            scan_approvals (S fuel) w3 who (arg_from_block args)
              (arg_to_block args) (arg_step args) = Some (Ok [])).
  { intros who. unfold scan_approvals. rewrite Hbounds.
    now apply scan_chunks_done. }
  split; [exact Hscan |].
  intros cid bn Hconn Hcid Hbn.
  unfold main. rewrite Hparse, Howner. fold w3.
  rewrite Hconn, Hcid, Hbn. cbn [negb mbind result_bind bind].
  rewrite Hscan. reflexivity.
Qed.

(** The loop over the logs of two lists is the loop over the first
    followed by the loop over the second. *)
Lemma scan_logs_app (logs1 logs2 : list Log) :
  forall pairs : list ((string * string) * Z),
    scan_logs (logs1 ++ logs2) pairs
    = match scan_logs logs1 pairs with
      | Ok pairs' => scan_logs logs2 pairs'
      | Raise e => Raise e
      end.
Proof.
  induction logs1 as [| lg logs1 IH]; intros pairs; [reflexivity |].
  simpl. destruct (log_entry lg) as [[k v] | e]; simpl; [apply IH | reflexivity].
Qed.

(** When the queries answer, the chunked loop does what one loop over all
    the logs, in the order of the chunks, does. *)
Lemma scan_chunks_flat (w3 : Web3) (owner : string) (latest step : Z) :
  forall (fuel0 : nat) (cur : Z) (cs : list (Z * Z)) (logss : list (list Log))
         (pairs : list ((string * string) * Z)),
    chunk_ranges fuel0 cur latest step = Some cs ->
    Forall2 (fun c logs =>
               eth_get_logs w3 (scan_filter owner (fst c) (snd c)) = Ok logs)
            cs logss ->
    forall fuel, (fuel0 <= fuel)%nat ->
      scan_chunks fuel w3 owner cur latest step pairs
      = Some (scan_logs (concat logss) pairs).
Proof.
  induction fuel0 as [| fuel0 IH];
    intros cur cs logss pairs Hcs Hlogs fuel Hf; [discriminate |].
  destruct fuel as [| fuel]; [lia |].
  destruct cs as [| c cs'].
  - apply chunk_ranges_nil in Hcs as (f & _ & Hlt).
    apply Forall2_nil_inv_l in Hlogs as ->.
    now apply scan_chunks_done.
  - apply chunk_ranges_cons in Hcs as (f & [= <-] & Hle & -> & Hcs').
    apply Forall2_cons_inv_l in Hlogs as (logs & logss' & Hq & Hlogs & ->).
    simpl in Hq. rewrite scan_chunks_step, Hq by assumption.
    cbn [concat]. rewrite scan_logs_app.
    destruct (scan_logs logs pairs) as [pairs' | e]; [| reflexivity].
    apply (IH (cur + step) cs' logss'); auto. lia.
Qed.

(** A loop over the logs that returns has read them all. *)
Lemma scan_logs_inv (logs : list Log) :
  forall pairs pairs' : list ((string * string) * Z),
    scan_logs logs pairs = Ok pairs' ->
    exists evs : list ((string * string) * Z),
      Forall2 (fun lg ev => log_entry lg = Ok ev) logs evs /\
      pairs' = Dict.update_all pairs evs.
Proof.
  induction logs as [| lg logs IH]; intros pairs pairs'; simpl.
  - intros [= <-]. exists []. split; [constructor | reflexivity].
  - destruct (log_entry lg) as [[k v] |] eqn:Hlg; [| discriminate].
    cbn [mbind result_bind bind]. intros Hrest.
    destruct (IH _ _ Hrest) as (evs & Hevs & ->).
    exists ((k, v) :: evs). split; [now constructor |].
    now rewrite dict_update_all_cons.
Qed.

(** What a log that cannot be read raises. *)
Lemma log_entry_raise (lg : Log) (e : exn) :
  log_entry lg = Raise e -> e = IndexError \/ e = ValueError.
Proof.
  unfold log_entry.
  destruct (to_checksum_address (log_address lg)) as [tok | e1] eqn:Htok;
    cbn [mbind result_bind bind].
  - destruct (log_topics lg !! 2%nat) as [t |]; cbn [mbind result_bind bind].
    + destruct (to_checksum_address ("0x" +:+ last_chars 40 t))
        as [spd | e2] eqn:Hspd; cbn [mbind result_bind bind]; [discriminate |].
      intros [= <-]. right. exact (to_checksum_address_raise _ e2 Hspd).
    + intros [= <-]. now left.
  - intros [= <-]. right. exact (to_checksum_address_raise _ e1 Htok).
Qed.

Lemma log_entry_short (lg : Log) :
  ~ has_spender_topic lg ->
  is_ok (log_entry lg) = false /\
  (is_ok (to_checksum_address (log_address lg)) = true ->
   log_entry lg = Raise IndexError).
Proof.
  unfold has_spender_topic, log_entry. intros Hshort.
  rewrite (lookup_ge_None_2 (log_topics lg) 2) by lia.
  destruct (to_checksum_address (log_address lg)); simpl;
    split; (reflexivity || discriminate).
Qed.

(** The loop over the logs raises what its first unreadable log raises. *)
Lemma scan_logs_first (before after : list Log) (lg : Log) (e : exn) :
  Forall (fun l => is_ok (log_entry l) = true) before ->
  log_entry lg = Raise e ->
  forall pairs, scan_logs (before ++ lg :: after) pairs = Raise e.
Proof.
  intros Hbefore Hlg pairs.
  destruct (decodable_entries before Hbefore) as [evs Hevs].
  rewrite scan_logs_app, (scan_logs_entries before evs pairs Hevs).
  simpl. now rewrite Hlg.
Qed.

Lemma scan_logs_unreadable (logs : list Log) : forall pairs,
  Exists (fun lg => is_ok (log_entry lg) = false) logs ->
  exists e : exn,
    scan_logs logs pairs = Raise e /\ (e = IndexError \/ e = ValueError).
Proof.
  induction logs as [| lg logs IH]; intros pairs Hex;
    [now apply Exists_nil in Hex |].
  simpl. destruct (log_entry lg) as [[k v] | e] eqn:Hlg; simpl.
  - apply Exists_cons in Hex as [Hbad | Hex]; [| now apply IH].
    rewrite Hlg in Hbad. discriminate.
  - exists e. split; [reflexivity | exact (log_entry_raise lg e Hlg)].
Qed.

(** X7. When the queries of a scan answer and one of the logs has fewer
    than three topics, the scan raises and returns no mapping: it raises
    [IndexError] or the [ValueError] of an address that is refused, and
    [IndexError] when the logs before the short one can be read and its
    emitter address is accepted. *)
Theorem scan_short_topics (w3 : Web3) (owner : string)
    (from_block to_block : option Z) (step start latest : Z) (fuel0 : nat)
    (cs : list (Z * Z)) (logss : list (list Log)) (lg : Log) :
  scan_bounds w3 from_block to_block = Ok (start, latest) ->
  chunk_ranges fuel0 start latest step = Some cs ->
  Forall2 (fun c logs =>
             eth_get_logs w3 (scan_filter owner (fst c) (snd c)) = Ok logs)
          cs logss ->
  lg ∈ concat logss ->
  (length (log_topics lg) < 3)%nat ->
  exists e : exn,
    (forall fuel, (fuel0 <= fuel)%nat ->
       scan_approvals fuel w3 owner from_block to_block step
       = Some (Raise e)) /\
    (e = IndexError \/ e = ValueError) /\
    (forall before after : list Log,
       concat logss = before ++ lg :: after ->
       Forall (fun l => is_ok (log_entry l) = true) before ->
       is_ok (to_checksum_address (log_address lg)) = true ->
       e = IndexError).
Proof.
  intros Hbounds Hcs Hlogs Hin Hshort.
  assert (Hnot : ~ has_spender_topic lg) by (unfold has_spender_topic; lia).
  destruct (log_entry_short lg Hnot) as [Hbad Hindex].
  destruct (scan_logs_unreadable (concat logss) []) as (e & He & Hkind).
  { apply Exists_exists. now exists lg. }
  exists e. split; [| split; [exact Hkind |]].
  - intros fuel Hf. unfold scan_approvals. rewrite Hbounds.
    rewrite (scan_chunks_flat w3 owner latest step fuel0 start cs logss []
               Hcs Hlogs fuel Hf).
    now rewrite He.
  - intros before after Hsplit Hbefore Haddr.
    rewrite Hsplit in He.
    rewrite (scan_logs_first before after lg IndexError Hbefore
               (Hindex Haddr) []) in He.
    congruence.
Qed.

Lemma logs_in_range_empty (chain : list Log) (a b : Z) :
  b < a -> logs_in_range chain a b = [].
Proof.
  intros Hlt. unfold logs_in_range.
  induction chain as [| lg chain IH]; [reflexivity |].
  rewrite filter_cons_False by lia. exact IH.
Qed.

Lemma logs_in_range_above (chain : list Log) (a b m : Z) :
  Forall (fun lg => m < log_blockNumber lg) chain ->
  b <= m -> logs_in_range chain a b = [].
Proof.
  intros Hall Hbm. unfold logs_in_range.
  induction Hall as [| lg chain Hlg Hall IH]; [reflexivity |].
  rewrite filter_cons_False by lia. exact IH.
Qed.

(** On a chain in block order the logs of a range are those of its first
    part followed by those of the rest. *)
Lemma logs_in_range_split (chain : list Log) (a m b : Z) :
  block_ordered chain -> a <= m + 1 -> m <= b ->
  logs_in_range chain a b
  = logs_in_range chain a m ++ logs_in_range chain (m + 1) b.
Proof.
  unfold block_ordered. intros Hs Ham Hmb.
  induction chain as [| lg chain IH]; [reflexivity |].
  apply StronglySorted_inv in Hs as [Hs Hall]. specialize (IH Hs).
  unfold logs_in_range in *.
  destruct (decide (a <= log_blockNumber lg <= m)) as [Hlow | Hnlow].
  - rewrite (filter_cons_True _ lg) by lia.
    rewrite (filter_cons_True (fun lg => a <= log_blockNumber lg <= m))
      by exact Hlow.
    rewrite (filter_cons_False (fun lg => m + 1 <= log_blockNumber lg <= b))
      by lia.
    rewrite IH. reflexivity.
  - rewrite (filter_cons_False (fun lg => a <= log_blockNumber lg <= m))
      by exact Hnlow.
    destruct (decide (m + 1 <= log_blockNumber lg <= b)) as [Hhigh | Hnhigh].
    + rewrite (filter_cons_True _ lg) by lia.
      rewrite (filter_cons_True (fun lg => m + 1 <= log_blockNumber lg <= b))
        by exact Hhigh.
      rewrite IH.
      assert (Hnone : filter (fun lg => a <= log_blockNumber lg <= m) chain = []).
      { apply (logs_in_range_above chain a m m); [| lia].
        eapply Forall_impl; [exact Hall |]. simpl. intros y Hy. lia. }
      rewrite Hnone. reflexivity.
    + rewrite (filter_cons_False _ lg) by lia.
      rewrite (filter_cons_False (fun lg => m + 1 <= log_blockNumber lg <= b))
        by exact Hnhigh.
      exact IH.
Qed.

Lemma scan_chunks_served (w3 : Web3) (owner : string) (chain : list Log)
    (latest step : Z) :
  1 <= step -> block_ordered chain -> serves w3 owner chain ->
  forall (n : nat) (cur : Z) (evs pairs : list ((string * string) * Z)),
    (Z.to_nat (latest - cur + 1) <= n)%nat ->
    Forall2 (fun lg ev => log_entry lg = Ok ev)
            (logs_in_range chain cur latest) evs ->
    forall fuel, (n < fuel)%nat ->
      scan_chunks fuel w3 owner cur latest step pairs
      = Some (Ok (Dict.update_all pairs evs)).
Proof.
  intros Hstep Hord Hserves n.
  induction n as [| n IH]; intros cur evs pairs Hn Hdec fuel Hf;
    (destruct fuel as [| fuel]; [lia |]).
  - rewrite logs_in_range_empty in Hdec by lia.
    apply Forall2_nil_inv_l in Hdec as ->.
    apply scan_chunks_done. lia.
  - destruct (Z.lt_ge_cases latest cur) as [Hlt | Hle].
    + rewrite logs_in_range_empty in Hdec by lia.
      apply Forall2_nil_inv_l in Hdec as ->.
      now apply scan_chunks_done.
    + set (m := Z.min latest (cur + step - 1)).
      rewrite (logs_in_range_split chain cur m latest Hord) in Hdec
        by (subst m; lia).
      apply Forall2_app_inv_l in Hdec as (evs1 & evs2 & Hd1 & Hd2 & ->).
      rewrite scan_chunks_step by assumption. fold m.
      rewrite (Hserves cur m).
      rewrite (scan_logs_entries _ evs1 pairs Hd1).
      rewrite dict_update_all_app.
      apply IH; [lia | | lia].
      destruct (Z.le_gt_cases latest (cur + step - 1)) as [Hshort | Hlong].
      * rewrite logs_in_range_empty by lia.
        rewrite logs_in_range_empty in Hd2 by (subst m; lia). exact Hd2.
      * replace (cur + step) with (m + 1) by (subst m; lia). exact Hd2.
Qed.

(** X8. When the provider answers each query with the logs of one chain
    in block order that fall in the range asked, the mapping a scan
    returns is the one obtained by recording the logs of the whole range
    in order: it does not depend on the step, and no log is counted twice
    or missed at a chunk boundary. *)
Theorem scan_step_independent (w3 : Web3) (owner : string)
    (from_block to_block : option Z) (step start latest : Z)
    (chain : list Log) (evs : list ((string * string) * Z)) :
  scan_bounds w3 from_block to_block = Ok (start, latest) ->
  1 <= step ->
  block_ordered chain ->
  serves w3 owner chain ->
  Forall2 (fun lg ev => log_entry lg = Ok ev)
          (logs_in_range chain start latest) evs ->
  forall fuel, (chunk_fuel start latest <= fuel)%nat ->
    scan_approvals fuel w3 owner from_block to_block step
    = Some (Ok (Dict.update_all [] evs)).
Proof.
  intros Hbounds Hstep Hord Hserves Hdec fuel Hf.
  unfold scan_approvals. rewrite Hbounds.
  apply (scan_chunks_served w3 owner chain latest step Hstep Hord Hserves
           (Z.to_nat (latest - start + 1))); [lia | exact Hdec |].
  unfold chunk_fuel in Hf. lia.
Qed.

Lemma int_from_bytes_big_app (bs1 bs2 : list Byte.byte) :
  int_from_bytes_big (bs1 ++ bs2)
  = int_from_bytes_big bs1 * 256 ^ Z.of_nat (length bs2)
    + int_from_bytes_big bs2.
Proof.
  unfold int_from_bytes_big.
  assert (Hgen : forall bs acc,
            fold_left (fun acc b => acc * 256 + Z.of_N (Byte.to_N b)) bs acc
            = acc * 256 ^ Z.of_nat (length bs)
              + fold_left (fun acc b => acc * 256 + Z.of_N (Byte.to_N b)) bs 0).
  { induction bs as [| b bs IH]; intros acc.
    - simpl. lia.
    - cbn [fold_left length]. rewrite IH, (IH (0 * 256 + _)).
      rewrite Nat2Z.inj_succ, Z.pow_succ_r by lia. ring. }
  rewrite fold_left_app. apply Hgen.
Qed.

Lemma int_from_bytes_big_bounds (bs : list Byte.byte) :
  0 <= int_from_bytes_big bs < 256 ^ Z.of_nat (length bs).
Proof.
  induction bs as [| b bs IH] using rev_ind.
  - simpl. unfold int_from_bytes_big. simpl. lia.
  - rewrite int_from_bytes_big_app, length_app.
    cbn [length].
    assert (Hone : int_from_bytes_big [b] = Z.of_N (Byte.to_N b))
      by (unfold int_from_bytes_big; simpl; lia).
    rewrite Hone.
    pose proof (Byte.to_N_bounded b) as Hb.
    replace (Z.of_nat (length bs + 1)) with (Z.succ (Z.of_nat (length bs)))
      by lia.
    rewrite Z.pow_succ_r by lia. change (256 ^ Z.of_nat 1) with 256.
    lia.
Qed.

Lemma dict_set_elem_of {K V : Type} `{EqDecision K}
    (d : list (K * V)) (k k' : K) (v v' : V) :
  (k', v') ∈ Dict.set d k v -> (k', v') = (k, v) \/ (k', v') ∈ d.
Proof.
  induction d as [| [k0 v0] d IH]; simpl.
  - rewrite list_elem_of_singleton. tauto.
  - destruct (decide (k = k0)) as [-> | Hne]; rewrite !elem_of_cons; tauto.
Qed.

Lemma dict_update_all_elem_of {K V : Type} `{EqDecision K}
    (l : list (K * V)) : forall (d : list (K * V)) (kv : K * V),
  kv ∈ Dict.update_all d l -> kv ∈ d \/ kv ∈ l.
Proof.
  induction l as [| [k v] l IH]; intros d [k' v'] Hin; [now left |].
  rewrite dict_update_all_cons in Hin.
  apply IH in Hin as [Hin | Hin]; [| right; apply elem_of_cons; tauto].
  apply dict_set_elem_of in Hin as [-> | Hin]; [| now left].
  right. apply elem_of_cons. now left.
Qed.

(** X9. Every entry of the mapping a scan returns was read from one of the
    logs scanned: its key is the checksummed emitter and spender of that
    log and its value is the big-endian reading of that log's data, which
    is not negative and is below [256 ^ n] for [n] bytes of data, so a
    [uint256] for the 32 bytes of a standard event and 0 for no data. *)
Theorem scan_entries_from_logs (w3 : Web3) (owner : string)
    (from_block to_block : option Z) (step start latest : Z) (fuel : nat)
    (cs : list (Z * Z)) (logss : list (list Log))
    (pairs : list ((string * string) * Z)) :
  scan_bounds w3 from_block to_block = Ok (start, latest) ->
  chunk_ranges fuel start latest step = Some cs ->
  Forall2 (fun c logs =>
             eth_get_logs w3 (scan_filter owner (fst c) (snd c)) = Ok logs)
          cs logss ->
  scan_approvals fuel w3 owner from_block to_block step = Some (Ok pairs) ->
  forall k v, (k, v) ∈ pairs ->
    exists lg : Log,
      lg ∈ concat logss /\
      to_checksum_address (log_address lg) = Ok (fst k) /\
      (exists t : string,
         log_topics lg !! 2%nat = Some t /\
         to_checksum_address ("0x" +:+ last_chars 40 t) = Ok (snd k)) /\
      v = int_from_bytes_big (log_data lg) /\
      0 <= v < 256 ^ Z.of_nat (length (log_data lg)) /\
      (length (log_data lg) = 32%nat -> v < 2 ^ 256) /\
      (log_data lg = [] -> v = 0).
Proof.
  intros Hbounds Hcs Hlogs Hscan k v Hin.
  unfold scan_approvals in Hscan. rewrite Hbounds in Hscan.
  rewrite (scan_chunks_flat w3 owner latest step fuel start cs logss []
             Hcs Hlogs fuel ltac:(lia)) in Hscan.
  injection Hscan as Hscan.
  destruct (scan_logs_inv (concat logss) [] pairs Hscan) as (evs & Hdec & ->).
  apply dict_update_all_elem_of in Hin as [Hin | Hin];
    [now apply elem_of_nil in Hin |].
  apply list_elem_of_lookup in Hin as [i Hi].
  destruct (Forall2_lookup_r _ _ _ _ _ Hdec Hi) as (lg & Hlg & Hentry).
  exists lg. split; [apply list_elem_of_lookup; now exists i |].
  unfold log_entry in Hentry.
  destruct (to_checksum_address (log_address lg)) as [tok |]; [| discriminate].
  cbn [mbind result_bind bind] in Hentry.
  destruct (log_topics lg !! 2%nat) as [t |]; [| discriminate].
  cbn [mbind result_bind bind] in Hentry.
  destruct (to_checksum_address ("0x" +:+ last_chars 40 t)) as [spd |] eqn:Hspd;
    [| discriminate].
  cbn [mbind result_bind bind] in Hentry. injection Hentry as <- <-.
  pose proof (int_from_bytes_big_bounds (log_data lg)) as Hb.
  split; [reflexivity |]. split; [now exists t |].
  split; [reflexivity |]. split; [exact Hb |]. split.
  - intros Hlen. rewrite Hlen in Hb.
    change (256 ^ Z.of_nat 32) with (2 ^ 256) in Hb. lia.
  - intros ->. reflexivity.
Qed.


Lemma length_append (s t : string) :
  String.length (s +:+ t) = (String.length s + String.length t)%nat.
Proof. induction s as [| a s IH]; simpl; [reflexivity | now rewrite IH]. Qed.

Lemma length_lower (s : string) : String.length (lower s) = String.length s.
Proof. induction s as [| a s IH]; simpl; [reflexivity | now rewrite IH]. Qed.

Lemma length_string_repeat (c : ascii) (n : nat) :
  String.length (string_repeat c n) = n.
Proof. induction n as [| n IH]; simpl; [reflexivity | now rewrite IH]. Qed.

Lemma length_substring (s : string) : forall n m : nat,
  (n + m <= String.length s)%nat -> String.length (substring n m s) = m.
Proof.
  induction s as [| a s IH]; intros [| n] [| m] Hle; simpl in *;
    try reflexivity; try lia.
  - rewrite IH by lia. reflexivity.
  - apply IH. lia.
  - apply IH. lia.
Qed.

Lemma substring_skip (s t : string) (n m : nat) :
  substring (String.length s + n) m (s +:+ t) = substring n m t.
Proof. induction s as [| a s IH]; simpl; [reflexivity | exact IH]. Qed.

Lemma substring_whole (s : string) : substring 0 (String.length s) s = s.
Proof. induction s as [| a s IH]; simpl; [reflexivity | now rewrite IH]. Qed.

Lemma substring_prefix (s t : string) :
  substring 0 (String.length s) (s +:+ t) = s.
Proof.
  induction s as [| a s IH]; simpl; [now destruct t | now rewrite IH].
Qed.

(** X10. For an owner address of 42 characters, the topic the scan filters
    on has 66 characters: "0x", 24 zeros, and the 40 characters of the
    address after its "0x" in lower case. The address is padded on the
    left, and reading the last 40 characters of this topic, as the scan
    does to find a spender, gives back the address in lower case. *)
Theorem owner_topic_layout (owner : string) :
  String.length owner = 42%nat ->
  String.length (owner_topic owner) = 66%nat /\
  substring 0 26 (owner_topic owner) = "0x000000000000000000000000"%string /\
  last_chars 40 (owner_topic owner) = lower (drop_chars 2 owner) /\
  String.length (last_chars 40 (owner_topic owner)) = 40%nat.
Proof.
  intros Hlen.
  assert (Hbody : String.length (lower (drop_chars 2 owner)) = 40%nat).
  { rewrite length_lower. unfold drop_chars. rewrite Hlen.
    apply length_substring. lia. }
  set (body := lower (drop_chars 2 owner)) in *.
  assert (Htopic : owner_topic owner
                   = "0x000000000000000000000000" +:+ body) by reflexivity.
  assert (Hlen66 : String.length (owner_topic owner) = 66%nat).
  { rewrite Htopic, length_append, Hbody. reflexivity. }
  assert (Hlast : last_chars 40 (owner_topic owner) = body).
  { unfold last_chars. rewrite Hlen66, Htopic.
    change (66 - 40)%nat
      with (String.length "0x000000000000000000000000" + 0)%nat.
    rewrite substring_skip, <- Hbody. apply substring_whole. }
  split; [exact Hlen66 |]. split; [| split; [exact Hlast |]].
  - rewrite Htopic.
    exact (substring_prefix "0x000000000000000000000000" body).
  - now rewrite Hlast.
Qed.


(** ** Report builder *)

(** The loop of the report adds one row per pair, each the row of its
    pair; the cache only ever holds what the fetcher returns. *)
Lemma build_rows_spec (w3 : Web3) (owner : string) :
  forall (items : list ((string * string) * Z))
         (meta : gmap string (string * Z)) (rows rows' : list AllowanceRow),
    (forall t m, meta !! t = Some m -> get_token_meta w3 t = Ok m) ->
    build_rows w3 owner items meta rows = Ok rows' ->
    exists new : list AllowanceRow,
      rows' = rows ++ new /\
      Forall2 (fun kv r => row_for w3 owner (fst kv) r) items new.
Proof.
  induction items as [| [[tok spd] raw] items IH];
    intros meta rows rows' Hmeta Hrun.
  - simpl in Hrun. injection Hrun as <-. exists [].
    split; [now rewrite app_nil_r | constructor].
  - assert (Hstep : forall meta1,
              (match meta !! tok with
               | Some _ => Ok meta
               | None => get_token_meta w3 tok ≫= (fun m => Ok (<[tok := m]> meta))
               end) = Ok meta1 ->
              exists (sym : string) (dec : Z),
                meta1 !! tok = Some (sym, dec) /\
                (forall t m, meta1 !! t = Some m -> get_token_meta w3 t = Ok m)).
    { intros meta1. destruct (meta !! tok) as [[sym dec] |] eqn:Hm.
      - intros [= <-]. now exists sym, dec.
      - destruct (get_token_meta w3 tok) as [[sym dec] |] eqn:Hget;
          [| discriminate].
        cbn [mbind result_bind bind]. intros [= <-]. exists sym, dec.
        split; [apply lookup_insert_eq |].
        intros t m. rewrite lookup_insert.
        destruct (decide (tok = t)) as [<- | Hne]; [| apply Hmeta].
        now intros [= <-]. }
    cbn [build_rows] in Hrun.
    destruct (match meta !! tok with
              | Some _ => Ok meta
              | None => get_token_meta w3 tok ≫= (fun m => Ok (<[tok := m]> meta))
              end) as [meta' |] eqn:Hfirst; [| discriminate].
    destruct (Hstep meta' eq_refl) as (sym & dec & Hlook & Hmeta').
    cbn [mbind result_bind bind] in Hrun.
    rewrite Hlook in Hrun. cbn [mbind result_bind bind] in Hrun.
    destruct (get_allowance_balance w3 tok owner spd) as [[a b] |] eqn:Hab;
      [| discriminate].
    cbn [mbind result_bind bind] in Hrun.
    destruct (human_amount a dec) as [allow_h |] eqn:Hah; [| discriminate].
    cbn [mbind result_bind bind] in Hrun.
    destruct (human_amount b dec) as [bal_h |] eqn:Hbh; [| discriminate].
    cbn [mbind result_bind bind] in Hrun.
    destruct (IH meta' _ rows' Hmeta' Hrun) as (new & -> & Hnew).
    eexists (_ :: new). split; [now rewrite <- app_assoc |].
    constructor; [| exact Hnew].
    unfold row_for. simpl.
    repeat split; auto.
Qed.

Lemma build_report_inv (w3 : Web3) (owner : string)
    (pairs : list ((string * string) * Z)) (rows : list AllowanceRow) :
  build_report w3 owner pairs = Ok rows ->
  exists unsorted : list AllowanceRow,
    Forall2 (fun kv r => row_for w3 owner (fst kv) r) pairs unsorted /\
    rows = sort_by_key sort_key unsorted.
Proof.
  unfold build_report. intros Hrun.
  destruct (build_rows w3 owner pairs ∅ []) as [unsorted |] eqn:Hrows;
    [| discriminate].
  simpl in Hrun. injection Hrun as <-.
  destruct (build_rows_spec w3 owner pairs ∅ [] unsorted) as (new & -> & Hnew);
    [intros t m; now rewrite lookup_empty | exact Hrows |].
  now exists new.
Qed.

(** X11. Every row of a report is the row of one of the pairs, and every
    pair has its row: the token and spender are those of the pair, symbol
    and decimals are what the metadata fetcher returns for the token (so
    two rows of one token agree on them), the raw amounts are what the
    allowance fetcher returns, the readable amounts are their formatting
    with these decimals, the tag is the registry's label or empty, and the
    risk is the score of the raw amounts. *)
Theorem build_report_rows (w3 : Web3) (owner : string)
    (pairs : list ((string * string) * Z)) (rows : list AllowanceRow) :
  build_report w3 owner pairs = Ok rows ->
  (forall r, r ∈ rows ->
     exists key, key ∈ Dict.keys pairs /\ row_for w3 owner key r) /\
  (forall key, key ∈ Dict.keys pairs ->
     exists r, r ∈ rows /\ row_for w3 owner key r) /\
  Permutation (map row_key rows) (Dict.keys pairs) /\
  (forall r1 r2, r1 ∈ rows -> r2 ∈ rows -> token r1 = token r2 ->
     symbol r1 = symbol r2 /\ decimals r1 = decimals r2).
Proof.
  intros Hrun.
  destruct (build_report_inv w3 owner pairs rows Hrun) as (unsorted & Hrows & ->).
  pose proof (sort_by_key_perm sort_key unsorted) as Hperm.
  assert (Hall : forall r, r ∈ sort_by_key sort_key unsorted ->
            exists key, key ∈ Dict.keys pairs /\ row_for w3 owner key r).
  { intros r Hr. rewrite <- Hperm in Hr.
    apply list_elem_of_lookup in Hr as [i Hi].
    destruct (Forall2_lookup_r _ _ _ _ _ Hrows Hi) as ([key raw] & Hkv & Hrow).
    exists key. split; [| exact Hrow].
    apply list_elem_of_fmap. exists (key, raw).
    split; [reflexivity |]. apply list_elem_of_lookup. now exists i. }
  split; [exact Hall |]. split; [| split].
  - intros key Hkey. apply list_elem_of_fmap in Hkey as ([key' raw] & -> & Hin).
    apply list_elem_of_lookup in Hin as [i Hi].
    destruct (Forall2_lookup_l _ _ _ _ _ Hrows Hi) as (r & Hr & Hrow).
    exists r. split; [| exact Hrow].
    rewrite <- Hperm. apply list_elem_of_lookup. now exists i.
  - rewrite <- Hperm. unfold Dict.keys.
    assert (Heq : map row_key unsorted = map fst pairs).
    { clear -Hrows. induction Hrows as [| [key raw] r pairs rows Hrow _ IH];
        [reflexivity |].
      simpl. rewrite IH. f_equal.
      destruct Hrow as (Ht & Hs & _). unfold row_key.
      simpl in Ht, Hs. rewrite Ht, Hs. now destruct key. }
    now rewrite Heq.
  - intros r1 r2 Hr1 Hr2 Htok.
    destruct (Hall r1 Hr1) as (k1 & _ & _ & _ & Hm1 & _).
    destruct (Hall r2 Hr2) as (k2 & _ & _ & _ & Hm2 & _).
    rewrite Htok, Hm2 in Hm1. now injection Hm1 as -> ->.
Qed.

Lemma build_rows_ignores_raw (w3 : Web3) (owner : string) :
  forall (items items' : list ((string * string) * Z))
         (meta : gmap string (string * Z)) (rows : list AllowanceRow),
    map fst items = map fst items' ->
    build_rows w3 owner items meta rows = build_rows w3 owner items' meta rows.
Proof.
  induction items as [| [[tok spd] raw] items IH];
    intros [| [[tok' spd'] raw'] items'] meta rows Hkeys;
    try discriminate; [reflexivity |].
  simpl in Hkeys. injection Hkeys as <- <- Hkeys.
  cbn [build_rows].
  destruct (match meta !! tok with
            | Some _ => Ok meta
            | None => get_token_meta w3 tok ≫= (fun m => Ok (<[tok := m]> meta))
            end) as [meta' |]; [| reflexivity].
  cbn [mbind result_bind bind].
  destruct (match meta' !! tok with
            | Some m => Ok m | None => Raise KeyError end) as [[sym dec] |];
    [| reflexivity].
  cbn [mbind result_bind bind].
  destruct (get_allowance_balance w3 tok owner spd) as [[a b] |];
    [| reflexivity].
  cbn [mbind result_bind bind].
  destruct (human_amount a dec); [| reflexivity].
  cbn [mbind result_bind bind].
  destruct (human_amount b dec); [| reflexivity].
  cbn [mbind result_bind bind].
  now apply IH.
Qed.

(** X12. The report does not use the value recorded with a pair by the
    scan, only the pair: two mappings with the same keys in the same order
    give the same report. *)
Theorem build_report_ignores_raw (w3 : Web3) (owner : string)
    (pairs pairs' : list ((string * string) * Z)) :
  Dict.keys pairs = Dict.keys pairs' ->
  build_report w3 owner pairs = build_report w3 owner pairs'.
Proof.
  intros Hkeys. unfold build_report.
  now rewrite (build_rows_ignores_raw w3 owner pairs pairs' ∅ [] Hkeys).
Qed.

Lemma StronglySorted_app_elem_of {A : Type} (R : A -> A -> Prop)
    (l1 l2 : list A) (x y : A) :
  StronglySorted R (l1 ++ l2) -> x ∈ l1 -> y ∈ l2 -> R x y.
Proof.
  intros Hs Hx Hy.
  apply list_elem_of_lookup in Hx as [i Hi].
  apply list_elem_of_lookup in Hy as [j Hj].
  apply (StronglySorted_lookup R (l1 ++ l2) i (length l1 + j)); auto.
  - rewrite lookup_app_l; [exact Hi |]. now apply lookup_lt_Some in Hi.
  - rewrite lookup_app_r by lia.
    now replace (length l1 + j - length l1)%nat with j by lia.
  - apply lookup_lt_Some in Hi. lia.
Qed.

(** X13. Truncating a report to its top rows keeps a prefix of it, so the
    rows kept are those of highest risk: every row kept may stand before
    every row cut. With [top >= 0] at most [top] rows are kept, all of
    them when there are no more than [top]; a negative [top] cuts that
    many rows from the end. *)
Theorem slice_to_keeps_top (w3 : Web3) (owner : string)
    (pairs : list ((string * string) * Z)) (rows : list AllowanceRow)
    (top : Z) :
  build_report w3 owner pairs = Ok rows ->
  exists cut : list AllowanceRow,
    rows = slice_to top rows ++ cut /\
    (forall r r', r ∈ slice_to top rows -> r' ∈ cut -> row_before r r') /\
    (0 <= top ->
     Z.of_nat (length (slice_to top rows)) = Z.min top (Z.of_nat (length rows))) /\
    (top < 0 ->
     Z.of_nat (length (slice_to top rows))
     = Z.max 0 (Z.of_nat (length rows) + top)).
Proof.
  intros Hrun.
  destruct (build_report_inv w3 owner pairs rows Hrun) as (unsorted & _ & ->).
  set (rows := sort_by_key sort_key unsorted).
  assert (Hs : StronglySorted row_before rows).
  { apply (StronglySorted_weaken (key_le sort_key));
      [| apply sort_by_key_sorted].
    intros r1 r2. apply key_le_row_before. }
  assert (Hk : exists k : nat, slice_to top rows = take k rows /\
            (0 <= top -> k = Z.to_nat top) /\
            (top < 0 -> k = (length rows - Z.to_nat (- top))%nat)).
  { unfold slice_to. destruct (Z.leb_spec 0 top).
    - exists (Z.to_nat top). repeat split; auto; lia.
    - exists (length rows - Z.to_nat (- top))%nat. repeat split; auto; lia. }
  destruct Hk as (k & Hk & Hpos & Hneg).
  exists (drop k rows). rewrite Hk.
  split; [now rewrite take_drop |]. split; [| split].
  - intros r r' Hr Hr'.
    apply (StronglySorted_app_elem_of row_before (take k rows) (drop k rows));
      auto.
    now rewrite take_drop.
  - intros Htop. rewrite length_take, (Hpos Htop). lia.
  - intros Htop. rewrite length_take, (Hneg Htop). lia.
Qed.

Lemma registry_tag_listed (spd : string) :
  default ""%string (Dict.get SAFE_SPENDERS_ETH spd) <> ""%string ->
  Dict.contains SAFE_SPENDERS_ETH spd = true.
Proof.
  unfold Dict.contains.
  destruct (Dict.get SAFE_SPENDERS_ETH spd); [reflexivity | simpl; congruence].
Qed.

(** X14. In the table of a report the first cell of a line is "★" exactly
    for risk 3, "•" exactly for risk 2 and empty exactly for risk 1; a
    line whose allowance is infinite is never left unmarked; and a line
    whose spender carries a label of the registry is never marked "★". *)
Theorem table_markers (w3 : Web3) (owner : string)
    (pairs : list ((string * string) * Z)) (rows : list AllowanceRow)
    (r : AllowanceRow) :
  build_report w3 owner pairs = Ok rows ->
  r ∈ rows ->
  (marker r = Some (CStr "★") <-> risk r = 3) /\
  (marker r = Some (CStr "•") <-> risk r = 2) /\
  (marker r = Some (CStr "") <-> risk r = 1) /\
  (INFINITE_THRESHOLD <= allowance_raw r -> marker r <> Some (CStr "")) /\
  (spender_tag r <> ""%string -> marker r <> Some (CStr "★")).
Proof.
  intros Hrun Hr.
  destruct (build_report_inv w3 owner pairs rows Hrun) as (unsorted & Hrows & ->).
  rewrite <- (sort_by_key_perm sort_key unsorted) in Hr.
  apply list_elem_of_lookup in Hr as [i Hi].
  destruct (Forall2_lookup_r _ _ _ _ _ Hrows Hi)
    as (kv & _ & _ & _ & _ & _ & _ & _ & Htag & Hrisk).
  assert (Hrange : 1 <= risk r <= 3).
  { rewrite Hrisk.
    risk_cases (allowance_raw r) (balance_raw r) (spender r); lia. }
  assert (Hinf : INFINITE_THRESHOLD <= allowance_raw r -> 2 <= risk r).
  { unfold INFINITE_THRESHOLD. intros Hge. rewrite Hrisk.
    risk_cases (allowance_raw r) (balance_raw r) (spender r); lia. }
  assert (Hlab : spender_tag r <> ""%string -> risk r <= 2).
  { intros Hne. rewrite Htag in Hne. apply registry_tag_listed in Hne.
    rewrite Hrisk.
    risk_cases (allowance_raw r) (balance_raw r) (spender r);
      try discriminate; lia. }
  unfold marker, table_line. cbn [lookup list_lookup].
  destruct (Z.leb_spec 3 (risk r)); [| destruct (Z.eqb_spec (risk r) 2)];
    (split; [split; intros Hm; try reflexivity; try lia; discriminate Hm |]);
    (split; [split; intros Hm; try reflexivity; try lia; discriminate Hm |]);
    (split; [split; intros Hm; try reflexivity; try lia; discriminate Hm |]);
    (split; [intros Hge Hm; try discriminate Hm; specialize (Hinf Hge); lia
            | intros Hne Hm; try discriminate Hm; specialize (Hlab Hne); lia]).
Qed.


(** ** Amounts *)

(** A quotient below [2^60] fits a float. *)
Lemma true_divide_bounded (n d : Z) :
  0 < n -> 0 < d -> n <= d * 2 ^ 60 -> exists x : float, true_divide n d = Ok x.
Proof.
  intros Hn Hd Hquot. unfold true_divide.
  destruct (Z.eqb_spec d 0); [lia |].
  rewrite (Z.abs_eq n), (Z.abs_eq d) by lia.
  destruct (Z.eqb_spec n 0); [lia |].
  cbv zeta.
  pose proof (log2_quot_lower n d Hn Hd) as Hlow.
  set (k := log2_quot n d) in *.
  set (e := Z.max (k - 52) (-1074)).
  match goal with
  | |- context [if (0 <? ?m0) && _ then _ else _] => set (m := m0)
  end.
  assert (Hfits : 0 < m -> Z.log2 m + e < 1024).
  { intros Hm. subst m. destruct (Z.leb_spec 0 e) as [He | He].
    - assert (Hp : 0 < 2 ^ e) by (apply Z.pow_pos_nonneg; lia).
      destruct (div_half_even_spec n (d * 2 ^ e) ltac:(lia) ltac:(nia))
        as [_ Hspec].
      set (m := div_half_even n (d * 2 ^ e)) in *.
      specialize (Hlow (e + 52) 0 ltac:(lia) ltac:(lia) ltac:(subst e; lia)).
      rewrite Z.pow_add_r in Hlow by lia. change (2 ^ 0) with 1 in Hlow.
      assert (Hme : m * 2 ^ e < 2 ^ 62).
      { change (2 ^ 62) with (4 * 2 ^ 60).
        change (2 ^ 52) with 4503599627370496 in Hlow.
        assert (m * (d * 2 ^ e) < d * (4 * 2 ^ 60)) by nia.
        nia. }
      replace (Z.log2 m + e) with (Z.log2 (m * 2 ^ e))
        by (rewrite Z.log2_mul_pow2 by lia; lia).
      apply Z.log2_lt_pow2 in Hme; [lia | nia].
    - assert (Hp : 0 < 2 ^ (- e)) by (apply Z.pow_pos_nonneg; lia).
      destruct (div_half_even_spec (n * 2 ^ (- e)) d ltac:(nia) Hd)
        as [_ Hspec].
      set (m := div_half_even (n * 2 ^ (- e)) d) in *.
      assert (Hmb : m < 2 ^ (62 - e)).
      { replace (62 - e) with (62 + - e) by lia.
        rewrite Z.pow_add_r by lia.
        change (2 ^ 62) with (4 * 2 ^ 60).
        assert (m * d <= d * (2 ^ 60 * 2 ^ (- e)) + d) by nia.
        assert (m <= 2 ^ 60 * 2 ^ (- e) + 1) by nia.
        nia. }
      apply Z.log2_lt_pow2 in Hmb; lia. }
  destruct (Z.ltb_spec 0 m) as [Hm | Hm]; simpl; [| eauto].
  destruct (Z.leb_spec 1024 (Z.log2 m + e)); [| eauto].
  specialize (Hfits Hm). lia.
Qed.

(** X15. An amount that has at most 8 decimals and is below [2^52 * 10^-8]
    (about 45 million units) is printed exactly: when
    [value / 10^decimals = q / 10^8], the result is [q / 10^8] written in
    the shortest way; the rounding of the float division does not show. *)
Theorem human_amount_exact (value decimals q : Z) :
  0 < decimals ->
  0 <= q < 2 ^ 52 ->
  value * 10 ^ 8 = q * 10 ^ decimals ->
  human_amount value decimals = Ok (fixed8 q).
Proof.
  intros Hdec [Hq0 Hq52] Hexact.
  assert (HD : 0 < 10 ^ decimals) by (apply Z.pow_pos_nonneg; lia).
  set (D := 10 ^ decimals) in *.
  change (10 ^ 8) with 100000000 in Hexact.
  change (2 ^ 52) with 4503599627370496 in Hq52.
  assert (Hv0 : 0 <= value) by nia.
  destruct (Z.eq_dec value 0) as [-> | Hnz].
  - assert (q = 0) by nia. subst q. now apply human_amount_zero.
  - assert (Hv : 0 < value) by lia.
    destruct (true_divide_bounded value D Hv HD) as [x Hx].
    { change (2 ^ 60) with 1152921504606846976. nia. }
    destruct (human_amount_ok value decimals x Hdec Hv Hx) as (-> & Hs0 & _).
    pose proof (scaled_accuracy_sharp value D x Hv HD Hx) as Hacc.
    fold D in Hs0. set (s := scaled_1e8 x) in *.
    change (10 ^ 8) with 100000000 in Hacc. rewrite Hexact in Hacc.
    replace (s * D - q * D) with ((s - q) * D) in Hacc by ring.
    rewrite Z.abs_mul, (Z.abs_eq D) in Hacc by lia.
    change (2 ^ 54) with 18014398509481984 in Hacc.
    change (2 ^ 53) with 9007199254740992 in Hacc.
    assert (Hsq : Z.abs (s - q) < 1) by nia.
    replace s with q by lia. reflexivity.
Qed.

(** X16. An amount of at most a quarter of [10^-8] is printed "0": a raw
    value that is not zero can be shown as zero. *)
Theorem human_amount_dust (value decimals : Z) :
  0 < decimals ->
  0 <= value ->
  4 * (value * 10 ^ 8) <= 10 ^ decimals ->
  human_amount value decimals = Ok "0"%string.
Proof.
  intros Hdec Hv0 Hsmall.
  assert (HD : 0 < 10 ^ decimals) by (apply Z.pow_pos_nonneg; lia).
  set (D := 10 ^ decimals) in *.
  change (10 ^ 8) with 100000000 in Hsmall.
  destruct (Z.eq_dec value 0) as [-> | Hnz].
  - now rewrite human_amount_zero.
  - assert (Hv : 0 < value) by lia.
    destruct (true_divide_bounded value D Hv HD) as [x Hx].
    { change (2 ^ 60) with 1152921504606846976. nia. }
    destruct (human_amount_ok value decimals x Hdec Hv Hx) as (-> & Hs0 & _).
    pose proof (scaled_accuracy_sharp value D x Hv HD Hx) as Hacc.
    fold D in Hs0. set (s := scaled_1e8 x) in *.
    change (10 ^ 8) with 100000000 in Hacc.
    change (2 ^ 54) with 18014398509481984 in Hacc.
    change (2 ^ 53) with 9007199254740992 in Hacc.
    assert (Hs : s = 0).
    { destruct (Z.eq_dec s 0) as [Hz | Hnz0]; [exact Hz |].
      exfalso. assert (Hs1 : 1 <= s) by lia.
      rewrite Z.abs_eq in Hacc by nia. nia. }
    rewrite Hs. reflexivity.
Qed.


(** ** Command line *)







(** ** Table *)

Ltac plain_char := unfold is_plain; apply Nat.ltb_lt; vm_compute; reflexivity.

Lemma string_of_uint_plain (d : Decimal.uint) :
  all_chars is_plain (NilEmpty.string_of_uint d).
Proof.
  induction d; simpl; repeat split; try assumption;
    plain_char.
Qed.

Lemma str_plain (n : Z) : all_chars is_plain (str n).
Proof.
  unfold str.
  assert (Hu : forall d, all_chars is_plain (NilZero.string_of_uint d)).
  { intros d. unfold NilZero.string_of_uint.
    pose proof (string_of_uint_plain d) as Hd.
    destruct d; try exact Hd. simpl. split; [| exact I].
    plain_char. }
  destruct (Z.to_int n) as [d | d]; simpl; [apply Hu |].
  split; [plain_char | apply Hu].
Qed.

Lemma is_digit_plain (a : ascii) : is_digit a -> is_plain a.
Proof.
  intros (d & Hd & ->). unfold is_plain, digit_char.
  rewrite nat_ascii_embedding; lia.
Qed.

(** What [human_amount] returns is made of ASCII characters. *)
Lemma human_amount_plain (value decimals : Z) (s : string) :
  human_amount value decimals = Ok s -> all_chars is_plain s.
Proof.
  unfold human_amount. destruct (decimals <=? 0).
  - intros [= <-]. apply str_plain.
  - destruct (true_divide value (10 ^ decimals)) as [x |]; [| discriminate].
    simpl. intros [= <-]. do 2 apply rstrip_chars.
    unfold format_8f. apply all_chars_app. split.
    + destruct (fsign x); simpl; [split; [| exact I] | exact I].
      plain_char.
    + apply all_chars_app. split; [apply str_plain |].
      apply all_chars_app. split.
      * simpl. split; [| exact I]. plain_char.
      * eapply all_chars_impl; [| apply zfill_digits].
        apply is_digit_plain.
Qed.

Lemma ends_with_plain (s : string) :
  all_chars is_plain s -> ends_with "∞" s = false.
Proof.
  induction s as [| a s IH]; [reflexivity |].
  intros [Ha Hs].
  change (ends_with "∞" (String a s))
    with (String.eqb "∞" (String a s) || ends_with "∞" s).
  rewrite (IH Hs), orb_false_r.
  apply String.eqb_neq. intros [= Heq _].
  subst a. unfold is_plain in Ha. apply Nat.ltb_lt in Ha.
  vm_compute in Ha. discriminate.
Qed.

Lemma append_empty_r (s : string) : s +:+ "" = s.
Proof.
  induction s as [| a s IH]; [reflexivity |].
  change (String a (s +:+ "") = String a s). now rewrite IH.
Qed.

(** X19. In the table of a report the ALLOW cell ends with "∞" exactly
    when the raw allowance is at or above the infinite threshold; below
    it, and for every row when the highlight is off, the cell is the
    readable allowance as it is. Every line has one cell per header. *)
Theorem table_infinite_marker_iff (w3 : Web3) (owner : string)
    (pairs : list ((string * string) * Z)) (rows : list AllowanceRow)
    (r : AllowanceRow) :
  build_report w3 owner pairs = Ok rows ->
  r ∈ rows ->
  (exists c : string,
     allow_cell true r = Some (CStr c) /\
     (ends_with "∞" c = true <-> INFINITE_THRESHOLD <= allowance_raw r)) /\
  (allowance_raw r < INFINITE_THRESHOLD ->
   allow_cell true r = Some (CStr (allowance r))) /\
  allow_cell false r = Some (CStr (allowance r)) /\
  (forall h, length (table_line h r) = length table_headers).
Proof.
  intros Hrun Hr.
  destruct (build_report_inv w3 owner pairs rows Hrun) as (unsorted & Hrows & ->).
  rewrite <- (sort_by_key_perm sort_key unsorted) in Hr.
  apply list_elem_of_lookup in Hr as [i Hi].
  destruct (Forall2_lookup_r _ _ _ _ _ Hrows Hi)
    as (kv & _ & _ & _ & _ & _ & Hallow & _).
  apply human_amount_plain, ends_with_plain in Hallow.
  unfold allow_cell, table_line. cbn [lookup list_lookup].
  rewrite andb_false_r, append_empty_r.
  destruct (Z.leb_spec INFINITE_THRESHOLD (allowance_raw r)) as [Hinf | Hfin];
    cbn [andb].
  - split; [| split; [intros; lia | split; [reflexivity | reflexivity]]].
    eexists. split; [reflexivity |].
    split; [intros _; exact Hinf | intros _].
    now apply ends_with_app.
  - rewrite append_empty_r.
    split; [| split; [reflexivity | split; [reflexivity | reflexivity]]].
    eexists. split; [reflexivity |].
    rewrite Hallow. split; [discriminate | lia].
Qed.

(** ** Scanner: the default window *)

Lemma ceil_div_mono (n1 n2 d : Z) :
  0 < d -> n1 <= n2 -> ceil_div n1 d <= ceil_div n2 d.
Proof.
  intros Hd Hle. unfold ceil_div. apply Z.div_le_mono; lia.
Qed.

Lemma chunk_take_le_ranges (latest step : Z) (m : nat) :
  forall (f : nat) (cur : Z) (cs : list (Z * Z)),
    chunk_ranges f cur latest step = Some cs ->
    (length (chunk_take m cur latest step) <= length cs)%nat.
Proof.
  induction m as [| m IH]; intros f cur cs Hcs; [simpl; lia |].
  destruct f as [| f]; [discriminate |].
  simpl in *.
  destruct (chunk_next cur latest step) as [[c cur'] |]; [| simpl; lia].
  destruct (chunk_ranges f cur' latest step) as [cs' |] eqn:Hcs';
    [| discriminate].
  injection Hcs as <-. simpl. specialize (IH f cur' cs' Hcs'). lia.
Qed.

(** X20. Without [--from-block] a scan starts 200000 blocks before its
    last block, or at block 0 on a shorter chain, so it covers at most
    200001 blocks and, with a positive step, makes at most
    [ceil(200001 / step)] log queries: 67 with the default step of
    3000. *)
Theorem scan_default_window (w3 : Web3) (to_block : option Z)
    (start latest step : Z) :
  scan_bounds w3 None to_block = Ok (start, latest) ->
  1 <= step ->
  start = Z.max (latest - 200000) 0 /\
  latest - start + 1 <= 200001 /\
  (forall n, Z.of_nat (length (chunk_take n start latest step))
             <= ceil_div 200001 step) /\
  ceil_div 200001 3000 = 67.
Proof.
  intros Hbounds Hstep.
  assert (Hstart : start = Z.max (latest - 200000) 0).
  { unfold scan_bounds in Hbounds.
    destruct (match to_block with
              | Some b => Ok b | None => eth_block_number w3 end);
      simpl in Hbounds; [| discriminate].
    now injection Hbounds as <- <-. }
  split; [exact Hstart |]. split; [lia |]. split; [| reflexivity].
  intros n.
  destruct (chunk_ranges_run (Z.to_nat (latest - start + 1)) start latest step
              Hstep ltac:(lia)) as (cs & Hrun & _ & _ & _ & _ & _ & Hlen).
  assert (Htake : forall m, (length (chunk_take m start latest step)
                             <= length cs)%nat).
  { intros m.
    apply (chunk_take_le_ranges latest step m
             (S (Z.to_nat (latest - start + 1)))).
    apply Hrun. lia. }
  specialize (Htake n).
  transitivity (Z.of_nat (length cs)); [lia |].
  rewrite Hlen. apply ceil_div_mono; lia.
Qed.

End Properties.

(** * Concrete runs *)


(** C8, as it was stated, fails on [row_max]: its allowance is above the
    threshold and the entry of its SPENDER column is the bare address. *)
Lemma print_table_spender_marker_counterexample :
  ~ (INFINITE_THRESHOLD <= allowance_raw row_max ->
     exists c : string,
       table_line true row_max !! 3%nat = Some (CStr c) /\
       ends_with "∞" c = true).
Proof.
  intros Hclaim.
  destruct Hclaim as (c & Hcell & Hend); [vm_compute; discriminate |].
  vm_compute in Hcell. injection Hcell as <-.
  vm_compute in Hend. discriminate.
Qed.

(** C9, as it was stated, fails on the value 0: with 18 decimals it is
    printed "0", which is the raw integer. *)
Lemma human_amount_zero_counterexample :
  ~ (0 < 18 -> human_amount 0 18 <> Ok (str 0)).
Proof. intros Hclaim. apply Hclaim; [lia | reflexivity]. Qed.

(** ** The fixtures *)






(** ** The theorems at concrete inputs *)

(** The risk scorer on an unlisted spender with allowance 150 and balance
    100. *)
Lemma calc_risk_spec_witness :
  (demo_spender ∉ Dict.keys (SAFE_SPENDERS_ETH (H := plain_lib))) /\
  calc_risk (H := plain_lib) 150 100 demo_spender = 2.
Proof.
  assert (Hout : demo_spender ∉ Dict.keys (SAFE_SPENDERS_ETH (H := plain_lib))).
  { apply (bool_decide_eq_false_1 _). vm_compute. reflexivity. }
  split; [exact Hout |].
  destruct (calc_risk_spec (H := plain_lib) 150 100 demo_spender)
    as (_ & _ & Hmed & _).
  apply Hmed.
  - intros [[Hinf _] | (_ & Hbig & _)]; [| lia].
    vm_compute in Hinf. now apply Hinf.
  - left. split; [lia | exact Hout].
Defined.

(** Blocks 0..9 in chunks of 4. *)
Lemma chunk_ranges_spec_witness :
  0 <= 9 /\ 1 <= 4 /\
  exists cs : list (Z * Z),
    (forall fuel, (chunk_fuel 0 9 <= fuel)%nat ->
                  chunk_ranges fuel 0 9 4 = Some cs) /\
    flat_map blocks cs = blocks (0, 9) /\
    contiguous cs /\
    Forall (fun c => 1 <= chunk_size c <= 4) cs /\
    full_but_last 4 cs /\
    Z.of_nat (length cs) = ceil_div (9 - 0 + 1) 4 /\
    (ceil_div (9 - 0 + 1) 4 - 1) * 4 < 9 - 0 + 1 <= ceil_div (9 - 0 + 1) 4 * 4.
Proof.
  split; [lia |]. split; [lia |].
  apply (proj2 (chunk_ranges_spec 0 9 4)); lia.
Defined.


(** A scan of blocks 0..19 in two chunks whose second query fails: the
    run ends on the exception of that query. *)
Lemma scan_chunk_failure_fatal_witness :
  parse_args (world_of demo_args failing_w3) None = Parsed demo_args /\
  to_checksum_address (H := plain_lib) (arg_address demo_args) = Ok demo_owner /\
  scan_bounds failing_w3 (arg_from_block demo_args) (arg_to_block demo_args)
    = Ok (0, 19) /\
  (10, 19) ∈ chunk_take 2 0 19 (arg_step demo_args) /\
  eth_get_logs failing_w3 (scan_filter (H := plain_lib) demo_owner 10 19)
    = Raise (RpcError "query returned more than 10000 results") /\
  chunk_take 2 0 19 (arg_step demo_args) = [(0, 9)] ++ [(10, 19)] /\
  Forall (chunk_read (H := plain_lib) failing_w3 demo_owner) [(0, 9)] /\
  forall fuel, (2 <= fuel)%nat ->
    scan_approvals (H := plain_lib) fuel failing_w3 demo_owner
      (arg_from_block demo_args) (arg_to_block demo_args)
      (arg_step demo_args)
    = Some (Raise (RpcError "query returned more than 10000 results")) /\
    main (H := plain_lib) (H0 := plain_tabulate) fuel
      (world_of demo_args failing_w3) None
    = Some (banner 1 19,
            Uncaught (RpcError "query returned more than 10000 results")).
Proof.
  assert (Hin : (10, 19) ∈ chunk_take 2 0 19 (arg_step demo_args))
    by (vm_compute; repeat constructor).
  assert (Hread : Forall (chunk_read (H := plain_lib) failing_w3 demo_owner)
                         [(0, 9)]).
  { constructor; [| constructor].
    exists [demo_log_early]. split; [reflexivity |].
    constructor; [vm_compute; reflexivity | constructor]. }
  split; [reflexivity |]. split; [reflexivity |]. split; [reflexivity |].
  split; [exact Hin |]. split; [reflexivity |]. split; [reflexivity |].
  split; [exact Hread |].
  destruct (scan_chunk_failure_fatal (H := plain_lib) (H0 := plain_tabulate)
              (world_of demo_args failing_w3) None demo_args demo_owner
              0 19 2 (10, 19)
              (RpcError "query returned more than 10000 results")
              eq_refl eq_refl eq_refl Hin eq_refl)
    as (e & He & Hfirst).
  rewrite (Hfirst [(0, 9)] eq_refl Hread) in He.
  intros fuel Hf. destruct (He fuel Hf) as [Hscan Hmain].
  split; [exact Hscan |]. exact (Hmain 1 19 eq_refl eq_refl eq_refl).
Defined.

(** A scan asked to start at block -5. *)
Lemma scan_from_block_clamped_witness :
  -5 < 0 /\
  (forall fuel,
     scan_approvals (H := plain_lib) fuel demo_w3 demo_owner (Some (-5)) None 10 =
     scan_approvals (H := plain_lib) fuel demo_w3 demo_owner (Some 0) None 10) /\
  (forall start latest,
     scan_bounds demo_w3 (Some (-5)) None = Ok (start, latest) ->
     start = 0 /\
     forall fuel c cs,
       chunk_ranges fuel start latest 10 = Some (c :: cs) -> fst c = 0).
Proof.
  split; [lia |].
  apply (scan_from_block_clamped (H := plain_lib) demo_w3 demo_owner (-5) None 10).
  lia.
Defined.

(** Two approvals of one pair, at blocks 3 and 12, in two chunks: the
    mapping holds the later value, 7. *)
Lemma scan_approvals_last_write_wins_witness :
  scan_bounds demo_w3 (Some 0) None = Ok (0, 19) /\
  chunk_ranges 3 0 19 10 = Some [(0, 9); (10, 19)] /\
  Forall2 (fun c logs =>
             eth_get_logs demo_w3
               (scan_filter (H := plain_lib) demo_owner (fst c) (snd c)) = Ok logs)
          [(0, 9); (10, 19)] [[demo_log_early]; [demo_log_late]] /\
  Forall2 (fun lg ev => log_entry (H := plain_lib) lg = Ok ev)
          (concat [[demo_log_early]; [demo_log_late]])
          [(demo_key, 5); (demo_key, 7)] /\
  exists pairs : list ((string * string) * Z),
    (forall fuel, (3 <= fuel)%nat ->
       scan_approvals (H := plain_lib) fuel demo_w3 demo_owner (Some 0) None 10
       = Some (Ok pairs)) /\
    NoDup (Dict.keys pairs) /\
    Dict.get pairs demo_key = Some 7 /\
    filter (fun kv => fst kv = demo_key) pairs = [(demo_key, 7)].
Proof.
  assert (Hq : Forall2 (fun c logs =>
             eth_get_logs demo_w3
               (scan_filter (H := plain_lib) demo_owner (fst c) (snd c)) = Ok logs)
          [(0, 9); (10, 19)] [[demo_log_early]; [demo_log_late]])
    by (repeat constructor).
  assert (Hd : Forall2 (fun lg ev => log_entry (H := plain_lib) lg = Ok ev)
          (concat [[demo_log_early]; [demo_log_late]])
          [(demo_key, 5); (demo_key, 7)])
    by (repeat constructor).
  split; [reflexivity |]. split; [reflexivity |].
  split; [exact Hq |]. split; [exact Hd |].
  destruct (scan_approvals_last_write_wins (H := plain_lib) demo_w3 demo_owner
              (Some 0) None 10 0 19 3 [(0, 9); (10, 19)]
              [[demo_log_early]; [demo_log_late]]
              [(demo_key, 5); (demo_key, 7)] eq_refl eq_refl Hq Hd)
    as (pairs & Hrun & Hnd & _ & Hlast & _).
  exists pairs. split; [exact Hrun |]. split; [exact Hnd |].
  apply (Hlast demo_key 5 7 [] [] []); [reflexivity |].
  apply not_elem_of_nil.
Defined.

(** Five rows of risks 1, 3, 2, 3, 3. *)
Lemma build_report_sorted_witness :
  Permutation demo_rows (sort_by_key sort_key demo_rows) /\
  StronglySorted row_before (sort_by_key sort_key demo_rows) /\
  (filter (fun r => risk r = 3 /\ allowance_raw r = 1100)
          (sort_by_key sort_key demo_rows) =
   filter (fun r => risk r = 3 /\ allowance_raw r = 1100) demo_rows).
Proof.
  destruct (build_report_sorted (H := plain_lib) demo_rows)
    as (_ & Hperm & Hsorted & _ & Hstable).
  split; [exact Hperm |]. split; [exact Hsorted |]. apply Hstable.
Defined.

(** A debt of 1.5 units of a token of 6 decimals. *)
Lemma human_amount_spec_witness :
  0 < 6 /\ Z.abs (-1500000) < 2 ^ 256 /\
  human_amount (-1500000) 6 = Ok "-1.5"%string /\
  is_ok (human_amount (-1500000) 6) = true /\
  exists q : Z,
    0 <= q /\
    "-1.5"%string = "-" +:+ fixed8 q /\
    Z.abs (q * 10 ^ 6 - Z.abs (-1500000) * 10 ^ 8) * 2 ^ 54
      <= 10 ^ 6 * (2 ^ 53 + 1) + 2 * (Z.abs (-1500000) * 10 ^ 8).
Proof.
  assert (Hsmall : Z.abs (-1500000) < 2 ^ 256) by (vm_compute; reflexivity).
  assert (Hrun : human_amount (-1500000) 6 = Ok "-1.5"%string)
    by (vm_compute; reflexivity).
  destruct (proj1 (proj2 (human_amount_spec (-1500000) 6)) ltac:(lia))
    as (Hok & _ & Hshape).
  split; [lia |]. split; [exact Hsmall |]. split; [exact Hrun |].
  split; [exact (Hok Hsmall) |]. exact (Hshape "-1.5"%string Hrun).
Defined.

(** 5 raw units of a token of 18 decimals, owned or owed, are not printed
    as "5" or "-5". *)
Lemma human_amount_not_raw_witness :
  0 < 18 /\
  human_amount 5 18 <> Ok (str 5) /\
  human_amount (-5) 18 <> Ok (str (-5)) /\
  human_amount 0 18 = Ok (str 0).
Proof.
  split; [lia |]. split; [| split].
  - intros Hraw.
    pose proof (proj1 (human_amount_not_raw 5 18 ltac:(lia)) Hraw). lia.
  - intros Hraw.
    pose proof (proj1 (human_amount_not_raw (-5) 18 ltac:(lia)) Hraw). lia.
  - exact (proj2 (human_amount_not_raw 0 18 ltac:(lia)) eq_refl).
Defined.

(** The table line of [row_max]. *)
Lemma print_table_infinite_marker_witness :
  INFINITE_THRESHOLD <= allowance_raw row_max /\
  table_headers !! 5%nat = Some "ALLOW"%string /\
  table_line true row_max !! 5%nat = Some (CStr (allowance row_max +:+ " ∞")) /\
  ends_with "∞" (allowance row_max +:+ " ∞") = true /\
  table_headers !! 3%nat = Some "SPENDER"%string /\
  table_line true row_max !! 3%nat =
    Some (CStr (spender row_max +:+
                (if String.eqb (spender_tag row_max) ""
                 then ""%string
                 else " (" +:+ spender_tag row_max +:+ ")"))).
Proof.
  assert (Hinf : INFINITE_THRESHOLD <= allowance_raw row_max)
    by (vm_compute; discriminate).
  split; [exact Hinf |]. exact (print_table_infinite_marker row_max Hinf).
Defined.


(** ** The further properties at concrete inputs *)

Lemma calc_risk_range_witness :
  uniswap_v2_router ∈ Dict.keys (SAFE_SPENDERS_ETH (H := plain_lib)) /\
  INFINITE_THRESHOLD <= 2 ^ 256 - 1 /\
  calc_risk (H := plain_lib) (2 ^ 256 - 1) 100 uniswap_v2_router = 2.
Proof.
  assert (Hin : uniswap_v2_router ∈ Dict.keys (SAFE_SPENDERS_ETH (H := plain_lib))).
  { apply dict_contains_keys. vm_compute. reflexivity. }
  assert (Hinf : INFINITE_THRESHOLD <= 2 ^ 256 - 1)
    by (vm_compute; discriminate).
  split; [exact Hin |]. split; [exact Hinf |].
  destruct (calc_risk_range (H := plain_lib) (2 ^ 256 - 1) 100 uniswap_v2_router)
    as (_ & Hlisted & _).
  exact (proj2 (proj2 (Hlisted Hin)) Hinf).
Defined.

Lemma calc_risk_monotone_witness :
  150 <= 1100 /\
  calc_risk (H := plain_lib) 150 100 demo_spender
  <= calc_risk (H := plain_lib) 1100 100 demo_spender.
Proof.
  split; [lia |]. apply (calc_risk_monotone (H := plain_lib)). lia.
Defined.

Lemma calc_risk_zero_balance_witness :
  0 <= 10 ^ 30 < INFINITE_THRESHOLD /\
  calc_risk (H := plain_lib) (10 ^ 30) 0 demo_spender <= 2.
Proof.
  assert (Hr : 0 <= 10 ^ 30 < INFINITE_THRESHOLD)
    by (split; [vm_compute; discriminate | vm_compute; reflexivity]).
  split; [exact Hr |].
  exact (proj1 (calc_risk_zero_balance (H := plain_lib) (10 ^ 30) demo_spender Hr)).
Defined.

Lemma chunk_ranges_nonpositive_step_witness :
  0 <= 9 /\ 0 <= 0 /\
  (forall fuel, chunk_ranges fuel 0 9 0 = None) /\
  (forall n, length (chunk_take n 0 9 0) = n).
Proof.
  split; [lia |]. split; [lia |].
  destruct (chunk_ranges_nonpositive_step (H := plain_lib) 0 9 0
              ltac:(lia) ltac:(lia)) as (Hnone & Hall & _).
  split; assumption.
Defined.

Lemma chunk_ranges_within_witness :
  1 <= 4 /\
  (forall n c, c ∈ chunk_take n 0 9 4 ->
     0 <= fst c /\ fst c <= snd c /\ snd c <= 9 /\
     snd c - fst c + 1 <= 4 /\ (fst c - 0) mod 4 = 0) /\
  (0 <= 9 -> 9 - 0 + 1 <= 10 ->
   forall fuel, chunk_ranges (S (S fuel)) 0 9 10 = Some [(0, 9)]).
Proof.
  split; [lia |]. split.
  - exact (proj1 (chunk_ranges_within 0 9 4 ltac:(lia))).
  - exact (proj2 (chunk_ranges_within 0 9 10 ltac:(lia))).
Defined.

(** A run asked for the blocks from 10 down to 5. *)
Lemma scan_empty_range_witness :
  parse_args (world_of inverted_args failing_w3) None = Parsed inverted_args /\
  to_checksum_address (H := plain_lib) (arg_address inverted_args)
    = Ok demo_owner /\
  scan_bounds failing_w3 (arg_from_block inverted_args)
    (arg_to_block inverted_args) = Ok (10, 5) /\
  5 < 10 /\
  forall fuel,
    scan_approvals (H := plain_lib) (S fuel) failing_w3 demo_owner
      (arg_from_block inverted_args) (arg_to_block inverted_args)
      (arg_step inverted_args) = Some (Ok []) /\
    main (H := plain_lib) (H0 := plain_tabulate) (S fuel)
      (world_of inverted_args failing_w3) None
    = Some (banner 1 19 ++ [no_approvals_message], Returned 0).
Proof.
  split; [reflexivity |]. split; [reflexivity |]. split; [reflexivity |].
  split; [lia |]. intros fuel.
  destruct (scan_empty_range (H := plain_lib) (H0 := plain_tabulate)
              (world_of inverted_args failing_w3) None inverted_args
              demo_owner 10 5 eq_refl eq_refl eq_refl ltac:(lia) fuel)
    as [Hscan Hmain].
  split; [exact (Hscan demo_owner) |].
  exact (Hmain 1 19 eq_refl eq_refl eq_refl).
Defined.

(** A log of two topics after one that can be read. *)
Lemma scan_short_topics_witness :
  scan_bounds short_w3 (Some 0) (Some 19) = Ok (0, 19) /\
  chunk_ranges 3 0 19 10 = Some [(0, 9); (10, 19)] /\
  Forall2 (fun c logs =>
             eth_get_logs short_w3
               (scan_filter (H := plain_lib) demo_owner (fst c) (snd c)) = Ok logs)
          [(0, 9); (10, 19)] [[demo_log_early; short_log]; []] /\
  short_log ∈ concat [[demo_log_early; short_log]; []] /\
  (length (log_topics short_log) < 3)%nat /\
  forall fuel, (3 <= fuel)%nat ->
    scan_approvals (H := plain_lib) fuel short_w3 demo_owner
      (Some 0) (Some 19) 10 = Some (Raise IndexError).
Proof.
  assert (Hq : Forall2 (fun c logs =>
             eth_get_logs short_w3
               (scan_filter (H := plain_lib) demo_owner (fst c) (snd c)) = Ok logs)
          [(0, 9); (10, 19)] [[demo_log_early; short_log]; []])
    by (repeat constructor).
  assert (Hin : short_log ∈ concat [[demo_log_early; short_log]; []])
    by (simpl; repeat constructor).
  assert (Hlen : (length (log_topics short_log) < 3)%nat) by (simpl; lia).
  split; [reflexivity |]. split; [reflexivity |]. split; [exact Hq |].
  split; [exact Hin |]. split; [exact Hlen |].
  destruct (scan_short_topics (H := plain_lib) short_w3 demo_owner (Some 0)
              (Some 19) 10 0 19 3 [(0, 9); (10, 19)]
              [[demo_log_early; short_log]; []] short_log
              eq_refl eq_refl Hq Hin Hlen)
    as (e & Hrun & _ & Hfirst).
  rewrite (Hfirst [demo_log_early] [] eq_refl) in Hrun;
    [exact Hrun | | reflexivity].
  constructor; [vm_compute; reflexivity | constructor].
Defined.

Lemma scan_step_independent_witness :
  scan_bounds chain_w3 (Some 0) None = Ok (0, 19) /\
  1 <= 7 /\
  block_ordered demo_chain /\
  serves (H := plain_lib) chain_w3 demo_owner demo_chain /\
  Forall2 (fun lg ev => log_entry (H := plain_lib) lg = Ok ev)
          (logs_in_range demo_chain 0 19) [(demo_key, 5); (demo_key, 7)] /\
  forall fuel, (chunk_fuel 0 19 <= fuel)%nat ->
    scan_approvals (H := plain_lib) fuel chain_w3 demo_owner (Some 0) None 7
    = Some (Ok (Dict.update_all [] [(demo_key, 5); (demo_key, 7)])).
Proof.
  assert (Hord : block_ordered demo_chain).
  { unfold block_ordered, demo_chain. repeat constructor. simpl. lia. }
  assert (Hserves : serves (H := plain_lib) chain_w3 demo_owner demo_chain)
    by (intros a b; reflexivity).
  assert (Hdec : Forall2 (fun lg ev => log_entry (H := plain_lib) lg = Ok ev)
          (logs_in_range demo_chain 0 19) [(demo_key, 5); (demo_key, 7)])
    by (vm_compute; repeat constructor).
  split; [reflexivity |]. split; [lia |]. split; [exact Hord |].
  split; [exact Hserves |]. split; [exact Hdec |].
  exact (scan_step_independent (H := plain_lib) chain_w3 demo_owner (Some 0)
           None 7 0 19 demo_chain [(demo_key, 5); (demo_key, 7)]
           eq_refl ltac:(lia) Hord Hserves Hdec).
Defined.

Lemma scan_entries_from_logs_witness :
  scan_bounds demo_w3 (Some 0) (Some 19) = Ok (0, 19) /\
  chunk_ranges 3 0 19 10 = Some [(0, 9); (10, 19)] /\
  Forall2 (fun c logs =>
             eth_get_logs demo_w3
               (scan_filter (H := plain_lib) demo_owner (fst c) (snd c)) = Ok logs)
          [(0, 9); (10, 19)] [[demo_log_early]; [demo_log_late]] /\
  scan_approvals (H := plain_lib) 3 demo_w3 demo_owner (Some 0) (Some 19) 10
    = Some (Ok [(demo_key, 7)]) /\
  (demo_key, 7) ∈ [(demo_key, 7)] /\
  exists lg : Log,
    lg ∈ concat [[demo_log_early]; [demo_log_late]] /\
    to_checksum_address (H := plain_lib) (log_address lg) = Ok (fst demo_key) /\
    7 = int_from_bytes_big (log_data lg) /\
    0 <= 7 < 256 ^ Z.of_nat (length (log_data lg)).
Proof.
  assert (Hq : Forall2 (fun c logs =>
             eth_get_logs demo_w3
               (scan_filter (H := plain_lib) demo_owner (fst c) (snd c)) = Ok logs)
          [(0, 9); (10, 19)] [[demo_log_early]; [demo_log_late]])
    by (repeat constructor).
  assert (Hin : (demo_key, 7) ∈ [(demo_key, 7)]) by constructor.
  split; [reflexivity |]. split; [reflexivity |]. split; [exact Hq |].
  split; [reflexivity |]. split; [exact Hin |].
  destruct (scan_entries_from_logs (H := plain_lib) demo_w3 demo_owner
              (Some 0) (Some 19) 10 0 19 3 [(0, 9); (10, 19)]
              [[demo_log_early]; [demo_log_late]] [(demo_key, 7)]
              eq_refl eq_refl Hq eq_refl demo_key 7 Hin)
    as (lg & Hlg & Htok & _ & Hv & Hb & _).
  exists lg. split; [exact Hlg |]. split; [exact Htok |].
  split; [exact Hv | exact Hb].
Defined.

Lemma owner_topic_layout_witness :
  String.length demo_owner = 42%nat /\
  String.length (owner_topic demo_owner) = 66%nat /\
  last_chars 40 (owner_topic demo_owner) = lower (drop_chars 2 demo_owner).
Proof.
  split; [reflexivity |].
  destruct (owner_topic_layout demo_owner eq_refl) as (Hlen & _ & Hlast & _).
  split; assumption.
Defined.

Lemma build_report_rows_witness :
  build_report (H := plain_lib) demo_w3 demo_owner [(demo_key, 7)]
    = Ok [demo_report_row] /\
  Permutation (map row_key [demo_report_row]) (Dict.keys [(demo_key, 7)]) /\
  (forall r, r ∈ [demo_report_row] ->
     exists key, key ∈ Dict.keys [(demo_key, 7)] /\
                 row_for (H := plain_lib) demo_w3 demo_owner key r).
Proof.
  assert (Hrun : build_report (H := plain_lib) demo_w3 demo_owner
                   [(demo_key, 7)] = Ok [demo_report_row])
    by (vm_compute; reflexivity).
  split; [exact Hrun |].
  destruct (build_report_rows (H := plain_lib) demo_w3 demo_owner
              [(demo_key, 7)] [demo_report_row] Hrun)
    as (Hall & _ & Hperm & _).
  split; assumption.
Defined.

Lemma build_report_ignores_raw_witness :
  Dict.keys [(demo_key, 5)] = Dict.keys [(demo_key, 7)] /\
  build_report (H := plain_lib) demo_w3 demo_owner [(demo_key, 5)]
  = build_report (H := plain_lib) demo_w3 demo_owner [(demo_key, 7)].
Proof.
  split; [reflexivity |].
  apply (build_report_ignores_raw (H := plain_lib)). reflexivity.
Defined.

(** A report of three rows of risks 3, 2 and 1, cut to its first row, and
    cut of its last row. *)
Lemma slice_to_keeps_top_witness :
  build_report (H := plain_lib) trio_w3 demo_owner trio_pairs = Ok trio_rows /\
  slice_to 1 trio_rows = [demo_row spender_b3 1100 3] /\
  (exists cut : list AllowanceRow,
     trio_rows = slice_to 1 trio_rows ++ cut /\
     length cut = 2%nat /\
     (forall r r', r ∈ slice_to 1 trio_rows -> r' ∈ cut -> row_before r r') /\
     Z.of_nat (length (slice_to 1 trio_rows))
     = Z.min 1 (Z.of_nat (length trio_rows))) /\
  Z.of_nat (length (slice_to (-1) trio_rows))
  = Z.max 0 (Z.of_nat (length trio_rows) + -1).
Proof.
  assert (Hrun : build_report (H := plain_lib) trio_w3 demo_owner trio_pairs
                 = Ok trio_rows)
    by (vm_compute; reflexivity).
  split; [exact Hrun |]. split; [reflexivity |]. split.
  - destruct (slice_to_keeps_top (H := plain_lib) trio_w3 demo_owner
                trio_pairs trio_rows 1 Hrun)
      as (cut & Hsplit & Hbefore & Hcount & _).
    exists cut. split; [exact Hsplit |]. split; [| split].
    + apply (f_equal (@length AllowanceRow)) in Hsplit.
      rewrite length_app in Hsplit. simpl in Hsplit. lia.
    + exact Hbefore.
    + exact (Hcount ltac:(lia)).
  - destruct (slice_to_keeps_top (H := plain_lib) trio_w3 demo_owner
                trio_pairs trio_rows (-1) Hrun)
      as (cut & _ & _ & _ & Hcount).
    exact (Hcount ltac:(lia)).
Defined.

Lemma table_markers_witness :
  build_report (H := plain_lib) trio_w3 demo_owner trio_pairs = Ok trio_rows /\
  demo_row spender_b4 150 2 ∈ trio_rows /\
  (marker (demo_row spender_b4 150 2) = Some (CStr "•")
   <-> risk (demo_row spender_b4 150 2) = 2).
Proof.
  assert (Hrun : build_report (H := plain_lib) trio_w3 demo_owner trio_pairs
                 = Ok trio_rows)
    by (vm_compute; reflexivity).
  assert (Hin : demo_row spender_b4 150 2 ∈ trio_rows)
    by (unfold trio_rows; repeat constructor).
  split; [exact Hrun |]. split; [exact Hin |].
  destruct (table_markers (H := plain_lib) trio_w3 demo_owner
              trio_pairs trio_rows (demo_row spender_b4 150 2) Hrun Hin)
    as (_ & Hmid & _).
  exact Hmid.
Defined.

Lemma human_amount_exact_witness :
  0 < 6 /\ 0 <= 150000000 < 2 ^ 52 /\
  1500000 * 10 ^ 8 = 150000000 * 10 ^ 6 /\
  human_amount 1500000 6 = Ok (fixed8 150000000).
Proof.
  assert (Hq : 0 <= 150000000 < 2 ^ 52)
    by (split; [lia | vm_compute; reflexivity]).
  split; [lia |]. split; [exact Hq |]. split; [reflexivity |].
  exact (human_amount_exact 1500000 6 150000000 ltac:(lia) Hq eq_refl).
Defined.

Lemma human_amount_dust_witness :
  0 < 18 /\ 0 <= 1 /\ 4 * (1 * 10 ^ 8) <= 10 ^ 18 /\
  human_amount 1 18 = Ok "0"%string.
Proof.
  assert (Hs : 4 * (1 * 10 ^ 8) <= 10 ^ 18) by (vm_compute; discriminate).
  split; [lia |]. split; [lia |]. split; [exact Hs |].
  exact (human_amount_dust 1 18 ltac:(lia) ltac:(lia) Hs).
Defined.



Lemma table_infinite_marker_iff_witness :
  build_report (H := plain_lib) demo_w3 demo_owner [(demo_key, 7)]
    = Ok [demo_report_row] /\
  demo_report_row ∈ [demo_report_row] /\
  allow_cell false demo_report_row = Some (CStr (allowance demo_report_row)) /\
  (allowance_raw demo_report_row < INFINITE_THRESHOLD ->
   allow_cell true demo_report_row = Some (CStr (allowance demo_report_row))).
Proof.
  assert (Hrun : build_report (H := plain_lib) demo_w3 demo_owner
                   [(demo_key, 7)] = Ok [demo_report_row])
    by (vm_compute; reflexivity).
  assert (Hin : demo_report_row ∈ [demo_report_row]) by constructor.
  split; [exact Hrun |]. split; [exact Hin |].
  destruct (table_infinite_marker_iff (H := plain_lib) demo_w3 demo_owner
              [(demo_key, 7)] [demo_report_row] demo_report_row Hrun Hin)
    as (_ & Hbelow & Hoff & _).
  split; assumption.
Defined.

Lemma scan_default_window_witness :
  scan_bounds demo_w3 None None = Ok (0, 19) /\
  1 <= 3000 /\
  0 = Z.max (19 - 200000) 0 /\
  19 - 0 + 1 <= 200001 /\
  (forall n, Z.of_nat (length (chunk_take n 0 19 3000))
             <= ceil_div 200001 3000).
Proof.
  split; [reflexivity |]. split; [lia |].
  destruct (scan_default_window demo_w3 None 0 19 3000 eq_refl ltac:(lia))
    as (Hstart & Hspan & Hcount & _).
  split; [exact Hstart |]. split; assumption.
Defined.
